(** * zpaq 6.35: a shallow embedding of the journaling snapshot engine

    The development follows [zpaq.cpp]: byte order helpers, the decimal
    calendar, the fragment chunker of [Jidac::add], the fragment hash
    index [HTIndex], the journal reader [Jidac::read_archive] and the
    compression job queue ([CompressJob], [compressThread],
    [writeThread]).  The codec (libzpaq) and SHA-1 are outside the file
    and enter as section variables. *)

From stdpp Require Import base list gmap strings.
From Stdlib Require Import ZArith Lia.

Local Open Scope Z_scope.

(** ** Machine integers

    [int] and [unsigned] are 32 bits wide and [int64_t] is 64 bits wide.
    Values live in [Z]; every operation whose C++ type is narrower than
    its mathematical result is followed by the wrap-around of that type.
    Signed overflow has no defined result in C++; the model takes the
    two's-complement result that the usual targets produce. *)

Definition wrap_int (x : Z) : Z := (x + 2 ^ 31) mod 2 ^ 32 - 2 ^ 31.
Definition wrap_unsigned (x : Z) : Z := x mod 2 ^ 32.
Definition wrap_int64 (x : Z) : Z := (x + 2 ^ 63) mod 2 ^ 64 - 2 ^ 63.

Definition int_add (a b : Z) : Z := wrap_int (a + b).
Definition int_sub (a b : Z) : Z := wrap_int (a - b).
Definition int_mul (a b : Z) : Z := wrap_int (a * b).
Definition int_div (a b : Z) : Z := wrap_int (a ÷ b).

Definition b2z (b : bool) : Z := if b then 1 else 0.

Lemma wrap_int_small x : - 2 ^ 31 <= x < 2 ^ 31 -> wrap_int x = x.
Proof.
  intros H. unfold wrap_int.
  rewrite Z.mod_small by lia. lia.
Qed.

Lemma wrap_unsigned_small x : 0 <= x < 2 ^ 32 -> wrap_unsigned x = x.
Proof. intros H. unfold wrap_unsigned. now rewrite Z.mod_small. Qed.

Lemma wrap_int64_small x : - 2 ^ 63 <= x < 2 ^ 63 -> wrap_int64 x = x.
Proof.
  intros H. unfold wrap_int64.
  rewrite Z.mod_small by lia. lia.
Qed.

(** ** Decimal dates ([decimal_time], [unix_time]) *)

Module Date.

(** [int64_t decimal_time(time_t t)]; [time_t] is 64 bits wide. *)
Definition decimal_time (t : Z) : Z :=
  if t <=? 0 then -1 else
  let second := wrap_int (Z.rem t 60) in
  let minute := wrap_int (Z.rem (t ÷ 60) 60) in
  let hour := wrap_int (Z.rem (t ÷ 3600) 24) in
  let t := t ÷ 86400 in
  let term := wrap_int (t ÷ 1461) in
  let t := Z.rem t 1461 in
  let t := t + b2z (59 <=? t) in
  let t := t + b2z (425 <=? t) in
  let t := t + b2z (1157 <=? t) in
  let year := wrap_int (int_mul term 4 + t ÷ 366 + 1970) in
  let t := Z.rem t 366 in
  let t := t + b2z (60 <=? t) * 2 in
  let t := t + b2z (123 <=? t) in
  let t := t + b2z (185 <=? t) in
  let t := t + b2z (278 <=? t) in
  let t := t + b2z (340 <=? t) in
  let month := wrap_int (t ÷ 31 + 1) in
  let day := wrap_int (Z.rem t 31 + 1) in
  wrap_int64 (year * 10000000000 + int_mul month 100000000
              + int_mul day 1000000 + int_mul hour 10000
              + int_mul minute 100 + second).

Definition days : list Z :=
  [0; 31; 59; 90; 120; 151; 181; 212; 243; 273; 304; 334].

(** [days[month]]; a month field of 00 makes the source read
    [days[-1]], outside the table: the model answers 0 there. *)
Definition days_at (month : Z) : Z :=
  if month <? 0 then 0 else default 0 (days !! Z.to_nat month).

(** [time_t unix_time(int64_t date)]: every operand of the returned
    expression has type [int], so the expression is evaluated in [int]
    and only its result is widened to [time_t]. *)
Definition unix_time (date : Z) : Z :=
  if date <=? 0 then -1 else
  let year := wrap_int (Z.rem (date ÷ 10000000000) 10000) in
  let month := wrap_int (Z.rem (Z.rem (date ÷ 100000000) 100 - 1) 12) in
  let day := wrap_int (Z.rem (date ÷ 1000000) 100) in
  let hour := wrap_int (Z.rem (date ÷ 10000) 100) in
  let min := wrap_int (Z.rem (date ÷ 100) 100) in
  let sec := wrap_int (Z.rem date 100) in
  let leap := b2z ((Z.rem year 4 =? 0) && (1 <? month)) in
  let dayno :=
    int_add (int_add (int_add (int_sub day 1) (days_at month)) leap)
            (int_div (int_add (int_mul (int_sub year 1970) 1461) 1) 4) in
  int_add (int_add (int_add (int_mul dayno 86400) (int_mul hour 3600))
                   (int_mul min 60)) sec.

Example decimal_time_epoch_day : decimal_time 86400 = 19700102000000.
Proof. reflexivity. Qed.

Example decimal_time_leap : decimal_time 951782400 = 20000229000000.
Proof. reflexivity. Qed.

Example unix_time_leap : unix_time 20000229000000 = 951782400.
Proof. reflexivity. Qed.

Example decimal_time_2038 : decimal_time 2147483648 = 20380119031408.
Proof. reflexivity. Qed.

Example unix_time_2038 : unix_time 20380119031408 = -2147483648.
Proof. reflexivity. Qed.

End Date.

(** ** Little-endian integers ([btoi], [btol], [itob], [ltob])

    A byte is a [Z] in [0, 256).  A [const char*] cursor is the list of
    the bytes from the cursor to the end of the buffer: advancing the
    cursor by [n] is [drop n], and [end - s] is the length of the list.
    Bytes read beyond the end of the buffer are 0 in the model. *)

Module Bytes.

Definition byte_at (s : list Z) (i : nat) : Z := Z.land (default 0 (s !! i)) 255.

(** [int btoi(const char* &s)]: the value; the caller advances by 4. *)
Definition btoi (s : list Z) : Z :=
  wrap_int (Z.lor (Z.lor (Z.lor (byte_at s 0) (Z.shiftl (byte_at s 1) 8))
                         (Z.shiftl (byte_at s 2) 16))
                  (Z.shiftl (byte_at s 3) 24)).

(** [unsigned(btoi(s))] *)
Definition btou (s : list Z) : Z := wrap_unsigned (btoi s).

(** [int64_t btol(const char* &s)]; the caller advances by 8. *)
Definition btol (s : list Z) : Z :=
  let r := btou s in
  wrap_int64 (r + wrap_int64 (Z.shiftl (btoi (drop 4 s)) 32)).

Definition to_char (x : Z) : Z := x mod 256.

(** [string itob(unsigned x)] *)
Definition itob (x : Z) : list Z :=
  let x := wrap_unsigned x in
  [to_char x; to_char (Z.shiftr x 8); to_char (Z.shiftr x 16);
   to_char (Z.shiftr x 24)].

(** [string ltob(int64_t x)] *)
Definition ltob (x : Z) : list Z :=
  [to_char x; to_char (Z.shiftr x 8); to_char (Z.shiftr x 16);
   to_char (Z.shiftr x 24); to_char (Z.shiftr x 32); to_char (Z.shiftr x 40);
   to_char (Z.shiftr x 48); to_char (Z.shiftr x 56)].

Lemma lor_shiftl_add a b n :
  0 <= n -> 0 <= a < 2 ^ n -> Z.lor a (Z.shiftl b n) = a + b * 2 ^ n.
Proof.
  intros Hn Ha.
  rewrite Z.shiftl_mul_pow2 by lia.
  assert (Hland : Z.land a (b * 2 ^ n) = 0).
  { apply Z.bits_inj'. intros i Hi.
    rewrite Z.land_spec, Z.bits_0.
    destruct (Z.lt_ge_cases i n) as [Hlt | Hge].
    - rewrite Z.mul_pow2_bits_low by lia. apply andb_false_r.
    - destruct (Z.eq_dec a 0) as [-> | Hne].
      + now rewrite Z.bits_0.
      + rewrite (Z.bits_above_log2 a i); [reflexivity | lia |].
        assert (Z.log2 a < n) by (apply Z.log2_lt_pow2; lia). lia. }
  rewrite <- Z.lxor_lor by exact Hland.
  symmetry. apply Z.add_nocarry_lxor. exact Hland.
Qed.

Lemma land_255 x : Z.land x 255 = x mod 256.
Proof. change 255 with (Z.ones 8). rewrite Z.land_ones by lia. reflexivity. Qed.

Lemma byte_at_range s i : 0 <= byte_at s i < 256.
Proof. unfold byte_at. rewrite land_255. apply Z.mod_pos_bound. lia. Qed.

(** The arithmetic reading of [btoi]. *)
Lemma btoi_sum s :
  btoi s = wrap_int (byte_at s 0 + byte_at s 1 * 2 ^ 8
                     + byte_at s 2 * 2 ^ 16 + byte_at s 3 * 2 ^ 24).
Proof.
  unfold btoi.
  pose proof (byte_at_range s 0). pose proof (byte_at_range s 1).
  pose proof (byte_at_range s 2). pose proof (byte_at_range s 3).
  rewrite (lor_shiftl_add (byte_at s 0)) by lia.
  rewrite (lor_shiftl_add (_ + _) _ 16) by lia.
  rewrite (lor_shiftl_add (_ + _) _ 24) by lia.
  reflexivity.
Qed.

Lemma wrap_unsigned_wrap_int x : wrap_unsigned (wrap_int x) = wrap_unsigned x.
Proof.
  unfold wrap_unsigned, wrap_int.
  rewrite <- Zminus_mod_idemp_l, Z.mod_mod by lia.
  rewrite Zminus_mod_idemp_l.
  replace (x + 2 ^ 31 - 2 ^ 31) with x by lia. reflexivity.
Qed.

Lemma btou_sum s :
  btou s = byte_at s 0 + byte_at s 1 * 2 ^ 8
           + byte_at s 2 * 2 ^ 16 + byte_at s 3 * 2 ^ 24.
Proof.
  unfold btou. rewrite btoi_sum, wrap_unsigned_wrap_int.
  pose proof (byte_at_range s 0). pose proof (byte_at_range s 1).
  pose proof (byte_at_range s 2). pose proof (byte_at_range s 3).
  apply wrap_unsigned_small. lia.
Qed.

Lemma btou_range s : 0 <= btou s < 2 ^ 32.
Proof. unfold btou, wrap_unsigned. apply Z.mod_pos_bound. lia. Qed.

Lemma byte_at_to_char x : Z.land (to_char x) 255 = to_char x.
Proof.
  unfold to_char. rewrite land_255. apply Z.mod_mod. lia.
Qed.

(** Reading back what [itob] wrote. *)
Lemma btou_itob x r : 0 <= x < 2 ^ 32 -> btou (itob x ++ r) = x.
Proof.
  intros Hx. rewrite btou_sum. unfold itob, byte_at.
  rewrite (wrap_unsigned_small x) by lia.
  cbn [app lookup list_lookup default]. unfold id.
  rewrite !byte_at_to_char. unfold to_char.
  rewrite !Z.shiftr_div_pow2 by lia.
  replace (x / 2 ^ 16) with (x / 2 ^ 8 / 2 ^ 8)
    by (rewrite Z.div_div by lia; reflexivity).
  replace (x / 2 ^ 24) with (x / 2 ^ 8 / 2 ^ 8 / 2 ^ 8)
    by (rewrite !Z.div_div by lia; reflexivity).
  change (2 ^ 8) with 256. change (2 ^ 16) with (256 * 256).
  change (2 ^ 24) with (256 * 256 * 256).
  pose proof (Z.div_mod x 256 ltac:(lia)).
  pose proof (Z.div_mod (x / 256) 256 ltac:(lia)).
  pose proof (Z.div_mod (x / 256 / 256) 256 ltac:(lia)).
  assert (x / 256 / 256 / 256 < 256).
  { apply Z.div_lt_upper_bound; [lia|]. apply Z.div_lt_upper_bound; [lia|].
    apply Z.div_lt_upper_bound; lia. }
  assert (0 <= x / 256 / 256 / 256) by (repeat apply Z.div_pos; lia).
  rewrite (Z.mod_small (x / 256 / 256 / 256)) by lia.
  lia.
Qed.

Lemma btoi_btou s : btoi s = wrap_int (btou s).
Proof. now rewrite btoi_sum, btou_sum. Qed.

Lemma btoi_itob x r : 0 <= x < 2 ^ 31 -> btoi (itob x ++ r) = x.
Proof.
  intros Hx. rewrite btoi_btou, btou_itob by lia. apply wrap_int_small. lia.
Qed.

Lemma length_itob x : length (itob x) = 4%nat.
Proof. reflexivity. Qed.

Lemma length_ltob x : length (ltob x) = 8%nat.
Proof. reflexivity. Qed.

(** The four low bytes of a number, put together again. *)
Lemma four_bytes y :
  y mod 256 + (y / 2 ^ 8) mod 256 * 2 ^ 8 + (y / 2 ^ 16) mod 256 * 2 ^ 16
  + (y / 2 ^ 24) mod 256 * 2 ^ 24 = y mod 2 ^ 32.
Proof.
  replace (y / 2 ^ 16) with (y / 2 ^ 8 / 2 ^ 8)
    by (rewrite Z.div_div by lia; reflexivity).
  replace (y / 2 ^ 24) with (y / 2 ^ 8 / 2 ^ 8 / 2 ^ 8)
    by (rewrite !Z.div_div by lia; reflexivity).
  change (2 ^ 8) with 256. change (2 ^ 16) with (256 * 256).
  change (2 ^ 24) with (256 * 256 * 256).
  change (2 ^ 32) with (256 * (256 * (256 * 256))).
  rewrite (Z.rem_mul_r y 256) by lia.
  rewrite (Z.rem_mul_r (y / 256) 256) by lia.
  rewrite (Z.rem_mul_r (y / 256 / 256) 256) by lia.
  lia.
Qed.

(** Reading back what [ltob] wrote. *)
Lemma btol_ltob x r : 0 <= x < 2 ^ 63 -> btol (ltob x ++ r) = x.
Proof.
  intros Hx. unfold btol.
  assert (Hlo : btou (ltob x ++ r) = x mod 2 ^ 32).
  { rewrite btou_sum. unfold ltob, byte_at.
    cbn [app lookup list_lookup default]. unfold id.
    rewrite !byte_at_to_char. unfold to_char.
    rewrite !Z.shiftr_div_pow2 by lia. apply four_bytes. }
  assert (Hhi : btoi (drop 4 (ltob x ++ r)) = x / 2 ^ 32).
  { rewrite btoi_btou, btou_sum. unfold ltob, byte_at.
    cbn [app drop lookup list_lookup default]. unfold id.
    rewrite !byte_at_to_char. unfold to_char.
    rewrite !Z.shiftr_div_pow2 by lia.
    replace (x / 2 ^ 40) with (x / 2 ^ 32 / 2 ^ 8)
      by (rewrite Z.div_div by lia; reflexivity).
    replace (x / 2 ^ 48) with (x / 2 ^ 32 / 2 ^ 16)
      by (rewrite Z.div_div by lia; reflexivity).
    replace (x / 2 ^ 56) with (x / 2 ^ 32 / 2 ^ 24)
      by (rewrite Z.div_div by lia; reflexivity).
    rewrite four_bytes.
    assert (0 <= x / 2 ^ 32 < 2 ^ 31).
    { split; [apply Z.div_pos; lia | apply Z.div_lt_upper_bound; lia]. }
    rewrite Z.mod_small by lia. apply wrap_int_small. lia. }
  rewrite Hlo, Hhi, Z.shiftl_mul_pow2 by lia.
  assert (0 <= x / 2 ^ 32 < 2 ^ 31).
  { split; [apply Z.div_pos; lia | apply Z.div_lt_upper_bound; lia]. }
  pose proof (Z.mod_pos_bound x (2 ^ 32) ltac:(lia)).
  rewrite (wrap_int64_small (x / 2 ^ 32 * 2 ^ 32)) by lia.
  pose proof (Z.div_mod x (2 ^ 32) ltac:(lia)).
  rewrite wrap_int64_small by lia. lia.
Qed.

(** *** Round trips *)

Lemma wrap_int_shift x : exists k, wrap_int x = x + k * 2 ^ 32.
Proof.
  unfold wrap_int. exists (- ((x + 2 ^ 31) / 2 ^ 32)).
  pose proof (Z.div_mod (x + 2 ^ 31) (2 ^ 32) ltac:(lia)). lia.
Qed.

Lemma wrap_int64_shift x : exists k, wrap_int64 x = x + k * 2 ^ 64.
Proof.
  unfold wrap_int64. exists (- ((x + 2 ^ 63) / 2 ^ 64)).
  pose proof (Z.div_mod (x + 2 ^ 63) (2 ^ 64) ltac:(lia)). lia.
Qed.

Lemma wrap_int64_plus x k : wrap_int64 (x + k * 2 ^ 64) = wrap_int64 x.
Proof.
  unfold wrap_int64.
  replace (x + k * 2 ^ 64 + 2 ^ 63) with (x + 2 ^ 63 + k * 2 ^ 64) by lia.
  now rewrite Z_mod_plus_full.
Qed.

Lemma wrap_int_plus x k : wrap_int (x + k * 2 ^ 32) = wrap_int x.
Proof.
  unfold wrap_int.
  replace (x + k * 2 ^ 32 + 2 ^ 31) with (x + 2 ^ 31 + k * 2 ^ 32) by lia.
  now rewrite Z_mod_plus_full.
Qed.

Lemma wrap_int_wrap_unsigned x : wrap_int (wrap_unsigned x) = wrap_int x.
Proof.
  unfold wrap_unsigned.
  pose proof (Z.div_mod x (2 ^ 32) ltac:(lia)).
  replace (x mod 2 ^ 32) with (x + (- (x / 2 ^ 32)) * 2 ^ 32) by lia.
  apply wrap_int_plus.
Qed.

Lemma itob_wrap x : itob (wrap_unsigned x) = itob x.
Proof.
  unfold itob.
  replace (wrap_unsigned (wrap_unsigned x)) with (wrap_unsigned x)
    by (unfold wrap_unsigned; now rewrite Z.mod_mod by lia).
  reflexivity.
Qed.

(** X1.  What [itob] writes, [btoi] reads back: the four bytes of
    [itob(x)], whatever follows them, are read as [x] taken as a value
    of [unsigned] (by [unsigned(btoi(s))]) and as the [int] with the same
    32 bits. *)
Theorem itob_round_trip (x : Z) (r : list Z) :
  btou (itob x ++ r) = wrap_unsigned x /\ btoi (itob x ++ r) = wrap_int x.
Proof.
  assert (H : btou (itob x ++ r) = wrap_unsigned x).
  { rewrite <- itob_wrap. apply btou_itob. apply Z.mod_pos_bound. lia. }
  split; [exact H|]. rewrite btoi_btou, H. apply wrap_int_wrap_unsigned.
Qed.

(** X2.  What [ltob] writes, [btol] reads back: the eight bytes of
    [ltob(x)], whatever follows them, are read as the [int64_t] with the
    64 bits of [x]; negative numbers too. *)
Theorem ltob_round_trip (x : Z) (r : list Z) :
  btol (ltob x ++ r) = wrap_int64 x.
Proof.
  unfold btol.
  assert (Hlo : btou (ltob x ++ r) = x mod 2 ^ 32).
  { rewrite btou_sum. unfold ltob, byte_at.
    cbn [app lookup list_lookup default]. unfold id.
    rewrite !byte_at_to_char. unfold to_char.
    rewrite !Z.shiftr_div_pow2 by lia. apply four_bytes. }
  assert (Hhi : btoi (drop 4 (ltob x ++ r)) = wrap_int (x / 2 ^ 32)).
  { rewrite btoi_btou, btou_sum. unfold ltob, byte_at.
    cbn [app drop lookup list_lookup default]. unfold id.
    rewrite !byte_at_to_char. unfold to_char.
    rewrite !Z.shiftr_div_pow2 by lia.
    replace (x / 2 ^ 40) with (x / 2 ^ 32 / 2 ^ 8)
      by (rewrite Z.div_div by lia; reflexivity).
    replace (x / 2 ^ 48) with (x / 2 ^ 32 / 2 ^ 16)
      by (rewrite Z.div_div by lia; reflexivity).
    replace (x / 2 ^ 56) with (x / 2 ^ 32 / 2 ^ 24)
      by (rewrite Z.div_div by lia; reflexivity).
    rewrite four_bytes. apply wrap_int_wrap_unsigned. }
  rewrite Hlo, Hhi, Z.shiftl_mul_pow2 by lia.
  destruct (wrap_int_shift (x / 2 ^ 32)) as [k ->].
  destruct (wrap_int64_shift ((x / 2 ^ 32 + k * 2 ^ 32) * 2 ^ 32)) as [k' ->].
  pose proof (Z.div_mod x (2 ^ 32) ltac:(lia)).
  replace (x mod 2 ^ 32 + ((x / 2 ^ 32 + k * 2 ^ 32) * 2 ^ 32 + k' * 2 ^ 64))
    with (x + (k + k') * 2 ^ 64) by lia.
  apply wrap_int64_plus.
Qed.

End Bytes.

(** ** The fragment chunker (the "Read a fragment" loop of [Jidac::add]) *)

Module Chunker.

Definition MIN_FRAGMENT : Z := 4096.
Definition MAX_FRAGMENT : Z := 520192.

(** The locals of the loop: rolling hash [h], previous byte [c1],
    order-1 table [o1], fragment size [sz] and prediction count [hits]. *)
Record state := mkState {
  h : Z;
  c1 : Z;
  o1 : list Z;
  sz : Z;
  hits : Z
}.

Definition init : state := mkState 0 0 (replicate 256 0) 0 0.

Definition o1_at (t : list Z) (i : Z) : Z := default 0 (t !! Z.to_nat i).

Definition predicted (c : Z) (s : state) : bool := c =? o1_at (o1 s) (c1 s).

(** The body of [if (c!=EOF) {...}] apart from [sb.put] and [sha1.put]. *)
Definition put (c : Z) (s : state) : state :=
  {| h := if predicted c s
          then wrap_unsigned (wrap_unsigned (h s + c + 1) * 314159265)
          else wrap_unsigned (wrap_unsigned (h s + c + 1) * 271828182);
     c1 := c;
     o1 := <[Z.to_nat (c1 s) := c]> (o1 s);
     sz := wrap_unsigned (sz s + 1);
     hits := if predicted c s then wrap_unsigned (hits s + 1) else hits s |}.

(** [(h<65536 && sz>=MIN_FRAGMENT) || sz>=MAX_FRAGMENT] *)
Definition cut (s : state) : bool :=
  (h s <? 65536) && (MIN_FRAGMENT <=? sz s) || (MAX_FRAGMENT <=? sz s).

(** One run of the loop on the unread bytes of the open file: the bytes
    of the fragment, the bytes left in the file, whether the loop ended
    on [c==EOF], and the locals at the [break]. *)
Fixpoint read_fragment (input : list Z) (s : state)
  : list Z * list Z * bool * state :=
  match input with
  | [] => ([], [], true, s)
  | c :: rest =>
      let s' := put c s in
      if cut s' then ([c], rest, false, s')
      else let '(f, r, e, s'') := read_fragment rest s' in (c :: f, r, e, s'')
  end.

(** The locals after the bytes [l] went through the loop body. *)
Definition run (s : state) (l : list Z) : state :=
  fold_left (fun s c => put c s) l s.

Definition fragment_of (input : list Z) : list Z := (read_fragment input init).1.1.1.
Definition eof_of (input : list Z) : bool := (read_fragment input init).1.2.

Lemma run_snoc s l c : run s (l ++ [c]) = put c (run s l).
Proof. unfold run. now rewrite fold_left_app. Qed.

Lemma read_fragment_spec input : forall s f r e s',
  read_fragment input s = (f, r, e, s') ->
  input = f ++ r /\ s' = run s f /\
  (forall k, (0 < k < length f)%nat -> cut (run s (take k f)) = false) /\
  (e = false -> f <> [] /\ cut s' = true) /\
  (e = true -> r = [] /\ (f = [] \/ cut s' = false)).
Proof.
  induction input as [|c rest IH]; intros s f r e s' Heq; cbn in Heq.
  - inversion Heq; subst.
    split; [reflexivity|]. split; [reflexivity|]. split; [|split].
    + intros k Hk. cbn in Hk. lia.
    + discriminate.
    + intros _. split; [reflexivity | now left].
  - destruct (cut (put c s)) eqn:Hcut.
    + inversion Heq; subst.
      split; [reflexivity|]. split; [reflexivity|]. split; [|split].
      * intros k Hk. cbn in Hk. lia.
      * intros _. split; [discriminate | exact Hcut].
      * discriminate.
    + destruct (read_fragment rest (put c s)) as [[[f0 r0] e0] s0] eqn:Hrec.
      inversion Heq; subst.
      destruct (IH _ _ _ _ _ Hrec) as (Hin & Hs & Hno & Hf & Ht).
      split; [cbn; now rewrite <- Hin|]. split; [exact Hs|]. split; [|split].
      * intros k Hk. destruct k as [|k]; [lia|]. cbn.
        destruct k as [|k].
        -- rewrite take_0. exact Hcut.
        -- apply Hno. cbn in Hk. lia.
      * intros He. split; [discriminate | now apply Hf].
      * intros He. destruct (Ht He) as [Hr [Hnil | Hc]].
        -- split; [exact Hr|]. right. rewrite Hs, Hnil. exact Hcut.
        -- split; [exact Hr | now right].
Qed.

Lemma sz_run s l :
  0 <= sz s -> sz s + Z.of_nat (length l) < 2 ^ 32 ->
  sz (run s l) = sz s + Z.of_nat (length l).
Proof.
  revert s. induction l as [|c l IH]; intros s H0 Hb; cbn.
  - lia.
  - cbn [length] in Hb.
    assert (Hs : sz (put c s) = sz s + 1).
    { cbn. apply wrap_unsigned_small. lia. }
    fold (run (put c s) l). rewrite IH; lia.
Qed.

Lemma read_fragment_length input : forall s f r e s',
  read_fragment input s = (f, r, e, s') ->
  0 <= sz s < MAX_FRAGMENT ->
  sz s + Z.of_nat (length f) <= MAX_FRAGMENT.
Proof.
  unfold MAX_FRAGMENT.
  induction input as [|c rest IH]; intros s f r e s' Heq Hsz; cbn in Heq.
  - inversion Heq; subst. cbn. lia.
  - assert (Hs : sz (put c s) = sz s + 1).
    { cbn. apply wrap_unsigned_small. lia. }
    destruct (cut (put c s)) eqn:Hcut.
    + inversion Heq; subst. cbn. lia.
    + destruct (read_fragment rest (put c s)) as [[[f0 r0] e0] s0] eqn:Hrec.
      inversion Heq; subst. cbn [length].
      unfold cut, MAX_FRAGMENT in Hcut.
      apply orb_false_iff in Hcut as [_ Hmax].
      apply Z.leb_gt in Hmax.
      specialize (IH _ _ _ _ _ Hrec). lia.
Qed.




(** A short file is one fragment, ended by the end of input. *)
Example fragment_of_zeros :
  fragment_of (replicate 5 0) = replicate 5 0 /\ eof_of (replicate 5 0) = true.
Proof. split; reflexivity. Qed.

(** The first byte: 0 is what the empty table predicts, 5 is not. *)
Example first_byte_hash :
  h (put 0 init) = 314159265 /\ h (put 5 init) = 1630969092.
Proof. split; reflexivity. Qed.

End Chunker.

(** ** The archive state ([HT], [DTV], [DT], [VER]) *)

Definition EXTRACTED : Z := 0x7FFFFFFFFFFFFFFE.
Definition HT_BAD : Z := 0x7FFFFFFFFFFFFFFA.

(** Fragment hash table entry. *)
Record HT := mkHT {
  sha1 : list Z;   (* unsigned char sha1[20] *)
  usize : Z;       (* int: uncompressed size, -1 if unknown *)
  csize : Z        (* int64_t *)
}.

(** [HT()]: the default arguments of the constructor. *)
Definition HT0 : HT := mkHT (replicate 20 0) (-1) HT_BAD.

(** Filename version entry. *)
Record DTV := mkDTV {
  dtv_date : Z;
  dtv_size : Z;
  dtv_attr : Z;
  dtv_ptr : list Z;      (* vector<unsigned> *)
  dtv_version : Z
}.

Definition DTV0 : DTV := mkDTV 0 0 0 [] 0.

(** Filename entry. *)
Record DT := mkDT {
  edate : Z;
  esize : Z;
  eattr : Z;
  eptr : list Z;         (* vector<unsigned> *)
  dtv : list DTV;
  written : Z
}.

Definition DT0 : DT := mkDT 0 0 0 [] [] (-1).

(** Version info. *)
Record VER := mkVER {
  ver_date : Z;
  ver_usize : Z;
  ver_offset : Z;
  ver_updates : Z;
  ver_deletes : Z;
  ver_firstFragment : Z
}.

Definition VER0 : VER := mkVER 0 0 0 0 0 0.

(** [ht[i]] for an index known to be in range; [v.size()]. *)
Definition ht_at (ht : list HT) (i : nat) : HT := default HT0 (ht !! i).
Definition vsize {A} (l : list A) : Z := Z.of_nat (length l).

(** ** The fragment hash index ([HTIndex]) *)

Module Index.

Definition N : Z := Z.shiftl 1 22.

(** [t] maps a bucket number to the fragment IDs filed there (a missing
    key is an empty bucket); [htsize] is the number of IDs seen. *)
Record HTIndex := mkIndex {
  t : gmap Z (list Z);
  htsize : nat
}.

(** [unsigned hash(const unsigned char* sha1)] *)
Definition hash (s : list Z) : Z :=
  Z.land (Z.lor (Z.lor (Bytes.byte_at s 0) (Z.shiftl (Bytes.byte_at s 1) 8))
                (Z.shiftl (Bytes.byte_at s 2) 16))
         (N - 1).

Definition bucket (ix : HTIndex) (k : Z) : list Z := default [] (t ix !! k).

(** [memcmp(a, b, 20)==0] *)
Definition same_hash (a b : list Z) : bool := bool_decide (take 20 a = take 20 b).

(** The scan of one bucket in [find]. *)
Fixpoint find_in (htr : list HT) (s : list Z) (v : list Z) : Z :=
  match v with
  | [] => 0
  | i :: v' => if same_hash s (sha1 (ht_at htr (Z.to_nat i))) then i
               else find_in htr s v'
  end.

(** [unsigned find(const char* sha1)]: the index, or 0 if not found. *)
Definition find (htr : list HT) (ix : HTIndex) (s : list Z) : Z :=
  find_in htr s (bucket ix (hash s)).

(** One step of the loop of [update]: file ID [i] if its size is known. *)
Definition file_id (htr : list HT) (tbl : gmap Z (list Z)) (i : nat)
  : gmap Z (list Z) :=
  if 0 <=? usize (ht_at htr i)
  then let k := hash (sha1 (ht_at htr i)) in
       <[k := default [] (tbl !! k) ++ [wrap_unsigned (Z.of_nat i)]]> tbl
  else tbl.

(** [void update()]: index [htr[htsize .. htr.size())]. *)
Definition update (htr : list HT) (ix : HTIndex) : HTIndex :=
  {| t := fold_left (file_id htr) (seq (htsize ix) (length htr - htsize ix)) (t ix);
     htsize := Nat.max (htsize ix) (length htr) |}.

(** [HTIndex(vector<HT>& r)] *)
Definition new (htr : list HT) : HTIndex := update htr (mkIndex ∅ 0).

(** What [find] returns, when not 0, is an entry with the hash asked for. *)
Lemma find_in_hit htr s v :
  find_in htr s v <> 0 ->
  same_hash s (sha1 (ht_at htr (Z.to_nat (find_in htr s v)))) = true.
Proof.
  induction v as [|i v IH]; cbn; intros H.
  - congruence.
  - destruct (same_hash s (sha1 (ht_at htr (Z.to_nat i)))) eqn:E; auto.
Qed.

(** *** What the index holds *)

(** Entry [i] of the table is filed under bucket [k]. *)
Definition filed (htr : list HT) (k : Z) (i : nat) : Prop :=
  0 <= usize (ht_at htr i) /\ hash (sha1 (ht_at htr i)) = k.

#[local] Instance filed_dec htr k i : Decision (filed htr k i).
Proof. unfold filed. apply _. Defined.

Definition id_of (i : nat) : Z := wrap_unsigned (Z.of_nat i).

Lemma fold_file_id htr k n : forall a tbl,
  default [] (fold_left (file_id htr) (seq a n) tbl !! k)
  = default [] (tbl !! k) ++ map id_of (filter (filed htr k) (seq a n)).
Proof.
  induction n as [|n IH]; intros a tbl; cbn [seq fold_left].
  - now rewrite app_nil_r.
  - rewrite IH. unfold file_id.
    rewrite filter_cons.
    destruct (Z.leb_spec 0 (usize (ht_at htr a))) as [Hu | Hu].
    + destruct (decide (hash (sha1 (ht_at htr a)) = k)) as [Hk | Hk].
      * rewrite decide_True by (split; assumption).
        rewrite Hk, lookup_insert_eq. cbn [default from_option id map].
        now rewrite <- app_assoc.
      * rewrite decide_False by (intros [_ ?]; contradiction).
        now rewrite lookup_insert_ne by exact Hk.
    + rewrite decide_False by (intros [? _]; lia). reflexivity.
Qed.

(** The bucket of a fresh index: the filed entries, in table order. *)
Lemma bucket_new htr k :
  bucket (new htr) k = map id_of (filter (filed htr k) (seq 0 (length htr))).
Proof.
  unfold bucket, new, update. cbn [t htsize].
  rewrite Nat.sub_0_r, fold_file_id, lookup_empty. reflexivity.
Qed.

Lemma same_hash_bucket a b : same_hash a b = true -> hash a = hash b.
Proof.
  unfold same_hash. intros H. apply bool_decide_eq_true_1 in H.
  assert (Hb : forall i : nat, (i < 20)%nat -> Bytes.byte_at a i = Bytes.byte_at b i).
  { intros i Hi. unfold Bytes.byte_at.
    rewrite <- (lookup_take_lt a 20 i), <- (lookup_take_lt b 20 i) by exact Hi.
    now rewrite H. }
  unfold hash. rewrite !Hb by lia. reflexivity.
Qed.

(** The scan of a bucket of a fresh index answers the first filed
    entry with the hash asked for. *)
Lemma find_in_seq htr s k (n : nat) : forall a : nat,
  Z.of_nat (a + n) < 2 ^ 32 ->
  (find_in htr s (map id_of (filter (filed htr k) (seq a n))) = 0 /\
   forall i : nat, (a <= i < a + n)%nat -> filed htr k i ->
                   same_hash s (sha1 (ht_at htr i)) = false)
  \/ exists j : nat,
       (a <= j < a + n)%nat /\
       find_in htr s (map id_of (filter (filed htr k) (seq a n))) = Z.of_nat j /\
       filed htr k j /\ same_hash s (sha1 (ht_at htr j)) = true /\
       forall i : nat, (a <= i < j)%nat -> filed htr k i ->
                       same_hash s (sha1 (ht_at htr i)) = false.
Proof.
  induction n as [|n IH]; intros a Hlt.
  - left. split; [reflexivity|]. intros i Hi. lia.
  - cbn [seq]. rewrite filter_cons.
    assert (Hid : id_of a = Z.of_nat a)
      by (unfold id_of; apply wrap_unsigned_small; lia).
    assert (Hrest : forall (P : Prop),
              (forall i : nat, (a <= i < a + 1)%nat -> filed htr k i ->
                 same_hash s (sha1 (ht_at htr i)) = false) ->
              ((find_in htr s (map id_of (filter (filed htr k) (seq (S a) n))) = 0 /\
                forall i : nat, (a <= i < a + S n)%nat -> filed htr k i ->
                   same_hash s (sha1 (ht_at htr i)) = false)
               \/ exists j : nat,
                    (a <= j < a + S n)%nat /\
                    find_in htr s (map id_of (filter (filed htr k) (seq (S a) n)))
                    = Z.of_nat j /\
                    filed htr k j /\ same_hash s (sha1 (ht_at htr j)) = true /\
                    forall i : nat, (a <= i < j)%nat -> filed htr k i ->
                       same_hash s (sha1 (ht_at htr i)) = false)).
    { intros _ Ha.
      destruct (IH (S a) ltac:(lia)) as [[H0 Hnone] | (j & Hj & Hf & Hfj & Hsj & Hbefore)].
      - left. split; [exact H0|]. intros i Hi Hfi.
        destruct (decide (i = a)) as [-> | Hne]; [apply Ha; [lia | exact Hfi]|].
        apply Hnone; [lia | exact Hfi].
      - right. exists j. split; [lia|]. split; [exact Hf|].
        split; [exact Hfj|]. split; [exact Hsj|]. intros i Hi Hfi.
        destruct (decide (i = a)) as [-> | Hne]; [apply Ha; [lia | exact Hfi]|].
        apply Hbefore; [lia | exact Hfi]. }
    destruct (decide (filed htr k a)) as [Hfa | Hfa].
    + cbn [map find_in]. rewrite Hid, Nat2Z.id.
      destruct (same_hash s (sha1 (ht_at htr a))) eqn:Hs.
      * right. exists a. split; [lia|]. split; [reflexivity|].
        split; [exact Hfa|]. split; [exact Hs|]. intros i Hi. lia.
      * apply (Hrest True). intros i Hi _.
        replace i with a by lia. exact Hs.
    + apply (Hrest True). intros i Hi Hfi.
      replace i with a in Hfi by lia. contradiction.
Qed.

(** [find] on a fresh index: the first entry of known size with the
    hash asked for, or 0. *)
Lemma find_new htr s :
  vsize htr < 2 ^ 32 ->
  (forall i : nat, (i < length htr)%nat -> 0 <= usize (ht_at htr i) ->
     same_hash s (sha1 (ht_at htr i)) = true ->
     exists j : nat,
       find htr (new htr) s = Z.of_nat j /\ (j <= i)%nat /\
       0 <= usize (ht_at htr j) /\ same_hash s (sha1 (ht_at htr j)) = true /\
       forall j' : nat, (j' < j)%nat -> 0 <= usize (ht_at htr j') ->
                        same_hash s (sha1 (ht_at htr j')) = false) /\
  ((forall i : nat, (i < length htr)%nat -> 0 <= usize (ht_at htr i) ->
      same_hash s (sha1 (ht_at htr i)) = false) ->
   find htr (new htr) s = 0).
Proof.
  intros Hlen. unfold find. rewrite bucket_new.
  assert (Hfiled : forall i : nat, 0 <= usize (ht_at htr i) ->
            same_hash s (sha1 (ht_at htr i)) = true -> filed htr (hash s) i).
  { intros i Hu Hs. split; [exact Hu|]. symmetry. now apply same_hash_bucket. }
  destruct (find_in_seq htr s (hash s) (length htr) 0 Hlen)
    as [[H0 Hnone] | (j & Hj & Hf & Hfj & Hsj & Hbefore)].
  - split; [|intros _; exact H0].
    intros i Hi Hu Hs.
    rewrite (Hnone i ltac:(lia) (Hfiled i Hu Hs)) in Hs. discriminate.
  - split.
    + intros i Hi Hu Hs. exists j. split; [exact Hf|].
      split; [|split; [exact (proj1 Hfj) | split; [exact Hsj|]]].
      * destruct (decide (j <= i)%nat) as [Hle | Hgt]; [exact Hle|].
        rewrite (Hbefore i ltac:(lia) (Hfiled i Hu Hs)) in Hs. discriminate.
      * intros j' Hlt Hu'.
        destruct (same_hash s (sha1 (ht_at htr j'))) eqn:Hs'; [|reflexivity].
        rewrite (Hbefore j' ltac:(lia) (Hfiled j' Hu' Hs')) in Hs'. discriminate.
    + intros Hnone. rewrite (Hnone j ltac:(lia) (proj1 Hfj)) in Hsj. discriminate.
Qed.

(** The steps of [update] look at hash and size of the entries only. *)
Lemma fold_file_id_ext htr htr' (l : list nat) : forall tbl,
  (forall i, i ∈ l -> sha1 (ht_at htr i) = sha1 (ht_at htr' i)
                      /\ usize (ht_at htr i) = usize (ht_at htr' i)) ->
  fold_left (file_id htr) l tbl = fold_left (file_id htr') l tbl.
Proof.
  induction l as [|i l IH]; intros tbl H; [reflexivity|].
  cbn [fold_left].
  assert (E : file_id htr tbl i = file_id htr' tbl i).
  { unfold file_id. destruct (H i ltac:(left)) as [-> ->]. reflexivity. }
  rewrite E. apply IH. intros j Hj. apply H. now right.
Qed.

(** Bringing the index of a table up to date with the table grown is
    building the index of the grown table. *)
Lemma update_app (h e : list HT) : update (h ++ e) (new h) = new (h ++ e).
Proof.
  unfold new, update. cbn [t htsize].
  rewrite !Nat.max_0_l, !Nat.sub_0_r, length_app.
  rewrite (Nat.max_r (length h)) by lia.
  replace (length h + length e - length h)%nat with (length e) by lia.
  f_equal. rewrite seq_app, fold_left_app. cbn [Nat.add]. f_equal.
  apply fold_file_id_ext. intros i Hi. apply elem_of_seq in Hi.
  unfold ht_at. rewrite lookup_app_l by lia. now split.
Qed.

Lemma new_alter (f : HT -> HT) (i : nat) (h : list HT) :
  (forall x, sha1 (f x) = sha1 x /\ usize (f x) = usize x) ->
  new (alter f i h) = new h.
Proof.
  intros Hf. unfold new, update. cbn [t htsize].
  rewrite length_alter. f_equal.
  apply fold_file_id_ext. intros j _. unfold ht_at.
  destruct (decide (j = i)) as [-> | Hne].
  - rewrite list_lookup_alter_eq. destruct (h !! i) as [x|]; cbn; [apply Hf | now split].
  - rewrite list_lookup_alter_ne by congruence. now split.
Qed.

(** X3.  [HTIndex::find] on an index that is up to date with a table
    of fewer than 2^32 entries.  If some entry of known size carries the
    20-byte hash looked for, [find] returns the ID of the first such
    entry of the table (an ID that is 0 only if entry 0 itself is such an
    entry); if none does, [find] returns 0. *)
Theorem find_complete (htr : list HT) (s : list Z) :
  vsize htr < 2 ^ 32 ->
  (forall i : nat, (i < length htr)%nat -> 0 <= usize (ht_at htr i) ->
     same_hash s (sha1 (ht_at htr i)) = true ->
     exists j : nat,
       find htr (new htr) s = Z.of_nat j /\ (j <= i)%nat /\
       0 <= usize (ht_at htr j) /\ same_hash s (sha1 (ht_at htr j)) = true /\
       forall j' : nat, (j' < j)%nat -> 0 <= usize (ht_at htr j') ->
                        same_hash s (sha1 (ht_at htr j')) = false) /\
  ((forall i : nat, (i < length htr)%nat -> 0 <= usize (ht_at htr i) ->
      same_hash s (sha1 (ht_at htr i)) = false) ->
   find htr (new htr) s = 0).
Proof. exact (find_new htr s). Qed.

Lemma find_complete_witness :
  exists j : nat,
    find [HT0; mkHT (replicate 20 7) 5 0; mkHT (replicate 20 7) 9 0]
         (new [HT0; mkHT (replicate 20 7) 5 0; mkHT (replicate 20 7) 9 0])
         (replicate 20 7) = Z.of_nat j /\ (j <= 2)%nat.
Proof.
  destruct (find_complete [HT0; mkHT (replicate 20 7) 5 0; mkHT (replicate 20 7) 9 0]
              (replicate 20 7) ltac:(vm_compute; reflexivity)) as [H _].
  destruct (H 2%nat ltac:(cbn; lia) ltac:(cbn; lia) ltac:(vm_compute; reflexivity))
    as (j & Hf & Hle & _).
  exists j. split; assumption.
Defined.

End Index.

(** ** The snapshot writer: the producer loop of [Jidac::add] *)

Module Add.

Definition set_csize (c : Z) (e : HT) : HT := mkHT (sha1 e) (usize e) c.
Definition set_usize (u : Z) (e : HT) : HT := mkHT (sha1 e) u (csize e).
Definition set_sha1 (s : list Z) (e : HT) : HT := mkHT s (usize e) (csize e).

(** One entry of [vf]: the external file behind [vf[fi]]. *)
Record vfile := mkVfile {
  vf_directory : bool;            (* the renamed name ends with '/' *)
  vf_data : option (list Z);      (* the file's bytes; None: open fails *)
  vf_esize : Z;
  vf_edate : Z;
  vf_eptr : list Z
}.

(** What [job.write] queues for compression. *)
Record cjob := mkJob {
  j_in : list Z;         (* the block: fragments and trailer *)
  j_date : Z;            (* the name is jDC<date>d<first> *)
  j_first : Z;
  j_frags : nat;         (* the value of frags at the call *)
  j_method : string;
  j_type : Z
}.

(** [while (eptr.size()<=fj) eptr.push_back(0); eptr[fj]=j;] *)
Definition point_to (ep : list Z) (fj : nat) (j : Z) : list Z :=
  <[fj := j]> (ep ++ replicate (S fj - length ep) 0).

Section Producer.

(** [libzpaq::SHA1] over the bytes put into it. *)
Variable SHA1 : list Z -> list Z.

(** The block analysis of a new fragment (tests 1 to 4, text and exe
    counts), from the chunker's locals and [o1prev]: the number added to
    [redundancy] and the two flags [text1>=5], [exe1>=5]. *)
Variable analyze : Chunker.state -> list Z -> Z * bool * bool.

Variable blocksize : Z.
Variable fragile : bool.
Variable method : string.
Variable date : Z.

Record producer := mkProducer {
  p_ht : list HT;
  p_htinv : Index.HTIndex;
  p_vf : list vfile;
  p_fi : nat;
  p_fj : nat;
  p_in : option (list Z);     (* unread bytes of the open input file *)
  p_sb : list Z;
  p_frags : nat;
  p_redundancy : Z;
  p_text : Z;
  p_exe : Z;
  p_o1prev : list Z;
  p_inputsize : Z;
  p_jobs : list cjob
}.

(** The test at the head of the loop body. *)
Definition block_full (p : producer) : bool :=
  let sbs := vsize (p_sb p) in
  let frags := Z.of_nat (p_frags p) in
  let esz := match p_vf p !! p_fi p with Some f => vf_esize f | None => 0 end in
  (p_fi p =? length (p_vf p))%nat
  || (wrap_unsigned (blocksize - Chunker.MAX_FRAGMENT - 80 - frags * 4) <? sbs)
  || ((p_fj p =? 0)%nat && (wrap_unsigned (blocksize * 3) / 4 <? sbs)
      && (wrap_unsigned (blocksize - Chunker.MAX_FRAGMENT - 2048) <? (sbs + esz) mod 2 ^ 64))
  || ((p_fj p =? 0)%nat && (blocksize / 8 <? sbs) && (p_redundancy p <? sbs / 32))
  || ((p_fj p =? 0)%nat && (blocksize / 4 <? sbs) && (p_redundancy p <? sbs / 16))
  || ((p_fj p =? 0)%nat && (blocksize / 2 <? sbs) && (p_redundancy p <? sbs / 8)).

(** The trailer appended to [sb] before compression. *)
Definition trailer (ht : list HT) (frags : nat) : list Z :=
  if fragile then Bytes.itob 0 ++ Bytes.itob 0
  else concat (map (fun e => Bytes.itob (usize e)) (drop (length ht - frags) ht))
       ++ Bytes.itob (Z.of_nat (length ht - frags))
       ++ Bytes.itob (Z.of_nat frags).

(** "Pad sb with redundant fragment size list and compress". *)
Definition flush (p : producer) : producer :=
  match p_frags p with
  | O => p
  | S _ =>
      let frags := p_frags p in
      let first := (length (p_ht p) - frags)%nat in
      let sb := p_sb p ++ trailer (p_ht p) frags in
      let ty := wrap_int
                  (p_redundancy p / (vsize sb / 256 + 1) * 4
                   + b2z (Z.of_nat frags / 8 <? p_exe p) * 2
                   + b2z (Z.of_nat frags / 4 <? p_text p)) in
      mkProducer (alter (set_csize (-1)) first (p_ht p)) (p_htinv p) (p_vf p)
                 (p_fi p) (p_fj p) (p_in p) [] 0 0 0 0 (p_o1prev p)
                 (p_inputsize p)
                 (p_jobs p ++ [mkJob sb date (Z.of_nat first) frags method ty])
  end.

(** "If no file is open then open the next one": skip a directory, skip
    a file that cannot be opened (clearing its [edate]), or open it. *)
Definition open_next (p : producer) (f : vfile) : producer :=
  if vf_directory f then
    mkProducer (p_ht p) (p_htinv p) (p_vf p) (S (p_fi p)) (p_fj p) None
               (p_sb p) (p_frags p) (p_redundancy p) (p_text p) (p_exe p)
               (p_o1prev p) (p_inputsize p) (p_jobs p)
  else match vf_data f with
  | None =>
    mkProducer (p_ht p) (p_htinv p)
               (<[p_fi p := mkVfile (vf_directory f) (vf_data f) (vf_esize f) 0 (vf_eptr f)]> (p_vf p))
               (S (p_fi p)) (p_fj p) None
               (p_sb p) (p_frags p) (p_redundancy p) (p_text p) (p_exe p)
               (p_o1prev p) (p_inputsize p) (p_jobs p)
  | Some bytes =>
    mkProducer (p_ht p) (p_htinv p) (p_vf p) (p_fi p) (p_fj p) (Some bytes)
               (p_sb p) (p_frags p) (p_redundancy p) (p_text p) (p_exe p)
               (p_o1prev p) (p_inputsize p) (p_jobs p)
  end.

(** [if (sz>=MIN_FRAGMENT) { memmove(o1prev, o1prev+256, ...);
    memcpy(o1prev+256*(ON-1), o1, 256); }] *)
Definition shift_o1prev (prev : list Z) (c : Chunker.state) : list Z :=
  if Chunker.MIN_FRAGMENT <=? Chunker.sz c
  then drop 256 prev ++ Chunker.o1 c else prev.

(** "Read a fragment", "Look for matching fragment", "Point file to this
    fragment" and "Close file at EOF", with the open file's unread bytes
    [input]. *)
Definition add_fragment (p : producer) (input : list Z) : producer :=
  let '(frag, rest, eof, c) := Chunker.read_fragment input Chunker.init in
  let sb := p_sb p ++ frag in
  let sz := Chunker.sz c in
  let sh := SHA1 frag in
  let found := Index.find (p_ht p) (p_htinv p) sh in
  let j := if found =? 0 then wrap_unsigned (vsize (p_ht p)) else found in
  let ht := if found =? 0 then p_ht p ++ [mkHT sh sz 0] else p_ht p in
  let htinv := if found =? 0 then Index.update ht (p_htinv p) else p_htinv p in
  let '(hits, text1, exe1) := analyze c (p_o1prev p) in
  let vf := alter (fun f => mkVfile (vf_directory f) (vf_data f) (vf_esize f)
                               (vf_edate f)
                               (point_to (vf_eptr f) (p_fj p) j))
                  (p_fi p) (p_vf p) in
  mkProducer ht htinv vf
    (if eof then S (p_fi p) else p_fi p)
    (if eof then 0%nat else S (p_fj p))
    (if eof then None else Some rest)
    (if found =? 0 then sb else take (length sb - Z.to_nat sz) sb)
    (if found =? 0 then S (p_frags p) else p_frags p)
    (if found =? 0 then wrap_unsigned (p_redundancy p + hits) else p_redundancy p)
    (if found =? 0 then wrap_unsigned (p_text p + b2z text1) else p_text p)
    (if found =? 0 then wrap_unsigned (p_exe p + b2z exe1) else p_exe p)
    (if found =? 0 then shift_o1prev (p_o1prev p) c else p_o1prev p)
    (wrap_int64 (p_inputsize p + sz))
    (p_jobs p).

(** One turn of [while (fi<vf.size() || frags>0)]; [None] when the
    loop condition is false. *)
Definition add_iter (p : producer) : option producer :=
  if (p_fi p <? length (p_vf p))%nat || (0 <? p_frags p)%nat then
    if block_full p then Some (flush p)
    else match p_in p with
    | Some input => Some (add_fragment p input)
    | None =>
        match p_vf p !! p_fi p with
        | Some f =>
            match open_next p f with
            | q => match p_in q with
                   | Some input => Some (add_fragment q input)
                   | None => Some q
                   end
            end
        | None => None
        end
    end
  else None.

(** The loop, for at most [fuel] turns; [None] if it has not ended. *)
Fixpoint add_loop (fuel : nat) (p : producer) : option producer :=
  match add_iter p with
  | None => Some p
  | Some q => match fuel with
              | O => None
              | S fuel' => add_loop fuel' q
              end
  end.

(** The producer at the start of the loop. *)
Definition start (ht : list HT) (vf : list vfile) : producer :=
  mkProducer ht (Index.new ht) vf 0 0 None [] 0 0 0 0 (replicate 1024 0) 0 [].

(** "Fill in compressed sizes in ht": [i] runs over [ht] from [htsize],
    [cs] is what is left of [job.csize] from index [j] on. *)
Fixpoint fill_from (hs : list HT) (cs : list Z) : list HT :=
  match hs, cs with
  | e :: hs', c :: cs' =>
      if csize e =? -1 then set_csize c e :: fill_from hs' cs'
      else e :: fill_from hs' cs
  | _, _ => hs
  end.

Definition fill_csize (htsize : nat) (ht : list HT) (cs : list Z) : list HT :=
  take htsize ht ++ fill_from (drop htsize ht) cs.

Lemma point_to_lookup ep fj j : point_to ep fj j !! fj = Some j.
Proof.
  unfold point_to. apply list_lookup_insert_eq.
  rewrite length_app, length_replicate. lia.
Qed.

Lemma fragment_size input frag rest eof c :
  Chunker.read_fragment input Chunker.init = (frag, rest, eof, c) ->
  Chunker.sz c = vsize frag.
Proof.
  intros Heq.
  pose proof (Chunker.read_fragment_length _ _ _ _ _ _ Heq) as Hlen.
  destruct (Chunker.read_fragment_spec _ _ _ _ _ _ Heq) as (_ & -> & _).
  cbn in Hlen. unfold Chunker.MAX_FRAGMENT in Hlen.
  rewrite Chunker.sz_run; cbn; unfold vsize; lia.
Qed.

(** C3.  In the step of [add] that reads one fragment and looks its SHA-1
    up in the index: when [find] returns an ID (not 0), that ID carries
    the same 20-byte hash, the pending block [sb] ends as it began (the
    fragment's bytes are taken off again), [ht] and [frags] are
    unchanged, and the ID is stored at position [fj] of the file's
    pointer list; when [find] returns 0, exactly one entry [HT(sh, sz, 0)]
    is appended to [ht], the fragment's bytes stay at the end of [sb],
    and the new ID [ht.size()] is stored at position [fj]. *)
Theorem dedup_fragment (p : producer) (input : list Z) (f : vfile) :
  p_vf p !! p_fi p = Some f ->
  let frag := Chunker.fragment_of input in
  let found := Index.find (p_ht p) (p_htinv p) (SHA1 frag) in
  let q := add_fragment p input in
  (found <> 0 ->
     Index.same_hash (SHA1 frag) (sha1 (ht_at (p_ht p) (Z.to_nat found))) = true /\
     p_sb q = p_sb p /\ p_ht q = p_ht p /\ p_frags q = p_frags p /\
     exists f', p_vf q !! p_fi p = Some f' /\
                vf_eptr f' !! p_fj p = Some found) /\
  (found = 0 ->
     p_ht q = p_ht p ++ [mkHT (SHA1 frag) (vsize frag) 0] /\
     p_sb q = p_sb p ++ frag /\ p_frags q = S (p_frags p) /\
     exists f', p_vf q !! p_fi p = Some f' /\
                vf_eptr f' !! p_fj p = Some (wrap_unsigned (vsize (p_ht p)))).
Proof.
  intros Hf frag found q. subst frag found q.
  unfold Chunker.fragment_of, add_fragment.
  destruct (Chunker.read_fragment input Chunker.init) as [[[frag rest] eof] c] eqn:Hread.
  cbn [fst snd].
  pose proof (fragment_size _ _ _ _ _ Hread) as Hsz.
  destruct (analyze c (p_o1prev p)) as [[hits text1] exe1].
  set (found := Index.find (p_ht p) (p_htinv p) (SHA1 frag)).
  split; intros Hfound.
  - apply Z.eqb_neq in Hfound as Hb. rewrite Hb. cbn.
    split; [apply Index.find_in_hit; exact Hfound|].
    split.
    { rewrite Hsz. unfold vsize. rewrite Nat2Z.id, length_app.
      replace (length (p_sb p) + length frag - length frag)%nat
        with (length (p_sb p)) by lia.
      apply take_app_length. }
    split; [reflexivity|]. split; [reflexivity|].
    rewrite list_lookup_alter_eq, Hf. cbn.
    eexists. split; [reflexivity|]. cbn. apply point_to_lookup.
  - rewrite Hfound. cbn. rewrite Hsz.
    split; [reflexivity|]. split; [reflexivity|]. split; [reflexivity|].
    rewrite list_lookup_alter_eq, Hf. cbn.
    eexists. split; [reflexivity|]. cbn. apply point_to_lookup.
Qed.

(** *** The locators of the new fragments

    [first_ids n counts]: the first fragment IDs of consecutive blocks
    holding [counts] fragments each, the first block starting at [n]. *)
Fixpoint first_ids (n : Z) (counts : list nat) : list Z :=
  match counts with
  | [] => []
  | c :: cs => n :: first_ids (n + Z.of_nat c) cs
  end.

Definition total (counts : list nat) : nat := foldr Nat.add 0%nat counts.

(** The [csize] fields of the entries added since the start of [add]:
    per queued block a -1 and then zeros, and a zero per pending
    fragment. *)
Definition pending_pattern (jobs : list cjob) (frags : nat) : list Z :=
  concat (map (fun j => -1 :: replicate (j_frags j - 1) 0) jobs)
  ++ replicate frags 0.

Record producer_inv (ht0 : list HT) (p : producer) : Prop := {
  inv_old : take (length ht0) (p_ht p) = ht0;
  inv_pattern :
    map csize (drop (length ht0) (p_ht p)) = pending_pattern (p_jobs p) (p_frags p);
  inv_counts : Forall (fun j => (0 < j_frags j)%nat) (p_jobs p);
  inv_first :
    map j_first (p_jobs p) = first_ids (vsize ht0) (map j_frags (p_jobs p));
  inv_fi : (p_fi p <= length (p_vf p))%nat;
  inv_open : is_Some (p_in p) -> (p_fi p < length (p_vf p))%nat
}.

Lemma first_ids_snoc n counts c :
  first_ids n (counts ++ [c])
  = first_ids n counts ++ [n + Z.of_nat (total counts)].
Proof.
  revert n. induction counts as [|a counts IH]; intros n; cbn.
  - f_equal. f_equal. lia.
  - rewrite IH. f_equal. f_equal. f_equal. unfold total. lia.
Qed.

Lemma pattern_length jobs frags :
  Forall (fun j => (0 < j_frags j)%nat) jobs ->
  length (pending_pattern jobs frags) = (total (map j_frags jobs) + frags)%nat.
Proof.
  unfold pending_pattern. intros H. rewrite length_app, length_replicate.
  f_equal. induction H as [|j jobs Hj _ IH]; cbn; [reflexivity|].
  rewrite length_app, length_replicate, IH. unfold total. lia.
Qed.

Lemma map_csize_alter c i (l : list HT) :
  map csize (alter (set_csize c) i l) = <[i := c]> (map csize l).
Proof.
  revert i. induction l as [|e l IH]; intros [|i]; cbn; try reflexivity.
  f_equal. apply IH.
Qed.

Lemma take_alter_ge {A} (f : A -> A) n i (l : list A) :
  (n <= i)%nat -> take n (alter f i l) = take n l.
Proof.
  revert n i. induction l as [|e l IH]; intros [|n] [|i] H; cbn; try reflexivity; try lia.
  f_equal. apply IH. lia.
Qed.

Lemma drop_alter_ge {A} (f : A -> A) n i (l : list A) :
  (n <= i)%nat -> drop n (alter f i l) = alter f (i - n)%nat (drop n l).
Proof.
  revert n i. induction l as [|e l IH]; intros [|n] [|i] H; cbn; try reflexivity; try lia.
  apply IH. lia.
Qed.

Lemma producer_inv_start ht0 vf : producer_inv ht0 (start ht0 vf).
Proof.
  split; cbn.
  - apply firstn_all.
  - now rewrite drop_all.
  - constructor.
  - reflexivity.
  - lia.
  - intros [? ?]. discriminate.
Qed.

Lemma producer_inv_flush ht0 p :
  producer_inv ht0 p -> producer_inv ht0 (flush p).
Proof.
  intros [Hold Hpat Hcnt Hfirst Hfi Hopen]. unfold flush.
  destruct (p_frags p) as [|k] eqn:Hfr; [split; try assumption; now rewrite Hfr|].
  assert (Hlen : length (drop (length ht0) (p_ht p))
                 = (total (map j_frags (p_jobs p)) + S k)%nat).
  { rewrite <- (length_map csize), Hpat. now apply pattern_length. }
  rewrite length_drop in Hlen.
  split; cbn.
  - rewrite take_alter_ge by lia. exact Hold.
  - rewrite drop_alter_ge by lia. rewrite map_csize_alter, Hpat.
    unfold pending_pattern. rewrite map_app, concat_app. cbn.
    rewrite !app_nil_r.
    pose proof (pattern_length (p_jobs p) 0 Hcnt) as Hp.
    unfold pending_pattern in Hp. rewrite length_app in Hp. cbn in Hp.
    rewrite insert_app_r_alt by lia.
    match goal with |- context [<[?i := _]> _] => replace i with 0%nat by lia end.
    cbn. now rewrite Nat.sub_0_r.
  - apply Forall_app. split; [exact Hcnt|]. constructor; [cbn; lia | constructor].
  - rewrite !map_app. cbn. rewrite first_ids_snoc, Hfirst. f_equal. f_equal.
    unfold vsize. lia.
  - exact Hfi.
  - exact Hopen.
Qed.

Lemma producer_inv_open ht0 p f :
  p_vf p !! p_fi p = Some f ->
  producer_inv ht0 p -> producer_inv ht0 (open_next p f).
Proof.
  intros Hf [Hold Hpat Hcnt Hfirst Hfi Hopen]. unfold open_next.
  apply lookup_lt_Some in Hf.
  destruct (vf_directory f).
  { split; cbn; try assumption; try lia. intros [? ?]; discriminate. }
  destruct (vf_data f); split; cbn; try assumption;
    rewrite ?length_insert; try lia; try (intros [? ?]; discriminate); auto.
Qed.

Lemma producer_inv_fragment ht0 p input :
  (p_fi p < length (p_vf p))%nat ->
  producer_inv ht0 p -> producer_inv ht0 (add_fragment p input).
Proof.
  intros Hlt [Hold Hpat Hcnt Hfirst Hfi Hopen]. unfold add_fragment.
  destruct (Chunker.read_fragment input Chunker.init) as [[[frag rest] eof] c].
  destruct (analyze c (p_o1prev p)) as [[hits text1] exe1].
  assert (Hfi' : forall (vf : list vfile) g,
             ((if eof then S (p_fi p) else p_fi p) <= length (alter g (p_fi p) (p_vf p)))%nat).
  { intros. rewrite length_alter. destruct eof; lia. }
  assert (Hopen' : forall g,
             is_Some (if eof then None else Some rest) ->
             ((if eof then S (p_fi p) else p_fi p) < length (alter g (p_fi p) (p_vf p)))%nat).
  { intros g. rewrite length_alter. destruct eof; [intros [? ?]; discriminate | auto]. }
  destruct (Index.find (p_ht p) (p_htinv p) (SHA1 frag) =? 0).
  - assert (Hle : (length ht0 <= length (p_ht p))%nat).
    { rewrite <- Hold at 1. rewrite length_take. lia. }
    split; cbn; try assumption.
    + rewrite take_app_le by lia. exact Hold.
    + rewrite drop_app_le by lia. rewrite map_app, Hpat. cbn.
      unfold pending_pattern. rewrite <- app_assoc. f_equal.
      symmetry. apply replicate_S_end.
    + apply Hfi'; exact [].
    + apply Hopen'.
  - split; cbn; try assumption.
    + apply Hfi'; exact [].
    + apply Hopen'.
Qed.

Lemma producer_inv_iter ht0 p q :
  producer_inv ht0 p -> add_iter p = Some q -> producer_inv ht0 q.
Proof.
  intros Hinv. unfold add_iter.
  destruct ((p_fi p <? length (p_vf p))%nat || (0 <? p_frags p)%nat); [|discriminate].
  destruct (block_full p).
  { intros [= <-]. now apply producer_inv_flush. }
  destruct (p_in p) as [input|] eqn:Hin.
  { intros [= <-]. apply producer_inv_fragment; [|exact Hinv].
    apply (inv_open _ _ Hinv). rewrite Hin. eauto. }
  destruct (p_vf p !! p_fi p) as [f|] eqn:Hf; [|discriminate].
  pose proof (producer_inv_open ht0 p f Hf Hinv) as Hq.
  destruct (p_in (open_next p f)) as [input|] eqn:Hin'; intros [= <-].
  - apply producer_inv_fragment; [|exact Hq].
    apply (inv_open _ _ Hq). rewrite Hin'. eauto.
  - exact Hq.
Qed.

Lemma add_loop_end fuel : forall p q,
  add_loop fuel p = Some q -> add_iter q = None.
Proof.
  induction fuel as [|fuel IH]; intros p q; cbn.
  - destruct (add_iter p) eqn:E; [discriminate|]. now intros [= <-].
  - destruct (add_iter p) eqn:E; [apply IH|]. now intros [= <-].
Qed.

Lemma producer_inv_loop ht0 fuel : forall p q,
  producer_inv ht0 p -> add_loop fuel p = Some q -> producer_inv ht0 q.
Proof.
  induction fuel as [|fuel IH]; intros p q Hinv; cbn.
  - destruct (add_iter p) eqn:E; [discriminate|]. now intros [= <-].
  - destruct (add_iter p) as [p'|] eqn:E.
    + apply IH. eapply producer_inv_iter; eassumption.
    + now intros [= <-].
Qed.

(** The loop ends with no fragment pending. *)
Lemma add_iter_none ht0 p :
  producer_inv ht0 p -> add_iter p = None -> p_frags p = 0%nat.
Proof.
  intros Hinv. unfold add_iter.
  destruct (0 <? p_frags p)%nat eqn:Hfr.
  - rewrite orb_true_r.
    destruct (block_full p) eqn:Hb; [discriminate|].
    destruct (p_in p); [discriminate|].
    destruct (p_vf p !! p_fi p) as [f|] eqn:Hl.
    + destruct (p_in (open_next p f)); discriminate.
    + intros _. apply lookup_ge_None in Hl.
      pose proof (inv_fi _ _ Hinv) as Hfi.
      unfold block_full in Hb.
      replace (p_fi p) with (length (p_vf p)) in Hb at 1 by lia.
      rewrite Nat.eqb_refl in Hb. cbn in Hb. discriminate.
  - intros _. apply Nat.ltb_ge in Hfr. lia.
Qed.

Lemma fill_from_zeros zs hs cs :
  Forall (fun e => csize e = 0) zs ->
  fill_from (zs ++ hs) cs = zs ++ fill_from hs cs.
Proof.
  intros H. revert cs. induction H as [|e zs He _ IH]; intros cs; cbn.
  - reflexivity.
  - destruct cs as [|c cs].
    + now destruct hs.
    + rewrite He. cbn. f_equal. apply IH.
Qed.

Lemma fill_from_nil_r hs : fill_from hs [] = hs.
Proof. now destruct hs. Qed.

Lemma fill_from_pattern jobs : forall hs cs,
  map csize hs = concat (map (fun j => -1 :: replicate (j_frags j - 1) 0) jobs) ->
  length cs = length jobs ->
  map csize (fill_from hs cs)
  = concat (zip_with (fun j c => c :: replicate (j_frags j - 1) 0) jobs cs)
  /\ map sha1 (fill_from hs cs) = map sha1 hs
  /\ map usize (fill_from hs cs) = map usize hs.
Proof.
  induction jobs as [|j jobs IH]; intros hs cs Hpat Hlen.
  - destruct cs; [|discriminate]. cbn in Hpat.
    apply map_eq_nil in Hpat. subst. now cbn.
  - destruct cs as [|c cs]; [discriminate|].
    cbn in Hpat. destruct hs as [|e hs]; [discriminate|].
    cbn in Hpat. injection Hpat as He Hrest.
    apply fmap_app_inv in Hrest as (zs & hs' & Hzs & Hhs & ->).
    cbn. rewrite He. cbn.
    assert (Hz : Forall (fun e => csize e = 0) zs).
    { apply Forall_forall. intros x Hx.
      assert (csize x ∈ replicate (j_frags j - 1) 0) as Hin.
      { rewrite Hzs. apply list_elem_of_fmap. eauto. }
      now apply elem_of_replicate in Hin as [? _]. }
    rewrite fill_from_zeros by exact Hz.
    destruct (IH hs' cs (eq_sym Hhs) ltac:(cbn in Hlen; lia)) as (Hc & Hs & Hu).
    rewrite !map_app, Hc, Hs, Hu. repeat split.
    f_equal. f_equal. symmetry. exact Hzs.
Qed.

(** C8 (as amended).  When the producer loop of [add] has ended and the
    compressed sizes [cs] recorded by the writer number as many as the
    queued blocks, "Fill in compressed sizes in ht" leaves the entries
    that were in [ht] before [add] as they were, and gives the entries
    added by [add], block by block in the order the blocks were queued,
    the [csize] fields [c; 0; ...; 0]: the block's compressed size [c] in
    its first fragment and 0 in each further one.  Hashes and sizes are
    kept, every block holds a fragment, and the first IDs of the blocks
    follow each other. *)
Theorem fill_locators (fuel : nat) (ht0 : list HT) (vf : list vfile)
    (p : producer) (cs : list Z) :
  add_loop fuel (start ht0 vf) = Some p ->
  length cs = length (p_jobs p) ->
  let ht' := fill_csize (length ht0) (p_ht p) cs in
  take (length ht0) ht' = ht0 /\
  map csize (drop (length ht0) ht')
  = concat (zip_with (fun j c => c :: replicate (j_frags j - 1) 0) (p_jobs p) cs) /\
  map sha1 ht' = map sha1 (p_ht p) /\
  map usize ht' = map usize (p_ht p) /\
  Forall (fun j => (0 < j_frags j)%nat) (p_jobs p) /\
  map j_first (p_jobs p) = first_ids (vsize ht0) (map j_frags (p_jobs p)).
Proof.
  intros Hloop Hlen ht'.
  pose proof (producer_inv_loop ht0 fuel _ _ (producer_inv_start ht0 vf) Hloop) as Hinv.
  pose proof (add_iter_none ht0 p Hinv (add_loop_end _ _ _ Hloop)) as Hfr.
  destruct Hinv as [Hold Hpat Hcnt Hfirst _ _].
  rewrite Hfr in Hpat. unfold pending_pattern in Hpat. cbn in Hpat.
  rewrite app_nil_r in Hpat.
  destruct (fill_from_pattern (p_jobs p) _ cs Hpat Hlen) as (Hc & Hs & Hu).
  assert (Hle : (length ht0 <= length (p_ht p))%nat).
  { rewrite <- Hold at 1. rewrite length_take. lia. }
  subst ht'. unfold fill_csize.
  assert (Hlt : length (take (length ht0) (p_ht p)) = length ht0).
  { rewrite length_take. lia. }
  split; [|split; [|split; [|split; [|split]]]].
  - rewrite take_app_length' by (symmetry; exact Hlt). exact Hold.
  - rewrite drop_app_length' by (symmetry; exact Hlt). exact Hc.
  - rewrite map_app, Hs, <- map_app, take_drop. reflexivity.
  - rewrite map_app, Hu, <- map_app, take_drop. reflexivity.
  - exact Hcnt.
  - exact Hfirst.
Qed.

End Producer.

(** A stand-in for SHA-1 that tells the test files apart, and a silent
    block analysis, to run the producer on concrete files. *)
Definition toy_sha1 (l : list Z) : list Z := take 20 (l ++ replicate 20 0).
Definition toy_analyze (_ : Chunker.state) (_ : list Z) : Z * bool * bool :=
  (0, false, false).

Definition two_files : list vfile :=
  [mkVfile false (Some [1]) 1 20250101000000 [];
   mkVfile false (Some [2]) 1 20250101000000 []].

Definition toy_run : option producer :=
  add_loop toy_sha1 toy_analyze 16773120 false "1" 20250102000000 10
           (start [HT0] two_files).

(** The locators as C8 words them: per block the archive offset of the
    block, then -1, -2, ...; [off] is the offset of the first block. *)
Fixpoint spec_locators (off : Z) (jobs : list cjob) (cs : list Z) : list Z :=
  match jobs, cs with
  | j :: jobs', c :: cs' =>
      off :: map (fun i => - Z.of_nat i) (seq 1 (j_frags j - 1))
          ++ spec_locators (off + c) jobs' cs'
  | _, _ => []
  end.

(** C8 as stated fails: two one-byte files make one block of two new
    fragments; with the block compressed to 100 bytes and written at
    offset 1000, [add] leaves the locators 100 and 0, not 1000 and -1. *)
Lemma backfill_counterexample :
  match toy_run with
  | Some p =>
      map csize (drop 1 (fill_csize 1 (p_ht p) [100])) = [100; 0] /\
      spec_locators 1000 (p_jobs p) [100] = [1000; -1] /\
      map csize (drop 1 (fill_csize 1 (p_ht p) [100]))
      <> spec_locators 1000 (p_jobs p) [100]
  | None => False
  end.
Proof. vm_compute. repeat split; discriminate. Qed.

(** The producer after the loop on [two_files]. *)
Definition toy_final : producer :=
  Eval vm_compute in default (start [HT0] two_files) toy_run.

Lemma fill_locators_witness :
  add_loop toy_sha1 toy_analyze 16773120 false "1" 20250102000000 10
           (start [HT0] two_files) = Some toy_final /\
  map csize (drop 1 (fill_csize 1 (p_ht toy_final) [100])) = [100; 0].
Proof.
  split; [vm_compute; reflexivity|].
  apply (fill_locators toy_sha1 toy_analyze 16773120 false "1" 20250102000000
                       10 [HT0] two_files toy_final [100]);
    [vm_compute; reflexivity | reflexivity].
Defined.

(** The second file holds the bytes of the first: its fragment is found. *)
Definition twin_files : list vfile :=
  [mkVfile false (Some [7; 7]) 2 20250101000000 [];
   mkVfile false (Some [7; 7]) 2 20250101000000 []].

(** The producer when the first file of [twin_files] has been read. *)
Definition twin_mid : producer :=
  Eval vm_compute in
    add_fragment toy_sha1 toy_analyze
      (mkProducer [HT0] (Index.new [HT0]) twin_files 0 0 None [] 0 0 0 0
                  (replicate 1024 0) 0 []) [7; 7].

Lemma dedup_fragment_witness :
  p_vf twin_mid !! p_fi twin_mid = Some (mkVfile false (Some [7; 7]) 2 20250101000000 []) /\
  Index.find (p_ht twin_mid) (p_htinv twin_mid) (toy_sha1 [7; 7]) = 1 /\
  p_sb (add_fragment toy_sha1 toy_analyze twin_mid [7; 7]) = p_sb twin_mid /\
  p_ht (add_fragment toy_sha1 toy_analyze twin_mid [7; 7]) = p_ht twin_mid.
Proof.
  split; [reflexivity|]. split; [reflexivity|].
  pose proof (dedup_fragment toy_sha1 toy_analyze twin_mid [7; 7] _ eq_refl) as [H _].
  destruct H as (_ & Hsb & Hht & _); [vm_compute; discriminate|].
  split; assumption.
Defined.

(** *** The index follows the table *)

Section Deduplication.

Variable SHA1 : list Z -> list Z.
Variable analyze : Chunker.state -> list Z -> Z * bool * bool.
Variable blocksize : Z.
Variable fragile : bool.
Variable method : string.
Variable date : Z.

(** [htinv] is up to date with [ht]. *)
Definition index_current (p : producer) : Prop := p_htinv p = Index.new (p_ht p).

Lemma indexed_fragment p input :
  index_current p -> index_current (add_fragment SHA1 analyze p input).
Proof.
  unfold index_current, add_fragment. intros Hp.
  destruct (Chunker.read_fragment input Chunker.init) as [[[frag rest] eof] c].
  destruct (analyze c (p_o1prev p)) as [[hits text1] exe1].
  cbn [p_ht p_htinv].
  destruct (Index.find (p_ht p) (p_htinv p) (SHA1 frag) =? 0); [|exact Hp].
  rewrite Hp. apply Index.update_app.
Qed.

Lemma indexed_iter p q :
  index_current p -> add_iter SHA1 analyze blocksize fragile method date p = Some q ->
  index_current q.
Proof.
  intros Hp. unfold add_iter.
  destruct (_ || _); [|discriminate].
  destruct (block_full blocksize p).
  - intros [= <-]. unfold flush. destruct (p_frags p); [exact Hp|].
    unfold index_current. cbn [p_ht p_htinv]. rewrite Hp. symmetry.
    apply Index.new_alter. intros x. now split.
  - destruct (p_in p) as [input|].
    + intros [= <-]. now apply indexed_fragment.
    + destruct (p_vf p !! p_fi p) as [f|]; [|discriminate].
      assert (Ho : index_current (open_next p f)).
      { unfold open_next, index_current.
        destruct (vf_directory f); [exact Hp|].
        destruct (vf_data f); exact Hp. }
      destruct (p_in (open_next p f)) as [input|]; intros [= <-];
        [now apply indexed_fragment | exact Ho].
Qed.

(** X4.  [add] keeps the index up to date with the fragment table:
    when [htinv] is the index of [ht] before a turn of the loop, it is
    so after the turn.  So a fragment is never stored twice: when the
    table (of fewer than 2^32 entries, entry 0 of unknown size) already
    holds an entry of known size with the SHA-1 of the fragment just
    read, the table, the number of fragments of the pending block and
    the pending block itself are left as they were, and the file points
    to an entry with that hash, at or before that one and not entry 0. *)
Theorem dedup_complete (p : producer) (input : list Z) (f : vfile) (i : nat) :
  index_current p ->
  (forall q, add_iter SHA1 analyze blocksize fragile method date p = Some q ->
             index_current q) /\
  (vsize (p_ht p) < 2 ^ 32 -> usize (ht_at (p_ht p) 0) < 0 ->
   p_vf p !! p_fi p = Some f ->
   (i < length (p_ht p))%nat -> 0 <= usize (ht_at (p_ht p) i) ->
   Index.same_hash (SHA1 (Chunker.fragment_of input)) (sha1 (ht_at (p_ht p) i)) = true ->
   let q := add_fragment SHA1 analyze p input in
   p_ht q = p_ht p /\ p_frags q = p_frags p /\ p_sb q = p_sb p /\
   exists (j : nat) f',
     (1 <= j <= i)%nat /\
     Index.same_hash (SHA1 (Chunker.fragment_of input))
                     (sha1 (ht_at (p_ht p) j)) = true /\
     p_vf q !! p_fi p = Some f' /\ vf_eptr f' !! p_fj p = Some (Z.of_nat j)).
Proof.
  intros Hp. split; [intros q; now apply indexed_iter|].
  intros Hlen H0 Hf Hi Hu Hs q.
  destruct (Index.find_new (p_ht p) (SHA1 (Chunker.fragment_of input)) Hlen) as [Hhit _].
  destruct (Hhit i Hi Hu Hs) as (j & Hfind & Hle & Huj & Hsj & _).
  assert (Hj : (1 <= j)%nat) by (destruct j; [lia | lia]).
  subst q. revert Hfind Hsj. unfold Chunker.fragment_of, add_fragment.
  destruct (Chunker.read_fragment input Chunker.init) as [[[frag rest] eof] c] eqn:Hread.
  cbn [fst snd]. intros Hfind Hsj.
  pose proof (fragment_size _ _ _ _ _ Hread) as Hsz.
  destruct (analyze c (p_o1prev p)) as [[hits text1] exe1].
  rewrite <- Hp in Hfind. rewrite Hfind.
  replace (Z.of_nat j =? 0) with false by (symmetry; apply Z.eqb_neq; lia).
  cbn [p_ht p_frags p_sb p_vf].
  split; [reflexivity|]. split; [reflexivity|]. split.
  { rewrite Hsz. unfold vsize. rewrite Nat2Z.id, length_app.
    replace (length (p_sb p) + length frag - length frag)%nat
      with (length (p_sb p)) by lia.
    apply take_app_length. }
  exists j. rewrite list_lookup_alter_eq, Hf. cbn.
  eexists. split; [lia|]. split; [exact Hsj|]. split; [reflexivity|].
  cbn. apply point_to_lookup.
Qed.

End Deduplication.

Lemma dedup_complete_witness :
  p_ht (add_fragment toy_sha1 toy_analyze twin_mid [7; 7]) = p_ht twin_mid.
Proof.
  destruct (dedup_complete toy_sha1 toy_analyze 16773120 false "1" 20250102000000
              twin_mid [7; 7] (mkVfile false (Some [7; 7]) 2 20250101000000 []) 1%nat
              ltac:(vm_compute; reflexivity)) as [_ H].
  destruct H as (Hht & _);
    [vm_compute; reflexivity | vm_compute; reflexivity | reflexivity
    | cbn; lia | vm_compute; discriminate | vm_compute; reflexivity |].
  exact Hht.
Defined.

End Add.

(** ** The [-until] option ([Jidac::doCommand]) *)

Module Cli.

(** The branch [opt=="-version" || opt=="-until"]: [arg] is the number
    [int64_t(atof(argv[++i]))]; [None] when the program prints "Version
    date ... must be 19000101000000 to 29991231235959" and exits. *)
Definition until_option (arg : Z) : option Z :=
  let version := arg in
  let version := if (19000000 <=? version) && (version <=? 29991231)
                 then wrap_int64 (version * 100 + 23) else version in
  let version := if (1900000000 <=? version) && (version <=? 2999123123)
                 then wrap_int64 (version * 100 + 59) else version in
  let version := if (190000000000 <=? version) && (version <=? 299912312359)
                 then wrap_int64 (version * 100 + 59) else version in
  if (9999999 <? version)
     && ((version <? 19000101000000) || (29991231235959 <? version))
  then None else Some version.

Example until_version_number : until_option 3 = Some 3.
Proof. reflexivity. Qed.

Example until_hour : until_option 2025010112 = Some 20250101125959.
Proof. reflexivity. Qed.

Example until_before_1900 : until_option 18991231 = None.
Proof. reflexivity. Qed.

Lemma until_option_date d :
  19000101 <= d <= 29991231 -> until_option d = Some (d * 1000000 + 235959).
Proof.
  intros Hd. unfold until_option.
  replace ((19000000 <=? d) && (d <=? 29991231)) with true
    by (symmetry; apply andb_true_iff; split; apply Z.leb_le; lia).
  rewrite (wrap_int64_small (d * 100 + 23)) by lia.
  replace ((1900000000 <=? d * 100 + 23) && (d * 100 + 23 <=? 2999123123)) with true
    by (symmetry; apply andb_true_iff; split; apply Z.leb_le; lia).
  rewrite (wrap_int64_small ((d * 100 + 23) * 100 + 59)) by lia.
  replace ((190000000000 <=? (d * 100 + 23) * 100 + 59)
           && ((d * 100 + 23) * 100 + 59 <=? 299912312359)) with true
    by (symmetry; apply andb_true_iff; split; apply Z.leb_le; lia).
  rewrite (wrap_int64_small (((d * 100 + 23) * 100 + 59) * 100 + 59)) by lia.
  replace ((((d * 100 + 23) * 100 + 59) * 100 + 59 <? 19000101000000)
           || (29991231235959 <? ((d * 100 + 23) * 100 + 59) * 100 + 59)) with false.
  - rewrite andb_false_r. f_equal. lia.
  - symmetry. apply orb_false_iff. split; apply Z.ltb_ge; lia.
Qed.

End Cli.

(** ** The journal reader ([Jidac::read_archive]) *)

Module Reader.

Inductive pass_t := NORMAL | ERR | RECOVER.

Inductive kind_t := Kc | Kd | Kh | Ki.

#[export] Instance pass_eq_dec : EqDecision pass_t.
Proof. solve_decision. Defined.

#[export] Instance kind_eq_dec : EqDecision kind_t.
Proof. solve_decision. Defined.

(** What the reader writes to stderr. *)
Inductive diag :=
  | Incomplete_transaction_ignored
  | Bad_JIDAC_header_size
  | Unordered_fragment_tables
  | Bad_JIDAC_block_ignored
  | Skipping_block.

(** Modelled from the spec: the block iterator of libzpaq
    ([Decompresser::findBlock], [findFilename], [readComment],
    [decompress], [readSegmentEnd]) is not part of zpaq.cpp.  A block is
    what the iterator hands to [read_archive] for a journaling block (a
    block whose single segment is named [jDC<fdate><kind><num>] and whose
    comment is [<usize> jDC\x01]): the parsed name, the size announced in
    the comment, the bytes that [decompress] yields, the stored checksum
    if there is one, and the number of archive bytes the block takes.
    The archive is the list of its blocks in file order. *)
Record block := mkBlock {
  b_kind : kind_t;
  b_fdate : Z;
  b_num : Z;
  b_usize : Z;
  b_data : list Z;
  b_sha1 : option (list Z);
  b_len : Z
}.

(** The variables of [read_archive] that outlive a block: the archive
    state [ht], [dt], [ver], the locals [data_offset] and [pass], the
    counter behind the [errors] pointer ([None] for a null pointer) and
    the diagnostics written so far. *)
Record state := mkSt {
  ht : list HT;
  dt : gmap (list Z) DT;
  ver : list VER;
  data_offset : Z;
  pass : pass_t;
  errors : option Z;
  log : list diag
}.

(** How the handling of a block ends: the loop goes on (after
    [in.seek(jmp, SEEK_CUR)] when [jmp] is not 0), [read_archive]
    returns, an exception is thrown, or a null pointer is dereferenced. *)
Inductive step :=
  | Continue (jmp : Z)
  | Return (offset : Z)
  | Throw
  | Undefined.

Definition say (d : diag) (st : state) : state :=
  mkSt (ht st) (dt st) (ver st) (data_offset st) (pass st) (errors st) (log st ++ [d]).

(** [if (errors) ++*errors;] *)
Definition count_error (st : state) : state :=
  mkSt (ht st) (dt st) (ver st) (data_offset st) (pass st)
       (option_map (fun e => wrap_int (e + 1)) (errors st)) (log st).

Definition with_ht (h : list HT) (st : state) : state :=
  mkSt h (dt st) (ver st) (data_offset st) (pass st) (errors st) (log st).
Definition with_dt (d : gmap (list Z) DT) (st : state) : state :=
  mkSt (ht st) d (ver st) (data_offset st) (pass st) (errors st) (log st).
Definition with_ver (v : list VER) (st : state) : state :=
  mkSt (ht st) (dt st) v (data_offset st) (pass st) (errors st) (log st).
Definition with_data_offset (o : Z) (st : state) : state :=
  mkSt (ht st) (dt st) (ver st) o (pass st) (errors st) (log st).
Definition with_pass (p : pass_t) (st : state) : state :=
  mkSt (ht st) (dt st) (ver st) (data_offset st) p (errors st) (log st).
Definition with_errors (e : option Z) (st : state) : state :=
  mkSt (ht st) (dt st) (ver st) (data_offset st) (pass st) e (log st).

(** [ver.back()] updated by [f]. *)
Definition on_back (f : VER -> VER) (v : list VER) : list VER :=
  alter f (length v - 1)%nat v.

(** [while (ht.size()<=i) ht.push_back(HT());] *)
Definition grow (h : list HT) (i : Z) : list HT :=
  h ++ replicate (Z.to_nat (i + 1) - length h) HT0.

(** *** Transaction header (type c) *)

Definition valid_fdate (fdate : Z) : bool :=
  (19000000000000 <=? fdate) && (fdate <? 30000000000000).

(** [version<19000000000000LL ? size(ver)>version : version<fdate] *)
Definition until_rejects (version : Z) (st : state) (fdate : Z) : bool :=
  if version <? 19000000000000 then version <? wrap_int (vsize (ver st))
  else version <? fdate.

(** The body of the [filename.s[17]=='c'] branch for the block at
    [block_offset] whose segment ends at [tell]. *)
Definition read_c (version : Z) (b : block) (block_offset tell : Z) (st : state)
  : state * step :=
  let st := with_data_offset (tell + 1) st in
  let isbreak := until_rejects version st (b_fdate b) in
  let eight := (length (b_data b) =? 8)%nat in
  let jmp := if negb isbreak && eight then Bytes.btol (b_data b) else 0 in
  let st := if jmp <? 0 then say Incomplete_transaction_ignored st else st in
  let isbreak := isbreak || (jmp <? 0) in
  if negb eight then
    let st := say Bad_JIDAC_header_size st in
    match errors st with
    | None => (st, Undefined)
    | Some e => (with_errors (Some (if e =? 0 then e else wrap_int (e + 1))) st,
                 Return block_offset)
    end
  else if isbreak then (st, Return block_offset)
  else
    (with_ver (ver st ++ [mkVER (b_fdate b) 0 block_offset 0 0
                                (wrap_int (vsize (ht st)))]) st,
     Continue (if 0 <? jmp then jmp else 0)).

(** *** Fragment table (type h) *)

(** The [for] loop over the [n] tuples: [i] counts up from 0, [s] is the
    cursor; [true] when "duplicate fragment ID" is thrown. *)
Fixpoint read_tuples (n : nat) (i : Z) (num : Z) (s : list Z) (doff : Z)
    (h : list HT) : list HT * bool :=
  match n with
  | O => (h, false)
  | S n' =>
      let k := Z.to_nat (wrap_unsigned (num + i)) in
      let h := grow h (wrap_unsigned (num + i)) in
      let h := alter (Add.set_sha1 (take 20 s)) k h in
      if negb (csize (ht_at h k) =? HT_BAD) then (h, true)
      else
        let h := alter (Add.set_usize (Bytes.btoi (drop 20 s))) k h in
        let h := alter (Add.set_csize
                          (if i =? 0 then doff else wrap_int (- wrap_int i))) k h in
        read_tuples n' (wrap_unsigned (i + 1)) num (drop 24 s) doff h
  end.

Definition read_h (b : block) (st : state) : state * step :=
  let s := b_data b in
  let bsize := Bytes.btou s in
  let n := wrap_unsigned ((vsize s - 4) / 24) in
  let st := if vsize (ht st) =? b_num b then st
            else with_pass ERR (say Unordered_fragment_tables st) in
  let '(h, dup) := read_tuples (Z.to_nat n) 0 (b_num b) (drop 4 s)
                               (data_offset st) (ht st) in
  if dup then (with_ht h st, Throw)
  else (with_data_offset (wrap_int64 (data_offset st + bsize)) (with_ht h st),
        Continue 0).

(** *** Index (type i) *)

(** The locals of the pointer loop: [dtv.ptr], [dtv.size],
    [ver.back().usize], [ht] and [pass]. *)
Record ptr_state := mkPtr {
  ps_ptr : list Z;
  ps_size : Z;
  ps_usize : Z;
  ps_ht : list HT;
  ps_pass : pass_t
}.

(** [for (unsigned i=0; i<ni && s<=end-4; ++i)]: [cnt] turns are left,
    [s] is the cursor; [true] when "bad fragment ID" is thrown.  Also the
    cursor after the loop. *)
Fixpoint read_ptrs (cnt : nat) (i : nat) (s : list Z) (a : ptr_state)
  : ptr_state * list Z * bool :=
  match cnt with
  | O => (a, s, false)
  | S cnt' =>
      if (length s <? 4)%nat then (a, s, false)
      else
        let p := Bytes.btou s in
        let a := mkPtr (<[i := p]> (ps_ptr a)) (ps_size a) (ps_usize a)
                       (ps_ht a) (ps_pass a) in
        if (p <? 1) || (vsize (ps_ht a) + Z.shiftl 1 24 <=? p)
        then (a, drop 4 s, true)
        else
          let grown := vsize (ps_ht a) <=? p in
          let h := grow (ps_ht a) p in
          let u := usize (ht_at h (Z.to_nat p)) in
          read_ptrs cnt' (S i) (drop 4 s)
                    (mkPtr (ps_ptr a) (wrap_int64 (ps_size a + u))
                           (wrap_int64 (ps_usize a + u)) h
                           (if grown then ERR else ps_pass a))
  end.

(** [for (unsigned i=0; i<na && s<end; ++i, ++s) if (i<8) dtv.attr+=...] *)
Fixpoint read_attr (cnt : nat) (i : Z) (s : list Z) (attr : Z) : Z * list Z :=
  match cnt, s with
  | S cnt', c :: s' =>
      read_attr cnt' (i + 1) s'
                (if i <? 8 then wrap_int64 (attr + Z.shiftl (Z.land c 255) (i * 8))
                 else attr)
  | _, _ => (attr, s)
  end.

(** [strlen(fp)] *)
Fixpoint strlen (fp : list Z) : nat :=
  match fp with
  | [] => 0
  | c :: fp' => if c =? 0 then 0%nat else S (strlen fp')
  end.

(** One record: the turn of [while (s<=end-9)] at cursor [s]; the state,
    the cursor after the record and whether an error is thrown. *)
Definition read_record (s : list Z) (st : state) : state * list Z * bool :=
  let fp := drop 8 s in
  let name := take (strlen fp) fp in
  let date := Bytes.btol s in
  let st := with_ver (on_back (fun v =>
                        if date =? 0
                        then mkVER (ver_date v) (ver_usize v) (ver_offset v)
                                   (ver_updates v) (wrap_int (ver_deletes v + 1))
                                   (ver_firstFragment v)
                        else mkVER (ver_date v) (ver_usize v) (ver_offset v)
                                   (wrap_int (ver_updates v + 1)) (ver_deletes v)
                                   (ver_firstFragment v)) (ver st)) st in
  let s := drop (S (strlen fp)) fp in
  let version := wrap_int (vsize (ver st) - 1) in
  let old := default DT0 (dt st !! name) in
  let store (v : DTV) (st : state) : state :=
    with_dt (<[name := mkDT (edate old) (esize old) (eattr old) (eptr old)
                            (dtv old ++ [v]) (written old)]> (dt st)) st in
  if negb (date =? 0) && (8 <=? length s)%nat then
    let na := Bytes.btou s in
    let '(attr, s) := read_attr (Z.to_nat na) 0 (drop 4 s) 0 in
    if (4 <=? length s)%nat then
      let ni := Bytes.btou s in
      let back := default VER0 (last (ver st)) in
      let '(a, s, bad) :=
        read_ptrs (Z.to_nat ni) 0 (drop 4 s)
                  (mkPtr (replicate (Z.to_nat ni) 0) 0 (ver_usize back)
                         (ht st) (pass st)) in
      let st := with_ver (on_back (fun v =>
                            mkVER (ver_date v) (ps_usize a) (ver_offset v)
                                  (ver_updates v) (ver_deletes v)
                                  (ver_firstFragment v)) (ver st)) st in
      let st := with_pass (ps_pass a) (with_ht (ps_ht a) st) in
      (store (mkDTV date (ps_size a) attr (ps_ptr a) version) st, s, bad)
    else (store (mkDTV date 0 attr [] version) st, s, false)
  else (store (mkDTV date 0 0 [] version) st, s, false).

(** [while (s<=end-9) {...}]; every record takes at least 9 bytes, so
    [fuel] = the length of the block is enough. *)
Fixpoint read_records (fuel : nat) (s : list Z) (st : state) : state * bool :=
  match fuel with
  | O => (st, false)
  | S fuel' =>
      if (length s <? 9)%nat then (st, false)
      else
        let '(st, s, bad) := read_record s st in
        if bad then (st, true) else read_records fuel' s st
  end.

Definition read_i (b : block) (st : state) : state * step :=
  let '(st, bad) := read_records (length (b_data b)) (b_data b) st in
  (st, if bad then Throw else Continue 0).

Section Passes.

(** [libzpaq::SHA1] over the bytes put into it. *)
Variable SHA1 : list Z -> list Z.

(** [quiet<MAX_QUIET] *)
Variable verbose : bool.

(** [-until] ([version]). *)
Variable version : Z.

(** *** Recovery from a data block (type d, second pass) *)

(** "read fragment sizes into ht[n..n+f-1].usize": the new table and [sum]. *)
Fixpoint recover_sizes (f : nat) (i : Z) (n : Z) (p : list Z)
    (block_offset : Z) (h : list HT) (sum : Z) : list HT * Z :=
  match f with
  | O => (h, sum)
  | S f' =>
      let k := Z.to_nat (wrap_unsigned (n + i)) in
      let u := Bytes.btoi p in
      let h := alter (Add.set_usize u) k h in
      let h := alter (Add.set_csize
                        (if i =? 0 then block_offset else wrap_int (- wrap_int i))) k h in
      recover_sizes f' (wrap_unsigned (i + 1)) n (drop 4 p) block_offset h
                    (wrap_unsigned (sum + u))
  end.

(** "Compute hashes": each fragment's bytes hashed on their own. *)
Fixpoint recover_hashes (f : nat) (i : Z) (n : Z) (p : list Z) (h : list HT)
  : list HT :=
  match f with
  | O => h
  | S f' =>
      let k := Z.to_nat (wrap_unsigned (n + i)) in
      let u := Z.to_nat (usize (ht_at h k)) in
      recover_hashes f' (wrap_unsigned (i + 1)) n (drop u p)
                     (alter (Add.set_sha1 (SHA1 (take u p))) k h)
  end.

(** The branch [pass==RECOVER && filename.s[17]=='d' && num>0 &&
    num<ht.size()]; [os] is what was decompressed (nothing, if the block
    was not decompressed). *)
Definition recover_d (os : list Z) (num : Z) (block_offset : Z) (st : state)
  : state :=
  let k := Z.to_nat num in
  let h :=
    if (8 <=? length os)%nat && (csize (ht_at (ht st) k) =? HT_BAD) then
      let p := drop (length os - 8) os in
      let n := Bytes.btou p in
      let n := if n =? 0 then num else n in
      let f := Bytes.btou (drop 4 p) in
      if (n =? num) && negb (f =? 0)
         && (wrap_unsigned (f * 4 + 8) <=? vsize os) then
        let h := grow (ht st) (wrap_unsigned (n + f)) in
        let p := drop (length os - 8 - Z.to_nat (wrap_unsigned (4 * f))) os in
        let '(h, sum) := recover_sizes (Z.to_nat f) 0 n p block_offset h 0 in
        if wrap_unsigned (sum + f * 4 + 8) =? vsize os
        then recover_hashes (Z.to_nat f) 0 n os h
        else h
      else ht st
    else ht st in
  let h := if verbose && negb (csize (ht_at h k) =? block_offset)
           then alter (Add.set_csize block_offset) k h else h in
  with_ht h st.

(** *** One block *)

(** "Decompress the block": what is in [os] afterwards, or [None] when
    "incorrect block size" or "bad checksum" is thrown. *)
Definition decompress (b : block) (st : state) : option (list Z) :=
  if bool_decide (pass st <> RECOVER)
     || (bool_decide (b_kind b = Kd) && (0 <? b_num b)
         && (b_num b <? vsize (ht st))
         && (csize (ht_at (ht st) (Z.to_nat (b_num b))) =? HT_BAD))
  then
    if negb (b_usize b =? vsize (b_data b)) then None
    else match b_sha1 b with
         | Some c => if Index.same_hash c (SHA1 (b_data b))
                     then Some (b_data b) else None
         | None => Some (b_data b)
         end
  else Some [].

(** The handling of the block at [block_offset], of which the segment
    ends at [tell]. *)
Definition read_block (b : block) (block_offset tell : Z) (st : state)
  : state * step :=
  match decompress b st with
  | None => (st, Throw)
  | Some os =>
      let b := mkBlock (b_kind b) (b_fdate b) (b_num b) (b_usize b) os
                       (b_sha1 b) (b_len b) in
      if bool_decide (b_kind b = Kc) && valid_fdate (b_fdate b)
         && bool_decide (pass st <> RECOVER)
      then read_c version b block_offset tell st
      else if bool_decide (b_kind b = Kh) && (0 <? b_num b)
              && (4 <=? length os)%nat && bool_decide (pass st <> RECOVER)
      then read_h b st
      else if bool_decide (b_kind b = Ki) && bool_decide (pass st <> RECOVER)
      then read_i b st
      else if bool_decide (pass st = RECOVER) && bool_decide (b_kind b = Kd)
              && (0 <? b_num b) && (b_num b <? vsize (ht st))
      then (recover_d os (b_num b) block_offset st, Continue 0)
      else if bool_decide (pass st <> RECOVER)
      then (count_error (say Bad_JIDAC_block_ignored st), Continue 0)
      else (st, Continue 0)
  end.

(** The [catch] clause of the loop. *)
Definition caught (st : state) : state := count_error (say Skipping_block st).

(** *** The loop over the blocks *)

Inductive scanned :=
  | At_end (offset : Z) (st : state)     (* findBlock found no more block *)
  | Returned (offset : Z) (st : state)   (* return block_offset *)
  | Crashed.

(** The loop while there are blocks: either it is still going, with the
    next block at [off] and the read position at [pos], or it has ended. *)
Inductive walked :=
  | Going (off pos : Z) (st : state)
  | Ended (r : scanned).

(** Modelled from the spec: how libzpaq's iterator walks the archive is
    not part of zpaq.cpp.  [bs] are the blocks from offset [off] on and
    [pos] is the read position ([pos > off] after a seek).  A block that
    starts before the read position is passed over.  Per 4.1 of the
    spec a read position that is not a block boundary is a malformed
    block: it is logged and counted, and reading goes on at the next
    block.  The segment of a block ends one byte (the end-of-block
    marker) before the next block starts. *)
Fixpoint walk (bs : list block) (off pos : Z) (st : state) : walked :=
  match bs with
  | [] => Going off pos st
  | b :: bs' =>
      let next := off + b_len b in
      if off <? pos then
        if pos <? next then walk bs' next next (caught st)
        else walk bs' next pos st
      else
        match read_block b off (next - 1) st with
        | (st, Continue jmp) => walk bs' next (next + jmp) st
        | (st, Return o) => Ended (Returned o st)
        | (st, Throw) => walk bs' next next (caught st)
        | (_, Undefined) => Ended Crashed
        end
  end.

(** One pass over the archive, to the end of the file. *)
Definition scan (bs : list block) (off pos : Z) (st : state) : scanned :=
  match walk bs off pos st with
  | Going off pos st => At_end (Z.max off pos) (if off <? pos then caught st else st)
  | Ended r => r
  end.

(** "Recompute file sizes in recover mode" *)
Definition recomputed_size (h : list HT) (ptr : list Z) : Z :=
  fold_left (fun acc k =>
               if (0 <? k) && (k <? vsize h)
               then wrap_int64 (acc + usize (ht_at h (Z.to_nat k))) else acc)
            ptr 0.

Definition recompute (st : state) : state :=
  with_dt ((fun d => mkDT (edate d) (esize d) (eattr d) (eptr d)
                          (map (fun v => mkDTV (dtv_date v)
                                               (recomputed_size (ht st) (dtv_ptr v))
                                               (dtv_attr v) (dtv_ptr v)
                                               (dtv_version v)) (dtv d))
                          (written d)) <$> dt st) st.

(** The state [doCommand] leaves before a command runs: [ht.resize(1)],
    [ver.resize(1)]. *)
Definition initial (errs : option Z) : state :=
  mkSt [HT0] ∅ [VER0] 0 NORMAL errs [].

(** [int64_t Jidac::read_archive(int *errors)] on the archive [bs]:
    the first pass and, if it ended in [ERR], the recovery pass over
    all blocks again. *)
Definition read_archive (bs : list block) (st : state) : scanned :=
  match scan bs 0 0 (with_errors (option_map (fun _ => 0) (errors st)) st) with
  | At_end off st =>
      if bool_decide (pass st = ERR) then
        match scan bs 0 0 (with_pass RECOVER st) with
        | At_end off st => Returned off (recompute st)
        | r => r
        end
      else Returned off st
  | r => r
  end.

(** *** The loop, block list by block list *)

Lemma walk_app pre rest : forall off pos st,
  walk (pre ++ rest) off pos st
  = match walk pre off pos st with
    | Going off' pos' st' => walk rest off' pos' st'
    | Ended r => Ended r
    end.
Proof.
  induction pre as [|b pre IH]; intros off pos st; cbn; [reflexivity|].
  destruct (off <? pos).
  - destruct (pos <? off + b_len b); apply IH.
  - destruct (read_block b off (off + b_len b - 1) st) as [st' [jmp|o| |]];
      try apply IH; reflexivity.
Qed.

(** *** Transaction headers *)

(** A block that [read_archive] takes for a transaction header: named
    [c], dated within 1900..2999, met on the first pass, and
    decompressing to its bytes with the size and the checksum right. *)
Definition is_header (b : block) (st : state) : Prop :=
  b_kind b = Kc /\ valid_fdate (b_fdate b) = true /\ pass st <> RECOVER /\
  decompress b st = Some (b_data b).

Lemma read_block_header b block_offset tell st :
  is_header b st ->
  read_block b block_offset tell st = read_c version b block_offset tell st.
Proof.
  intros (Hk & Hd & Hp & Hdec). unfold read_block. rewrite Hdec.
  destruct b as [k fd num us data ck len]. cbn in Hk, Hd. subst k.
  cbv zeta. cbn [b_kind b_fdate b_num b_usize b_data b_sha1 b_len].
  rewrite Hd, (bool_decide_eq_true_2 _ Hp). reflexivity.
Qed.

(** The state after the header of an incomplete transaction. *)
Definition dropped (tell : Z) (b : block) (st : state) : state :=
  let st := with_data_offset (tell + 1) st in
  if until_rejects version st (b_fdate b) then st
  else say Incomplete_transaction_ignored st.

(** C6 (as amended).  A transaction header whose 8-byte payload is
    negative ends [read_archive]: the function returns the offset of
    that block, and [ht], [dt], [ver], [pass] and the error counter are
    what the blocks before it made them.  "Incomplete transaction
    ignored" is written when (and only when) [-until] does not already
    reject the block; when it does, nothing is written.  The blocks after
    the header are not read: the loop over an archive that has the header
    after the blocks [pre] returns as soon as it gets there. *)
Theorem incomplete_transaction (b : block) (block_offset tell : Z) (st : state) :
  is_header b st ->
  length (b_data b) = 8%nat ->
  Bytes.btol (b_data b) < 0 ->
  let st' := dropped tell b st in
  read_block b block_offset tell st = (st', Return block_offset) /\
  ht st' = ht st /\ dt st' = dt st /\ ver st' = ver st /\
  pass st' = pass st /\ errors st' = errors st /\
  log st'
  = log st ++ (if until_rejects version st (b_fdate b) then []
               else [Incomplete_transaction_ignored]) /\
  (tell = block_offset + b_len b - 1 ->
   forall pre post st0,
     walk pre 0 0 st0 = Going block_offset block_offset st ->
     scan (pre ++ b :: post) 0 0 st0 = Returned block_offset st').
Proof.
  intros Hhead Hlen Hneg st'.
  assert (Hread : read_block b block_offset tell st = (st', Return block_offset)).
  { rewrite read_block_header by exact Hhead.
    subst st'. unfold read_c, dropped. rewrite Hlen. cbn [Nat.eqb negb andb].
    change (until_rejects version (with_data_offset (tell + 1) st) (b_fdate b))
      with (until_rejects version st (b_fdate b)).
    destruct (until_rejects version st (b_fdate b)); cbn [negb andb orb].
    - reflexivity.
    - apply Z.ltb_lt in Hneg. rewrite Hneg. reflexivity. }
  assert (Hwalk : tell = block_offset + b_len b - 1 ->
            forall pre post st0,
              walk pre 0 0 st0 = Going block_offset block_offset st ->
              scan (pre ++ b :: post) 0 0 st0 = Returned block_offset st').
  { intros -> pre post st0 Hpre. unfold scan.
    rewrite walk_app, Hpre. cbn [walk]. cbv zeta.
    rewrite Z.ltb_irrefl, Hread. reflexivity. }
  split; [exact Hread|].
  assert (Hfields : ht st' = ht st /\ dt st' = dt st /\ ver st' = ver st /\
                    pass st' = pass st /\ errors st' = errors st /\
                    log st' = log st ++ (if until_rejects version st (b_fdate b)
                                         then [] else [Incomplete_transaction_ignored])).
  { subst st'. unfold dropped.
    change (until_rejects version (with_data_offset (tell + 1) st) (b_fdate b))
      with (until_rejects version st (b_fdate b)).
    destruct (until_rejects version st (b_fdate b)); cbn;
      repeat split; try reflexivity. now rewrite app_nil_r. }
  destruct Hfields as (H1 & H2 & H3 & H4 & H5 & H6).
  repeat split; assumption.
Qed.

(** A header that [-until] rejects ends the loop with nothing added. *)
Lemma read_c_rejected b block_offset tell st :
  until_rejects version st (b_fdate b) = true ->
  length (b_data b) = 8%nat ->
  read_c version b block_offset tell st
  = (with_data_offset (tell + 1) st, Return block_offset).
Proof.
  intros Hrej Hlen. unfold read_c. rewrite Hlen.
  change (until_rejects version (with_data_offset (tell + 1) st) (b_fdate b))
    with (until_rejects version st (b_fdate b)).
  rewrite Hrej. reflexivity.
Qed.

(** A header that [-until] lets pass, with a payload that is not
    negative, opens a new version and jumps over the data blocks. *)
Lemma read_c_accepted b block_offset tell st :
  until_rejects version st (b_fdate b) = false ->
  length (b_data b) = 8%nat ->
  0 <= Bytes.btol (b_data b) ->
  read_c version b block_offset tell st
  = (with_ver (ver st ++ [mkVER (b_fdate b) 0 block_offset 0 0
                                (wrap_int (vsize (ht st)))])
              (with_data_offset (tell + 1) st),
     Continue (Bytes.btol (b_data b))).
Proof.
  intros Hrej Hlen Hpos. unfold read_c. rewrite Hlen.
  change (until_rejects version (with_data_offset (tell + 1) st) (b_fdate b))
    with (until_rejects version st (b_fdate b)).
  rewrite Hrej. cbn [negb andb orb Nat.eqb].
  replace (Bytes.btol (b_data b) <? 0) with false by (symmetry; apply Z.ltb_ge; lia).
  cbn [negb andb orb]. f_equal. f_equal.
  destruct (0 <? Bytes.btol (b_data b)) eqn:E; [reflexivity|].
  apply Z.ltb_ge in E. lia.
Qed.

End Passes.

(** C7.  An [-until] argument that is a date [d] of eight digits
    (19000101 to 29991231) becomes the version [d]235959.  With that
    version a transaction header dated after it ends the reading at the
    header's own offset, with no version added; a header dated at or
    before it (and with a payload that is not negative) opens a new
    version and the reading goes on.  So the loop over an archive stops
    at the first header it meets whose date exceeds the value. *)
Theorem until_date (SHA1 : list Z -> list Z) (verbose : bool) (d : Z)
    (b : block) (block_offset tell : Z) (st : state) :
  19000101 <= d <= 29991231 ->
  is_header SHA1 b st ->
  length (b_data b) = 8%nat ->
  0 <= Bytes.btol (b_data b) ->
  let v := d * 1000000 + 235959 in
  Cli.until_option d = Some v /\
  (v < b_fdate b ->
     read_block SHA1 verbose v b block_offset tell st
     = (with_data_offset (tell + 1) st, Return block_offset) /\
     (tell = block_offset + b_len b - 1 ->
      forall pre post st0,
        walk SHA1 verbose v pre 0 0 st0 = Going block_offset block_offset st ->
        scan SHA1 verbose v (pre ++ b :: post) 0 0 st0
        = Returned block_offset (with_data_offset (tell + 1) st))) /\
  (b_fdate b <= v ->
     read_block SHA1 verbose v b block_offset tell st
     = (with_ver (ver st ++ [mkVER (b_fdate b) 0 block_offset 0 0
                                   (wrap_int (vsize (ht st)))])
                 (with_data_offset (tell + 1) st),
        Continue (Bytes.btol (b_data b)))).
Proof.
  intros Hd Hhead Hlen Hpos v.
  assert (Hv : 19000000000000 <= v) by (subst v; lia).
  assert (Hrej : until_rejects v st (b_fdate b) = (v <? b_fdate b)).
  { unfold until_rejects.
    replace (v <? 19000000000000) with false by (symmetry; apply Z.ltb_ge; lia).
    reflexivity. }
  split; [apply Cli.until_option_date; exact Hd|]. split.
  - intros Hlt.
    assert (Hread : read_block SHA1 verbose v b block_offset tell st
                    = (with_data_offset (tell + 1) st, Return block_offset)).
    { rewrite read_block_header by exact Hhead.
      apply read_c_rejected; [|exact Hlen].
      rewrite Hrej. apply Z.ltb_lt. exact Hlt. }
    split; [exact Hread|].
    intros -> pre post st0 Hpre. unfold scan.
    rewrite walk_app, Hpre. cbn [walk]. cbv zeta.
    rewrite Z.ltb_irrefl, Hread. reflexivity.
  - intros Hle. rewrite read_block_header by exact Hhead.
    apply read_c_accepted; [|exact Hlen|exact Hpos].
    rewrite Hrej. apply Z.ltb_ge. exact Hle.
Qed.

(** A header dated 2025-01-02 00:00:00 whose data run is empty, and the
    state in which it is met first. *)
Definition header_20250102 : block :=
  mkBlock Kc 20250102000000 1 8 (Bytes.ltob 0) None 100.

(** S6: [-until 20250101] leaves the snapshot of 20250102000000 out, ... *)
Lemma until_date_witness :
  Cli.until_option 20250101 = Some 20250101235959 /\
  read_block Add.toy_sha1 true 20250101235959 header_20250102 0 99 (initial None)
  = (with_data_offset 100 (initial None), Return 0).
Proof.
  pose proof (until_date Add.toy_sha1 true 20250101 header_20250102 0 99 (initial None))
    as H.
  destruct H as (Hopt & Hout & _).
  - lia.
  - repeat split; try reflexivity; discriminate.
  - reflexivity.
  - vm_compute. discriminate.
  - split; [exact Hopt|]. apply Hout. vm_compute. reflexivity.
Defined.

(** ... and [-until 20250103] takes it in. *)
Example until_20250103_includes :
  Cli.until_option 20250103 = Some 20250103235959 /\
  read_block Add.toy_sha1 true 20250103235959 header_20250102 0 99 (initial None)
  = (with_ver [VER0; mkVER 20250102000000 0 0 0 0 1]
              (with_data_offset 100 (initial None)), Continue 0).
Proof. split; reflexivity. Qed.

(** An incomplete transaction after one snapshot. *)
Definition header_incomplete : block :=
  mkBlock Kc 20250102000000 1 8 (Bytes.ltob (-1)) None 100.

Definition one_snapshot : state :=
  mkSt [HT0] ∅ [VER0; mkVER 20250101000000 0 0 0 0 1] 0 NORMAL None [].

Lemma incomplete_transaction_witness :
  read_block Add.toy_sha1 true 9999999999999 header_incomplete 500 599 one_snapshot
  = (say Incomplete_transaction_ignored (with_data_offset 600 one_snapshot),
     Return 500).
Proof.
  pose proof (incomplete_transaction Add.toy_sha1 true 9999999999999
                header_incomplete 500 599 one_snapshot) as H.
  destruct H as (Hread & _).
  - repeat split; try reflexivity; discriminate.
  - reflexivity.
  - vm_compute. reflexivity.
  - exact Hread.
Defined.

(** C6 as stated fails: with [-until 1] the header of the incomplete
    second transaction (payload -1) is rejected by the version filter
    before its payload is looked at; [read_archive] returns at the
    header, and nothing is reported. *)
Lemma incomplete_unreported :
  Bytes.btol (b_data header_incomplete) = -1 /\
  read_block Add.toy_sha1 true 1 header_incomplete 500 599 one_snapshot
  = (with_data_offset 600 one_snapshot, Return 500) /\
  log (with_data_offset 600 one_snapshot) = [].
Proof. repeat split; vm_compute; reflexivity. Qed.

(** *** Fragment pointers of an index record *)

(** The pointers that the loop of [read_ptrs] reads: the 4-byte words at
    the cursor, at most [cnt], as long as 4 bytes are left. *)
Fixpoint words (cnt : nat) (s : list Z) : list Z :=
  match cnt with
  | O => []
  | S cnt' => if (length s <? 4)%nat then []
              else Bytes.btou s :: words cnt' (drop 4 s)
  end.

(** [ht.size()] after the pointers [ws] have passed the loop, [n] being
    [ht.size()] before: a pointer beyond the table extends the table
    until it holds the pointer. *)
Definition size_after (n : Z) (ws : list Z) : Z :=
  fold_left (fun n p => Z.max n (p + 1)) ws n.

(** Pointer number [k] of [ws] fails the test of the loop, which is made
    with the size that the table has when the pointer is read. *)
Definition rejected (n : Z) (ws : list Z) (k : nat) : Prop :=
  exists p, ws !! k = Some p /\
            (p < 1 \/ size_after n (take k ws) + 2 ^ 24 <= p).

Lemma grow_length h p : 0 <= p -> p < vsize (grow h p).
Proof.
  intros Hp. unfold grow, vsize. rewrite length_app, length_replicate. lia.
Qed.

Lemma grow_same h p : p < vsize h -> grow h p = h.
Proof.
  intros Hp. unfold grow, vsize in *.
  replace (Z.to_nat (p + 1) - length h)%nat with 0%nat by lia.
  cbn. apply app_nil_r.
Qed.


Lemma grow_size h p : 0 <= p -> vsize (grow h p) = Z.max (vsize h) (p + 1).
Proof.
  intros Hp. unfold grow, vsize. rewrite length_app, length_replicate. lia.
Qed.

Lemma size_after_le ws : forall n, n <= size_after n ws.
Proof.
  induction ws as [|p ws IH]; intros n; cbn; [lia|].
  specialize (IH (Z.max n (p + 1))). unfold size_after in IH. lia.
Qed.

Lemma size_after_elem ws : forall n p, p ∈ ws -> p < size_after n ws.
Proof.
  induction ws as [|q ws IH]; intros n p Hin; [now apply elem_of_nil in Hin|].
  apply elem_of_cons in Hin as [-> | Hin]; cbn.
  - pose proof (size_after_le ws (Z.max n (q + 1))) as H.
    unfold size_after in H. lia.
  - now apply IH.
Qed.

Lemma rejected_head n p ws :
  rejected n (p :: ws) 0 <-> p < 1 \/ n + 2 ^ 24 <= p.
Proof.
  unfold rejected. cbn. split.
  - now intros (q & [= <-] & H).
  - intros H. now exists p.
Qed.

Lemma rejected_tail n p ws k :
  rejected n (p :: ws) (S k) <-> rejected (Z.max n (p + 1)) ws k.
Proof. reflexivity. Qed.

(** What the pointer loop does, told without the loop: which pointers
    it rejects, and the table, [pass], [dtv.ptr] and the cursor that it
    leaves when it rejects none. *)
Lemma read_ptrs_exact (cnt : nat) : forall (i : nat) (s : list Z) (a a' : ptr_state)
    (s' : list Z) (bad : bool),
  read_ptrs cnt i s a = (a', s', bad) ->
  (i + cnt <= length (ps_ptr a))%nat ->
  (bad = true <-> exists k, rejected (vsize (ps_ht a)) (words cnt s) k) /\
  (bad = false ->
     ps_ht a' = ps_ht a
                ++ replicate (Z.to_nat (size_after (vsize (ps_ht a)) (words cnt s)
                                        - vsize (ps_ht a))) HT0 /\
     ps_pass a' = (if vsize (ps_ht a) <? size_after (vsize (ps_ht a)) (words cnt s)
                   then ERR else ps_pass a) /\
     ps_ptr a' = take i (ps_ptr a) ++ words cnt s
                 ++ drop (i + length (words cnt s)) (ps_ptr a)).
Proof.
  induction cnt as [|cnt IH]; intros i s a a' s' bad Heq Hlen.
  - cbn in Heq. injection Heq as <- <- <-. cbn [words]. split.
    + split; [discriminate|]. intros (k & p & Hk & _). discriminate.
    + intros _. cbn [size_after fold_left length app].
      rewrite Z.sub_diag, Z.ltb_irrefl, Nat.add_0_r, take_drop. cbn.
      now rewrite app_nil_r.
  - cbn [read_ptrs words] in *.
    destruct (length s <? 4)%nat.
    { injection Heq as <- <- <-. split.
      + split; [discriminate|]. intros (k & p & Hk & _). discriminate.
      + intros _. cbn [size_after fold_left length app].
        rewrite Z.sub_diag, Z.ltb_irrefl, Nat.add_0_r, take_drop. cbn.
        now rewrite app_nil_r. }
    cbn [ps_ht ps_ptr ps_size ps_usize ps_pass] in Heq.
    change (Z.shiftl 1 24) with (2 ^ 24) in Heq.
    set (p := Bytes.btou s) in *. set (n := vsize (ps_ht a)) in *.
    destruct ((p <? 1) || (n + 2 ^ 24 <=? p)) eqn:Hrej.
    + injection Heq as <- <- <-. split; [|discriminate].
      split; [|reflexivity]. intros _. exists 0%nat. apply rejected_head.
      apply orb_true_iff in Hrej as [H | H];
        [apply Z.ltb_lt in H | apply Z.leb_le in H]; lia.
    + apply orb_false_iff in Hrej as [H1 H2].
      apply Z.ltb_ge in H1. apply Z.leb_gt in H2.
      apply IH in Heq; [|cbn [ps_ptr]; rewrite length_insert; lia].
      cbn [ps_ht ps_pass ps_ptr] in Heq.
      rewrite (grow_size (ps_ht a) p ltac:(lia)) in Heq. fold n in Heq.
      destruct Heq as [Hbad Hok]. split.
      * rewrite Hbad. split.
        -- intros [k Hk]. exists (S k). now apply rejected_tail.
        -- intros [[|k] Hk].
           ++ apply rejected_head in Hk. lia.
           ++ exists k. now apply rejected_tail in Hk.
      * intros Hb. destruct (Hok Hb) as (Hht & Hpass & Hptr).
        change (size_after n (p :: words cnt (drop 4 s)))
          with (size_after (Z.max n (p + 1)) (words cnt (drop 4 s))).
        pose proof (size_after_le (words cnt (drop 4 s)) (Z.max n (p + 1))) as Hle.
        set (m := size_after (Z.max n (p + 1)) (words cnt (drop 4 s))) in *.
        split; [|split].
        -- rewrite Hht. unfold grow. rewrite <- app_assoc, <- replicate_add.
           do 2 f_equal. subst n. unfold vsize in *. lia.
        -- rewrite Hpass.
           destruct (n <=? p) eqn:Hg;
             [apply Z.leb_le in Hg | apply Z.leb_gt in Hg].
           ++ replace (n <? m) with true by (symmetry; apply Z.ltb_lt; lia).
              now destruct (Z.max n (p + 1) <? m).
           ++ now replace (Z.max n (p + 1)) with n by lia.
        -- rewrite Hptr. cbn [length].
           rewrite take_insert_lt by lia.
           rewrite drop_insert_lt by lia.
           assert (Hi : (i < length (ps_ptr a))%nat) by lia.
           destruct (lookup_lt_is_Some_2 _ _ Hi) as [x Hx].
           rewrite (take_S_r _ _ _ Hx).
           rewrite insert_app_r_alt by (rewrite length_take; lia).
           rewrite length_take.
           replace (i - i `min` length (ps_ptr a))%nat with 0%nat by lia.
           cbn [insert list_insert]. rewrite <- app_assoc. cbn [app].
           do 3 f_equal. f_equal. lia.
Qed.

(** C9 (as amended).  The pointer loop of an index record, entered as
    [read_archive] enters it: [dtv.ptr] resized to the count [ni] of
    the record, all zeros.  Each pointer that is read is tested against
    [ht.size()] as it is at that moment.  The loop throws "bad fragment
    ID" exactly when some pointer it reads is 0, or at least
    [ht.size() + 2^24].  A pointer [p] with
    [ht.size() <= p < ht.size() + 2^24] is not rejected: [ht] is
    extended with empty entries ([HT()]) until [p < ht.size()], and
    [pass] becomes [ERR].  So when the loop ends without the error,
    every pointer it read lies in [[1, ht.size())] for the table as the
    loop leaves it; the table is the one the loop started with, followed
    by just the empty entries that the largest pointer asks for; [pass]
    is [ERR] if the table was extended and unchanged if not; and
    [dtv.ptr] holds the pointers read, followed by a 0 for each pointer
    that the count announces and the block ends before. *)
Theorem fragment_id_range (ni : nat) (s : list Z) (size usize : Z) (h : list HT)
    (pass : pass_t) (a' : ptr_state) (s' : list Z) (bad : bool) :
  read_ptrs ni 0 s (mkPtr (replicate ni 0) size usize h pass) = (a', s', bad) ->
  (bad = true <-> exists k, rejected (vsize h) (words ni s) k) /\
  (bad = false ->
     Forall (fun p => 1 <= p < vsize (ps_ht a')) (words ni s) /\
     vsize (ps_ht a') = size_after (vsize h) (words ni s) /\
     ps_ht a' = h ++ replicate (Z.to_nat (vsize (ps_ht a') - vsize h)) HT0 /\
     ps_pass a' = (if vsize h <? vsize (ps_ht a') then ERR else pass) /\
     ps_ptr a' = words ni s ++ replicate (ni - length (words ni s)) 0).
Proof.
  intros Heq.
  destruct (read_ptrs_exact ni 0 s _ a' s' bad Heq) as [Hbad Hok].
  { cbn [ps_ptr]. rewrite length_replicate. lia. }
  cbn [ps_ht ps_pass ps_ptr] in *. split; [exact Hbad|].
  intros Hb. destruct (Hok Hb) as (Hht & Hpass & Hptr).
  pose proof (size_after_le (words ni s) (vsize h)) as Hle.
  assert (Hsize : vsize (ps_ht a') = size_after (vsize h) (words ni s)).
  { rewrite Hht. unfold vsize in *. rewrite length_app, length_replicate. lia. }
  split; [|split; [exact Hsize|split; [|split]]].
  - apply Forall_forall. intros p Hin. rewrite Hsize. split.
    + destruct (Z.lt_ge_cases p 1) as [Hlt | Hge]; [|exact Hge].
      assert (Hr : bad = true); [|congruence].
      apply Hbad. apply list_elem_of_lookup in Hin as [k Hk].
      exists k, p. auto.
    + now apply size_after_elem.
  - now rewrite Hsize.
  - now rewrite Hsize.
  - rewrite Hptr. change (0 + length (words ni s))%nat with (length (words ni s)).
    now rewrite drop_replicate.
Qed.

(** Two known fragments and a record that points to both. *)
Definition two_known : list HT :=
  [HT0; mkHT (replicate 20 1) 10 100; mkHT (replicate 20 2) 20 (-1)].

Lemma fragment_id_range_witness :
  read_ptrs 2 0 (Bytes.itob 1 ++ Bytes.itob 2) (mkPtr [0; 0] 0 0 two_known NORMAL)
  = (mkPtr [1; 2] 30 30 two_known NORMAL, [], false) /\
  Forall (fun p => 1 <= p < 3) (words 2 (Bytes.itob 1 ++ Bytes.itob 2)).
Proof.
  split; [vm_compute; reflexivity|].
  pose proof (fragment_id_range 2 (Bytes.itob 1 ++ Bytes.itob 2) 0 0 two_known NORMAL
                (mkPtr [1; 2] 30 30 two_known NORMAL) [] false) as H.
  destruct H as (_ & Hok); [vm_compute; reflexivity|].
  exact (proj1 (Hok eq_refl)).
Defined.

(** The upper bound is tested: with three entries in [ht], the pointer
    [3 + 2^24] is rejected and [3 + 2^24 - 1] is not. *)
Example pointer_far_beyond_rejected :
  (read_ptrs 1 0 (Bytes.itob (3 + 2 ^ 24)) (mkPtr [0] 0 0 two_known NORMAL)).2 = true /\
  (read_ptrs 1 0 (Bytes.itob (2 + 2 ^ 24)) (mkPtr [0] 0 0 two_known NORMAL)).2 = false.
Proof. split; vm_compute; reflexivity. Qed.

(** An index block with one record: date, the name "a", no attributes,
    one pointer, 5. *)
Definition index_pointing_to_5 : block :=
  mkBlock Ki 20250101000000 1 22
          (Bytes.ltob 20250101000000 ++ [97; 0] ++ Bytes.itob 0
           ++ Bytes.itob 1 ++ Bytes.itob 5)
          None 60.

(** C9 as stated fails: with only the reserved entry in [ht]
    ([ht.size()] = 1) a record pointing to fragment 5 is not rejected;
    the block is read without an exception, [ht] grows to 6 entries
    and [pass] becomes [ERR]. *)
Lemma pointer_beyond_table_accepted :
  read_ptrs 1 0 (Bytes.itob 5) (mkPtr [0] 0 0 [HT0] NORMAL)
  = (mkPtr [5] (-1) (-1) (replicate 6 HT0) ERR, [], false) /\
  (let r := read_block Add.toy_sha1 true 9999999999999 index_pointing_to_5 200 259
                       (with_ver [VER0; mkVER 20250101000000 0 0 0 0 1] (initial None)) in
   r.2 = Continue 0 /\ ht r.1 = replicate 6 HT0 /\ pass r.1 = ERR /\ log r.1 = []).
Proof. split; [|repeat split]; vm_compute; reflexivity. Qed.

(** An index block whose record announces two pointers and ends after
    the first. *)
Definition index_cut_short : block :=
  mkBlock Ki 20250101000000 1 22
          (Bytes.ltob 20250101000000 ++ [97; 0] ++ Bytes.itob 0
           ++ Bytes.itob 2 ++ Bytes.itob 1)
          None 60.

(** The record is taken as it is: no exception, [pass] unchanged, and
    the version of "a" has the pointers 1 and 0. *)
Example pointer_not_read_is_zero :
  let r := read_block Add.toy_sha1 true 9999999999999 index_cut_short 200 259
                      (with_ht two_known
                         (with_ver [VER0; mkVER 20250101000000 0 0 0 0 1]
                                   (initial None))) in
  r.2 = Continue 0 /\ pass r.1 = NORMAL /\ ht r.1 = two_known /\
  (dtv_ptr <$> last (dtv (default DT0 (dt r.1 !! [97])))) = Some [1; 0].
Proof. repeat split; vm_compute; reflexivity. Qed.

End Reader.

(** ** Journaling archives as [add] lays them out, read back *)

Module Journal.

Import Reader.

Section Layout.

(** [libzpaq::SHA1], and whether [add] ran with [-fragile] (no checksums). *)
Variable SHA1 : list Z -> list Z.
Variable fragile : bool.

Definition checksum (data : list Z) : option (list Z) :=
  if fragile then None else Some (SHA1 data).

(** A data block of an update: the bytes its compressed form takes in
    the archive ([job.csize]), what it decompresses to, and hash and
    size of the fragments it holds. *)
Record data_block := mkData {
  d_len : Z;
  d_data : list Z;
  d_frags : list (list Z * Z)
}.

(** One update (transaction): its date, the length of its header block,
    its data blocks, the lengths of its fragment table blocks (one per
    data block) and its index blocks. *)
Record update := mkUpdate {
  u_date : Z;
  u_header_len : Z;
  u_data : list data_block;
  u_table_lens : list Z;
  u_index : list block
}.

Definition data_len (ds : list data_block) : Z :=
  foldr (fun d acc => d_len d + acc) 0 ds.


Definition frag_count (ds : list data_block) : Z :=
  foldr (fun d acc => vsize (d_frags d) + acc) 0 ds.

(** The payload of a fragment table block: [itob(csize)] and then
    [sha1[20] usize[4]] per fragment. *)
Definition tuple (f : list Z * Z) : list Z := f.1 ++ Bytes.itob f.2.
Definition table_payload (d : data_block) : list Z :=
  Bytes.itob (d_len d) ++ concat (map tuple (d_frags d)).

(** The d blocks, named by their first fragment ID. *)
Fixpoint data_blocks (date first : Z) (ds : list data_block) : list block :=
  match ds with
  | [] => []
  | d :: ds' =>
      mkBlock Kd date first (vsize (d_data d)) (d_data d) (checksum (d_data d))
              (d_len d)
      :: data_blocks date (first + vsize (d_frags d)) ds'
  end.

(** The h blocks, one per data block, with the same names. *)
Fixpoint table_blocks (date first : Z) (ds : list data_block) (lens : list Z)
  : list block :=
  match ds, lens with
  | d :: ds', l :: lens' =>
      mkBlock Kh date first (vsize (table_payload d)) (table_payload d)
              (checksum (table_payload d)) l
      :: table_blocks date (first + vsize (d_frags d)) ds' lens'
  | _, _ => []
  end.

(** The blocks of one update in the order [add] writes them: the header
    ([writeJidacHeader], payload = size of the data run), the data
    blocks ([job.write], written by [writeThread]), the fragment tables
    and the index. *)
Definition layout (first : Z) (u : update) : list block :=
  mkBlock Kc (u_date u) first 8 (Bytes.ltob (data_len (u_data u)))
          (checksum (Bytes.ltob (data_len (u_data u)))) (u_header_len u)
  :: data_blocks (u_date u) first (u_data u)
  ++ table_blocks (u_date u) first (u_data u) (u_table_lens u)
  ++ u_index u.

(** The archive after the updates [us], the first of them starting with
    fragment ID [first]. *)
Fixpoint archive (first : Z) (us : list update) : list block :=
  match us with
  | [] => []
  | u :: us' => layout first u ++ archive (first + frag_count (u_data u)) us'
  end.

(** What [add] guarantees of the parts of an update. *)
Record wf_data (d : data_block) : Prop := {
  wf_len : 0 < d_len d < 2 ^ 31;
  wf_some : d_frags d <> [];
  wf_count : vsize (d_frags d) < 2 ^ 31;
  wf_frag : Forall (fun f => length f.1 = 20%nat /\ 0 <= f.2 < 2 ^ 31) (d_frags d)
}.

Record wf_update (u : update) : Prop := {
  wf_date : valid_fdate (u_date u) = true;
  wf_header : 0 < u_header_len u;
  wf_blocks : Forall wf_data (u_data u);
  wf_run : data_len (u_data u) < 2 ^ 62;
  wf_tables : length (u_table_lens u) = length (u_data u);
  wf_table_lens : Forall (fun l => 0 < l) (u_table_lens u);
  wf_index : Forall (fun b => b_kind b = Ki /\ 0 < b_len b) (u_index u)
}.

(** The entries that reading the table of a data block at offset [o]
    adds to [ht]: the first locator is [o], the following ones are -1,
    -2, ...; [i] is the position of the first fragment of [fs] in the
    block. *)
Fixpoint entries_from (i : Z) (o : Z) (fs : list (list Z * Z)) : list HT :=
  match fs with
  | [] => []
  | f :: fs' => mkHT f.1 f.2 (if i =? 0 then o else - i) :: entries_from (i + 1) o fs'
  end.





(** [-quiet] and [-until] of the reading run. *)
Variable verbose : bool.
Variable version : Z.

Local Abbreviation read_block := (Reader.read_block SHA1 verbose version).
Local Abbreviation walk := (Reader.walk SHA1 verbose version).
Local Abbreviation scan := (Reader.scan SHA1 verbose version).
Local Abbreviation read_archive := (Reader.read_archive SHA1 verbose version).

(** *** What the reader never undoes *)












Lemma read_tuples_any n : forall i num s doff h, exists h' dup,
  read_tuples n i num s doff h = (h', dup).
Proof. intros. destruct (read_tuples n i num s doff h); eauto. Qed.















(** *** The blocks of an update, one kind after the other *)

Lemma length_tuples fs :
  Forall (fun f : list Z * Z => length f.1 = 20%nat /\ 0 <= f.2 < 2 ^ 31) fs ->
  length (concat (map tuple fs)) = (24 * length fs)%nat.
Proof.
  induction 1 as [|f fs [Hf _] _ IH]; [reflexivity|].
  cbn [map concat length]. rewrite length_app, IH. unfold tuple.
  rewrite length_app, Hf, Bytes.length_itob. lia.
Qed.

Lemma grow_one (h : list HT) : grow h (vsize h) = h ++ [HT0].
Proof.
  unfold grow, vsize.
  replace (Z.to_nat (Z.of_nat (length h) + 1) - length h)%nat with 1%nat by lia.
  reflexivity.
Qed.

Lemma alter_last {A} (f : A -> A) (l : list A) (x : A) :
  alter f (length l) (l ++ [x]) = l ++ [f x].
Proof.
  replace (length l) with (length l + 0)%nat at 1 by lia.
  now rewrite alter_app_r.
Qed.

Lemma ht_at_last (l : list HT) (x : HT) : ht_at (l ++ [x]) (length l) = x.
Proof.
  unfold ht_at. rewrite lookup_app_r by lia.
  now rewrite Nat.sub_diag.
Qed.

(** The tuples of a table block, read into a table that ends just
    before the block's first fragment. *)
Lemma read_tuples_fresh fs : forall i num s doff (h : list HT),
  Forall (fun f : list Z * Z => length f.1 = 20%nat /\ 0 <= f.2 < 2 ^ 31) fs ->
  vsize h = num + i -> 0 <= i -> 0 <= num ->
  i + vsize fs < 2 ^ 31 -> num + i + vsize fs < 2 ^ 32 ->
  read_tuples (length fs) i num (concat (map tuple fs) ++ s) doff h
  = (h ++ entries_from i doff fs, false).
Proof.
  induction fs as [|f fs IH]; intros i num s doff h Hfs Hh Hi Hnum Hb1 Hb2.
  - cbn. now rewrite app_nil_r.
  - apply Forall_cons in Hfs as [[Hf1 Hf2] Hfs].
    unfold vsize in Hb1, Hb2. cbn [length] in Hb1, Hb2.
    cbn [length read_tuples map concat entries_from].
    rewrite (wrap_unsigned_small (num + i)) by lia.
    rewrite <- Hh, grow_one.
    replace (Z.to_nat (vsize h)) with (length h) by (unfold vsize; lia).
    rewrite !alter_last, ht_at_last.
    cbn [csize Add.set_sha1 Add.set_usize Add.set_csize sha1 usize HT0].
    change (HT_BAD =? HT_BAD) with true. cbn [negb].
    change (tuple f) with (f.1 ++ Bytes.itob f.2). rewrite <- !app_assoc.
    unfold Add.set_csize, Add.set_usize, Add.set_sha1.
    cbn [csize sha1 usize HT0].
    rewrite (take_app_length' (f.1) _ 20) by (symmetry; exact Hf1).
    rewrite (drop_app_length' (f.1) _ 20) by (symmetry; exact Hf1).
    rewrite Bytes.btoi_itob by lia.
    replace (drop 24 (f.1 ++ Bytes.itob f.2 ++ concat (map tuple fs) ++ s))
      with (concat (map tuple fs) ++ s).
    2:{ rewrite app_assoc. symmetry. apply drop_app_length'.
        rewrite length_app, Hf1, Bytes.length_itob. reflexivity. }
    rewrite (wrap_unsigned_small (i + 1)) by lia.
    replace (if i =? 0 then doff else wrap_int (- wrap_int i))
      with (if i =? 0 then doff else - i).
    2:{ destruct (i =? 0) eqn:E; [reflexivity|]. apply Z.eqb_neq in E.
        rewrite (wrap_int_small i) by lia. symmetry. apply wrap_int_small. lia. }
    rewrite IH; try assumption; try lia.
    + rewrite <- app_assoc. reflexivity.
    + unfold vsize. rewrite length_app. cbn. unfold vsize in Hh. lia.
    + unfold vsize. lia.
    + unfold vsize. lia.
Qed.

Lemma decompress_ok b st :
  pass st <> RECOVER -> b_usize b = vsize (b_data b) ->
  b_sha1 b = checksum (b_data b) ->
  decompress SHA1 b st = Some (b_data b).
Proof.
  intros Hp Hu Hc. unfold decompress.
  rewrite (bool_decide_eq_true_2 _ Hp). cbn [orb].
  rewrite Hu, Z.eqb_refl. cbn [negb]. rewrite Hc. unfold checksum.
  destruct fragile; [reflexivity|].
  unfold Index.same_hash. now rewrite bool_decide_eq_true_2.
Qed.


Lemma frag_count_nonneg ds : 0 <= frag_count ds.
Proof.
  unfold frag_count. induction ds as [|d ds IH]; cbn [foldr]; [lia|].
  assert (0 <= vsize (d_frags d)) by (unfold vsize; lia). lia.
Qed.



(** The table block of a data block, met in a clean state whose table
    ends just before the block's first fragment. *)
Lemma read_table_block date first d l off tell st :
  wf_data d -> pass st = NORMAL -> vsize (ht st) = first -> 0 < first ->
  first + vsize (d_frags d) < 2 ^ 32 ->
  0 <= data_offset st -> data_offset st + d_len d < 2 ^ 63 ->
  read_block (mkBlock Kh date first (vsize (table_payload d)) (table_payload d)
                      (checksum (table_payload d)) l) off tell st
  = (with_data_offset (data_offset st + d_len d)
       (with_ht (ht st ++ entries_from 0 (data_offset st) (d_frags d)) st),
     Continue 0).
Proof.
  intros [Hlen Hsome Hcount Hfrag] Hpass Hht Hfirst Hids Hoff Hoff'.
  unfold Reader.read_block.
  rewrite decompress_ok; [|rewrite Hpass; discriminate|reflexivity|reflexivity].
  cbv zeta. cbn [b_kind b_fdate b_num b_usize b_data b_sha1 b_len].
  rewrite (bool_decide_eq_false_2 (Kh = Kc)) by discriminate.
  rewrite (bool_decide_eq_true_2 (Kh = Kh)) by reflexivity.
  rewrite (bool_decide_eq_true_2 (pass st <> RECOVER)) by (rewrite Hpass; discriminate).
  cbn [andb].
  replace (0 <? first) with true by (symmetry; apply Z.ltb_lt; lia).
  pose proof (length_tuples _ Hfrag) as Hlt.
  assert (Hpl : length (table_payload d) = (4 + 24 * length (d_frags d))%nat).
  { unfold table_payload. rewrite length_app, Hlt. reflexivity. }
  replace (4 <=? length (table_payload d))%nat with true
    by (symmetry; apply Nat.leb_le; lia).
  cbn [andb]. unfold read_h. cbn [b_data b_num].
  rewrite Hht, Z.eqb_refl.
  assert (Hn : wrap_unsigned ((vsize (table_payload d) - 4) / 24)
               = vsize (d_frags d)).
  { unfold vsize. rewrite Hpl.
    replace (Z.of_nat (4 + 24 * length (d_frags d)) - 4)
      with (Z.of_nat (length (d_frags d)) * 24) by lia.
    rewrite Z.div_mul by lia. apply wrap_unsigned_small. unfold vsize in *. lia. }
  rewrite Hn. unfold vsize at 1. rewrite Nat2Z.id.
  assert (Hb : Bytes.btou (table_payload d) = d_len d).
  { unfold table_payload. apply Bytes.btou_itob. lia. }
  rewrite Hb.
  replace (drop 4 (table_payload d)) with (concat (map tuple (d_frags d)) ++ [])
    by (rewrite app_nil_r; reflexivity).
  rewrite read_tuples_fresh; try assumption; try lia.
  rewrite wrap_int64_small by lia. reflexivity.
Qed.









(** *** One update, and a run of updates *)












(** *** Where the data blocks are *)



















(** *** The passes *)




(** *** The fragment locator law *)


(** *** The fragment tables that [add] writes *)

(** "Append compressed fragment tables to archive": the loop over
    [ht[htsize..]] in [add], after the compressed sizes are filled in.
    [es] are the entries from [i] on, [buf] is the buffer and the result
    lists the blocks written, each with the number in its name and its
    payload. *)
Fixpoint emit_tables (es : list HT) (i : Z) (buf : list Z) (block_start : Z)
  : list (Z * list Z) :=
  match es with
  | [] => if 0 <? vsize buf then [(block_start, buf)] else []
  | e :: es' =>
      let write := (0 <? csize e) && (0 <? vsize buf) in
      let buf1 := if write then [] else buf in
      let buf2 := if csize e =? 0 then buf1 else buf1 ++ Bytes.itob (csize e) in
      (if write then [(block_start, buf)] else [])
      ++ emit_tables es' (wrap_unsigned (i + 1)) (buf2 ++ sha1 e ++ Bytes.itob (usize e))
                     (if csize e =? 0 then block_start else i)
  end.

(** The entries of a data block when [add] has filled in the compressed
    sizes: the size of the block at its first fragment and 0 at the
    others. *)
Definition block_entries (d : data_block) : list HT :=
  match d_frags d with
  | [] => []
  | f :: fs => mkHT f.1 f.2 (d_len d) :: map (fun f => mkHT f.1 f.2 0) fs
  end.

Fixpoint payloads_from (first : Z) (ds : list data_block) : list (Z * list Z) :=
  match ds with
  | [] => []
  | d :: ds' => (first, table_payload d) :: payloads_from (first + vsize (d_frags d)) ds'
  end.

Lemma emit_rest fs : forall es i buf block_start,
  0 <= i -> i + vsize fs < 2 ^ 32 ->
  emit_tables (map (fun f => mkHT f.1 f.2 0) fs ++ es) i buf block_start
  = emit_tables es (i + vsize fs) (buf ++ concat (map tuple fs)) block_start.
Proof.
  induction fs as [|f fs IH]; intros es i buf block_start Hi Hlt.
  - cbn. now rewrite Z.add_0_r, app_nil_r.
  - unfold vsize in *. cbn [length] in Hlt. rewrite Nat2Z.inj_succ in Hlt.
    cbn [map app emit_tables csize sha1 usize]. cbv zeta.
    cbn [Z.ltb Z.compare andb Z.eqb app].
    rewrite wrap_unsigned_small by lia.
    rewrite IH by lia. cbn [length map concat]. rewrite Nat2Z.inj_succ.
    unfold tuple at 2. rewrite <- !app_assoc. f_equal. lia.
Qed.

(** The loop writes one table per data block: named by the block's
    first fragment, holding the block's size and the hash and size of
    its fragments. *)
Lemma emit_tables_spec ds : forall first buf block_start,
  Forall wf_data ds -> 0 <= first -> first + frag_count ds < 2 ^ 32 ->
  emit_tables (concat (map block_entries ds)) first buf block_start
  = (if 0 <? vsize buf then [(block_start, buf)] else []) ++ payloads_from first ds.
Proof.
  induction ds as [|d ds IH]; intros first buf block_start Hwf Hfirst Hlt.
  - cbn. now rewrite app_nil_r.
  - apply Forall_cons in Hwf as [Hd Hwf].
    pose proof (frag_count_nonneg ds) as Hfc.
    change (frag_count (d :: ds)) with (vsize (d_frags d) + frag_count ds) in Hlt.
    destruct Hd as [Hlen Hsome Hcount Hfrag].
    cbn [map concat payloads_from]. unfold block_entries at 1. unfold table_payload.
    destruct (d_frags d) as [|f fs] eqn:Hfs; [contradiction|].
    assert (Hv : vsize (f :: fs) = 1 + vsize fs)
      by (unfold vsize; cbn [length]; lia).
    assert (Hfs0 : 0 <= vsize fs) by (unfold vsize; lia).
    rewrite Hv in *.
    cbn [app emit_tables csize sha1 usize]. cbv zeta.
    replace (0 <? d_len d) with true by (symmetry; apply Z.ltb_lt; lia).
    replace (d_len d =? 0) with false by (symmetry; apply Z.eqb_neq; lia).
    cbn [andb]. rewrite wrap_unsigned_small by lia.
    rewrite emit_rest by lia.
    rewrite IH; [|exact Hwf | lia | lia].
    replace (first + 1 + vsize fs) with (first + (1 + vsize fs)) by lia.
    assert (Hbuf : (if 0 <? vsize buf then [] else buf) = []).
    { destruct (0 <? vsize buf) eqn:His; [reflexivity|].
      apply Z.ltb_ge in His. unfold vsize in His.
      destruct buf; [reflexivity | cbn in His; lia]. }
    rewrite Hbuf. cbn [app map concat].
    rewrite <- !app_assoc.
    match goal with |- _ ++ (if 0 <? vsize ?l then _ else _) ++ _ = _ =>
      replace (0 <? vsize l) with true
        by (symmetry; apply Z.ltb_lt; unfold vsize;
            rewrite length_app, Bytes.length_itob; lia)
    end.
    unfold tuple. cbn [app]. rewrite <- ?app_assoc. reflexivity.
Qed.

(** They are the fragment tables of the layout. *)
Lemma payloads_layout date ds : forall first lens,
  length lens = length ds ->
  map (fun b => (b_num b, b_data b)) (table_blocks date first ds lens)
  = payloads_from first ds.
Proof.
  induction ds as [|d ds IH]; intros first [|l lens] Hl; try discriminate;
    [reflexivity|].
  cbn [table_blocks map payloads_from b_num b_data]. rewrite IH; [reflexivity|].
  cbn in Hl. lia.
Qed.

End Layout.

(** Two updates: the first adds a file of two fragments in one data
    block and records it in an index block, the second adds a block of
    one fragment. *)
Definition first_update : update :=
  mkUpdate 20250101000000 30
           [mkData 100 [1; 2; 3] [(replicate 20 1, 2); (replicate 20 2, 1)]]
           [50]
           [mkBlock Ki 20250101000000 1 26
                    (Bytes.ltob 20250101000000 ++ [97; 0] ++ Bytes.itob 0
                     ++ Bytes.itob 2 ++ Bytes.itob 1 ++ Bytes.itob 2)
                    None 60].

Definition second_update : update :=
  mkUpdate 20250102000000 30 [mkData 40 [4] [(replicate 20 3, 1)]] [45] [].

Definition two_updates : list block :=
  archive Add.toy_sha1 false 1 [first_update; second_update].

(** The table after reading them. *)
Definition two_updates_read : scanned :=
  Reader.read_archive Add.toy_sha1 true 9999999999999 two_updates (initial None).

Definition two_updates_state : state :=
  Eval vm_compute in
    match two_updates_read with
    | Returned _ st => st
    | _ => initial None
    end.

Example two_updates_table :
  map csize (ht two_updates_state) = [HT_BAD; 30; -1; 270].
Proof. vm_compute. reflexivity. Qed.

Lemma wf_two_updates : Forall wf_update [first_update; second_update].
Proof.
  assert (Hd : forall l data f fs,
             0 < l < 2 ^ 31 ->
             Forall (fun f => length f.1 = 20%nat /\ 0 <= f.2 < 2 ^ 31) (f :: fs) ->
             (length (f :: fs) < 10)%nat ->
             wf_data (mkData l data (f :: fs))).
  { intros l data f fs Hl Hf Hn. split; cbn [d_len d_frags];
      [exact Hl | discriminate | unfold vsize; lia | exact Hf]. }
  constructor; [|constructor; [|constructor]]; split;
    cbn [u_date u_header_len u_data u_table_lens u_index first_update second_update];
    try reflexivity; try lia.
  - constructor; [|constructor]. apply Hd; [lia| |cbn; lia].
    constructor; [|constructor; [|constructor]]; cbn; split; (reflexivity || lia).
  - constructor; [lia | constructor].
  - constructor; [|constructor]. cbn [b_kind b_len]. split; [reflexivity | lia].
  - constructor; [|constructor]. apply Hd; [lia| |cbn; lia].
    constructor; [|constructor]; cbn; split; (reflexivity || lia).
  - constructor; [lia | constructor].
  - constructor.
Qed.


(** *** Writing the fragment tables and reading them back *)

(** X5.  "Append compressed fragment tables to archive": when [add] has
    filled in the compressed sizes, so that the new entries of [ht] are,
    data block by data block, the block's size followed by zeros, the
    loop writes one table per data block and nothing else: the table is
    named by the ID of the block's first fragment and holds the block's
    compressed size in 4 bytes and then hash and size of each of the
    block's fragments. *)
Theorem fragment_tables_written (ds : list data_block) (first : Z) :
  Forall wf_data ds -> 0 <= first -> first + frag_count ds < 2 ^ 32 ->
  emit_tables (concat (map block_entries ds)) first [] 0 = payloads_from first ds.
Proof.
  intros Hwf Hfirst Hlt.
  exact (emit_tables_spec ds first [] 0 Hwf Hfirst Hlt).
Qed.

Lemma fragment_tables_written_witness :
  emit_tables (concat (map block_entries (u_data first_update))) 1 [] 0
  = [(1, Bytes.itob 100 ++ replicate 20 1 ++ Bytes.itob 2
                        ++ replicate 20 2 ++ Bytes.itob 1)].
Proof.
  pose proof wf_two_updates as Hwf. apply Forall_cons in Hwf as [Hwf _].
  rewrite (fragment_tables_written (u_data first_update) 1 (wf_blocks _ Hwf)
             ltac:(lia) ltac:(vm_compute; reflexivity)).
  vm_compute. reflexivity.
Defined.

(** X6.  When [read_archive], in a [NORMAL] pass, meets the table that
    [add] wrote for a data block and [ht] ends just before the block's
    first fragment, it appends one entry per fragment of the block, with
    the fragment's hash and size; the locator of the first is
    [data_offset], the offset of the data block, and the locators of the
    others are -1, -2, ...; and [data_offset] moves on by the size of
    the data block, to the next one. *)
Theorem fragment_table_read (SHA1 : list Z -> list Z) (fragile verbose : bool)
    (version date : Z) (d : data_block) (l off tell : Z) (st : state) :
  wf_data d -> pass st = NORMAL -> 0 < vsize (ht st) ->
  vsize (ht st) + vsize (d_frags d) < 2 ^ 32 ->
  0 <= data_offset st -> data_offset st + d_len d < 2 ^ 63 ->
  read_block SHA1 verbose version
             (mkBlock Kh date (vsize (ht st)) (vsize (table_payload d))
                      (table_payload d) (checksum SHA1 fragile (table_payload d)) l)
             off tell st
  = (with_data_offset (data_offset st + d_len d)
       (with_ht (ht st ++ entries_from 0 (data_offset st) (d_frags d)) st),
     Continue 0).
Proof.
  intros Hwf Hpass Hht Hids Hoff Hoff'.
  now apply read_table_block.
Qed.

Lemma fragment_table_read_witness :
  ht (read_block Add.toy_sha1 true 9999999999999
        (mkBlock Kh 20250101000000 1 52
                 (Bytes.itob 100 ++ replicate 20 1 ++ Bytes.itob 2
                                 ++ replicate 20 2 ++ Bytes.itob 1)
                 None 50)
        130 179 (with_data_offset 30 (initial None))).1
  = [HT0; mkHT (replicate 20 1) 2 30; mkHT (replicate 20 2) 1 (-1)].
Proof.
  pose proof wf_two_updates as Hwf. apply Forall_cons in Hwf as [Hwf _].
  pose proof (wf_blocks _ Hwf) as Hd. apply Forall_cons in Hd as [Hd _].
  pose proof (fragment_table_read Add.toy_sha1 true true 9999999999999
                20250101000000 _ 50 130 179 (with_data_offset 30 (initial None))
                Hd eq_refl ltac:(vm_compute; reflexivity)
                ltac:(vm_compute; reflexivity) ltac:(vm_compute; discriminate)
                ltac:(vm_compute; reflexivity)) as H.
  exact (f_equal (fun p : state * step => ht p.1) H).
Defined.

(** *** A fragment table that repeats an ID *)

(** X7.  When the first ID of a fragment table block is already in
    [ht] with a locator (so the table ends after it), [read_archive]
    reports "Unordered fragment tables", sets [pass] to [ERR] and throws
    "duplicate fragment ID" at the first tuple.  By then the hash of
    that entry has been overwritten with the hash of the tuple: of the
    entry only size and locator are what they were, and no other entry
    is touched. *)
Theorem duplicate_table (b : block) (st : state) :
  0 < b_num b -> b_num b < vsize (ht st) -> vsize (ht st) < 2 ^ 32 ->
  csize (ht_at (ht st) (Z.to_nat (b_num b))) <> HT_BAD ->
  (28 <= length (b_data b))%nat -> vsize (b_data b) < 2 ^ 32 ->
  let sh := take 20 (drop 4 (b_data b)) in
  read_h b st
  = (with_ht (alter (Add.set_sha1 sh) (Z.to_nat (b_num b)) (ht st))
             (with_pass ERR (say Unordered_fragment_tables st)),
     Throw) /\
  forall k : nat,
    usize (ht_at (ht (read_h b st).1) k) = usize (ht_at (ht st) k) /\
    csize (ht_at (ht (read_h b st).1) k) = csize (ht_at (ht st) k) /\
    (k <> Z.to_nat (b_num b) ->
     sha1 (ht_at (ht (read_h b st).1) k) = sha1 (ht_at (ht st) k)) /\
    (k = Z.to_nat (b_num b) -> sha1 (ht_at (ht (read_h b st).1) k) = sh).
Proof.
  intros Hnum Hin Hsize Hbad Hlen Hdata sh.
  assert (Hread : read_h b st
                  = (with_ht (alter (Add.set_sha1 sh) (Z.to_nat (b_num b)) (ht st))
                             (with_pass ERR (say Unordered_fragment_tables st)),
                     Throw)).
  { unfold read_h. cbv zeta.
    replace (vsize (ht st) =? b_num b) with false by (symmetry; apply Z.eqb_neq; lia).
    assert (Hn : exists n', Z.to_nat (wrap_unsigned ((vsize (b_data b) - 4) / 24)) = S n').
    { assert (1 <= (vsize (b_data b) - 4) / 24).
      { apply Z.div_le_lower_bound; unfold vsize; lia. }
      assert ((vsize (b_data b) - 4) / 24 < 2 ^ 32).
      { apply Z.div_lt_upper_bound; lia. }
      rewrite wrap_unsigned_small by lia.
      exists (Nat.pred (Z.to_nat ((vsize (b_data b) - 4) / 24))). lia. }
    destruct Hn as [n' ->]. cbn [read_tuples ht with_pass say data_offset].
    replace (wrap_unsigned (b_num b + 0)) with (b_num b)
      by (rewrite Z.add_0_r, wrap_unsigned_small; lia).
    rewrite grow_same by lia.
    assert (Hc : csize (ht_at (alter (Add.set_sha1 (take 20 (drop 4 (b_data b))))
                                     (Z.to_nat (b_num b)) (ht st))
                              (Z.to_nat (b_num b)))
                 = csize (ht_at (ht st) (Z.to_nat (b_num b)))).
    { unfold ht_at. rewrite list_lookup_alter_eq.
      destruct (ht st !! Z.to_nat (b_num b)); reflexivity. }
    rewrite Hc.
    replace (csize (ht_at (ht st) (Z.to_nat (b_num b))) =? HT_BAD) with false
      by (symmetry; apply Z.eqb_neq; exact Hbad).
    reflexivity. }
  split; [exact Hread|]. rewrite Hread. cbn [fst ht with_ht].
  intros k. unfold ht_at.
  assert (Hsome : is_Some (ht st !! Z.to_nat (b_num b))).
  { apply lookup_lt_is_Some. unfold vsize in Hin. lia. }
  destruct (decide (k = Z.to_nat (b_num b))) as [-> | Hne].
  - rewrite list_lookup_alter_eq. destruct Hsome as [e ->]. cbn.
    split; [reflexivity|]. split; [reflexivity|]. split; [congruence | reflexivity].
  - rewrite list_lookup_alter_ne by congruence.
    split; [reflexivity|]. split; [reflexivity|]. split; [reflexivity | congruence].
Qed.

Lemma duplicate_table_witness :
  sha1 (ht_at (ht (read_h (mkBlock Kh 20250102000000 1 28
                                  (Bytes.itob 5 ++ replicate 20 9 ++ Bytes.itob 7)
                                  None 40)
                          two_updates_state).1) 1)
  = replicate 20 9 /\
  sha1 (ht_at (ht two_updates_state) 1) = replicate 20 1.
Proof.
  split; [|reflexivity].
  destruct (duplicate_table (mkBlock Kh 20250102000000 1 28
                                     (Bytes.itob 5 ++ replicate 20 9 ++ Bytes.itob 7)
                                     None 40)
                            two_updates_state) as [_ H].
  - reflexivity.
  - reflexivity.
  - reflexivity.
  - vm_compute. discriminate.
  - cbn. lia.
  - reflexivity.
  - destruct (H 1%nat) as (_ & _ & _ & H1). now apply H1.
Defined.

End Journal.

(** ** The compression job queue ([CompressJob])

    The main thread of [add] fills the slots of the queue, one
    [compressThread] per slot compresses what its slot holds and
    [writeThread] writes the slot at the front.  The threads are modelled
    by their steps, taken in any order.  [Semaphore] is modelled as each
    of its two implementations has it, Pthreads and Windows; a thread of
    [compressThread] is named by the job number it takes under the
    mutex, the threads being alike otherwise. *)

Module Queue.

Local Open Scope nat_scope.

(** [string itos(int64_t x, int n=1)]: [x] in decimal with at least [n]
    digits.  The loop ends when [x] is 0 and [n <= 0]; an [int64_t] has
    at most 19 digits. *)
Fixpoint itos_loop (fuel : nat) (x n : Z) (r : string) : string :=
  match fuel with
  | O => r
  | S fuel' =>
      if ((x =? 0) && (n <=? 0))%Z then r
      else itos_loop fuel' (x ÷ 10) (n - 1)
                     (String (Ascii.ascii_of_nat (48 + Z.to_nat (Z.rem x 10))) r)
  end.

Definition itos (x n : Z) : string := itos_loop (20 + Z.to_nat n) x n "".

(** The arguments of one call of [CompressJob::write]. *)
Record request := mkRequest {
  r_in : list Z;
  r_filename : string;
  r_method : string;
  r_type : Z
}.

(** The call [add] makes when it flushes a block:
    [job.write(sb, "jDC"+itos(date, 14)+"d"+itos(first, 10), method, type)]. *)
Definition request_of (j : Add.cjob) : request :=
  mkRequest (Add.j_in j)
            ("jDC" +:+ itos (Add.j_date j) 14 +:+ "d" +:+ itos (Add.j_first j) 10)
            (Add.j_method j) (Add.j_type j).

(** [job.write(sb, 0, "")], with [sb] empty: "signal end of input". *)
Definition end_of_input : request := mkRequest [] "" "" (-1).

Definition is_end (m : string) : bool := String.eqb m "".
Arguments is_end : simpl never.

(** *** [Semaphore]

    The class has two implementations, chosen by [#ifdef PTHREAD];
    [pthread] says which one is compiled.  The count is [n].

    With Pthreads, [wait] is [if (sem==0) pthread_cond_wait(&cv, &mutex);
    --sem;] under the mutex of the semaphore, [assert(sem>0)] being
    compiled out ([NDEBUG] is defined unless [DEBUG] is).  At count 0
    the thread sleeps in [pthread_cond_wait]; the call returns when
    [signal] has been called, and then the count is positive, or without
    that, which POSIX allows ("spurious wakeups ... may occur"): [woken]
    says that it does.  The test is an [if], not a loop, so the count is
    decremented whatever it is when the call returns; at a count other
    than 0 the thread does not sleep at all.  [signal] is [++sem;
    pthread_cond_signal(&cv)].  Each semaphore of the queue has one
    thread that waits on it, so a signal is never taken by another
    waiter.

    With Windows, [wait] is [WaitForSingleObject(h, INFINITE)], which
    returns when the count is positive and decrements it, and [signal]
    is [ReleaseSemaphore(h, 1, NULL)], which increments the count unless
    it is at [MAXCOUNT]. *)
Definition MAXCOUNT : Z := 2000000000.

(** The count after [wait()], or [None] while the thread has to wait. *)
Definition sem_wait (pthread woken : bool) (n : Z) : option Z :=
  if pthread then
    if (n =? 0)%Z && negb woken then None else Some (wrap_int (n - 1))
  else
    if (0 <? n)%Z then Some (n - 1)%Z else None.
Arguments sem_wait : simpl never.

(** The count after [signal()]. *)
Definition sem_signal (pthread : bool) (n : Z) : Z :=
  if pthread then wrap_int (n + 1)
  else if (n <? MAXCOUNT)%Z then (n + 1)%Z else n.
Arguments sem_signal : simpl never.

(** "Buffer queue element" *)
Inductive cj_state := EMPTY | FULL | COMPRESSING | COMPRESSED | WRITING.

Record CJ := mkCJ {
  state : cj_state;
  cj_in : list Z;
  cj_out : list Z;
  filename : string;
  method : string;
  type : Z;
  full : Z;            (* "1 if in is FULL of data ready to compress" *)
  compressed : Z       (* "1 if out contains COMPRESSED data" *)
}.

(** [CJ(): state(EMPTY), type(512) {}], and [q[i].full.init(0);
    q[i].compressed.init(0)] in the constructor of [CompressJob]. *)
Definition CJ0 : CJ := mkCJ EMPTY [] [] "" "" 512 0 0.

(** Where each thread is.  A step is what a thread does between two
    points at which the other threads can see or change what it works
    on: a semaphore [wait], a section under [job.mutex], or work on the
    buffers of a slot ([compressBlock], [out->write]).  As long as every
    [wait] returns at a positive count, the state of a slot reserves
    its buffers for one thread at a time; after a [wait] that returned
    at count 0 two threads can be at work on the same buffers, which
    the steps then put in some order. *)
Inductive producer_pc :=
  | P_wait (k : nat) (r : request) (pending : list request)
      (* in [write], at [empty.wait()], [S k] iterations to go *)
  | P_fill (k : nat) (r : request) (pending : list request)
      (* past [empty.wait()], at [lock(mutex)] *)
  | P_join      (* at [join(tid[i])], [join(wid)] *)
  | P_done.

Inductive worker_pc :=
  | W_wait      (* at [cj.full.wait()] *)
  | W_lock      (* past it, at [lock(job.mutex)] *)
  | W_compress  (* at [compressBlock] *)
  | W_finish    (* past it, at [lock(job.mutex)] *)
  | W_done.     (* returned *)

Inductive writer_pc :=
  | Wr_top              (* at [CJ& cj=job.q[job.front]] *)
  | Wr_wait (i : nat)   (* at [cj.compressed.wait()], [cj] is [q[i]] *)
  | Wr_lock (i : nat)   (* past it, at [lock(job.mutex)] *)
  | Wr_write (i : nat) (outsize : Z)
                        (* at [job.out->write(cj.out.c_str(), outsize)] *)
  | Wr_finish (i : nat) (* past it, at [lock(job.mutex)] *)
  | Wr_done.            (* returned *)

(** The job, what was written to the archive and the threads. *)
Record sys := mkSys {
  q : list CJ;
  front : nat;
  empty : Z;                 (* "number of empty buffers ready to fill" *)
  written : list (list Z);   (* the bytes given to [out->write], call by call *)
  csize : list Z;            (* "compressed block sizes" *)
  prod : producer_pc;
  workers : list worker_pc;  (* by [jobNumber] *)
  writer : writer_pc
}.

Definition qsize (s : sys) : nat := length (q s).

Definition with_q (x : list CJ) (s : sys) : sys :=
  mkSys x (front s) (empty s) (written s) (csize s) (prod s) (workers s) (writer s).
Definition with_empty (x : Z) (s : sys) : sys :=
  mkSys (q s) (front s) x (written s) (csize s) (prod s) (workers s) (writer s).
Definition with_prod (x : producer_pc) (s : sys) : sys :=
  mkSys (q s) (front s) (empty s) (written s) (csize s) x (workers s) (writer s).
Definition with_worker (j : nat) (x : worker_pc) (s : sys) : sys :=
  mkSys (q s) (front s) (empty s) (written s) (csize s) (prod s)
        (<[j := x]> (workers s)) (writer s).
Definition with_writer (x : writer_pc) (s : sys) : sys :=
  mkSys (q s) (front s) (empty s) (written s) (csize s) (prod s) (workers s) x.
Definition with_slot (j : nat) (x : CJ) (s : sys) : sys :=
  with_q (<[j := x]> (q s)) s.

Section Threads.

(** What [compressBlock(&cj.in, &cj.out, cj.method, cj.filename, 0,
    cj.type)] appends to [out]; the codec is libzpaq's. *)
Variable compressBlock : list Z -> string -> string -> Z -> list Z.

(** Whether [PTHREAD] is defined (it is for [unix]; Windows threads are
    used otherwise). *)
Variable pthread : bool.

(** [for (unsigned k=(method=="")?qsize:1; k>0; --k)] *)
Definition iterations (qs : nat) (r : request) : nat :=
  if is_end (r_method r) then qs else 1.

(** [s] after [q[j].in.reset(); q[j].in.swap(s)]. *)
Definition swapped (r : request) : request :=
  mkRequest [] (r_filename r) (r_method r) (r_type r).

(** The main thread at its next call of [write], or at the joins when
    there is none left. *)
Fixpoint enter (qs : nat) (pending : list request) : producer_pc :=
  match pending with
  | [] => P_join
  | r :: pending' =>
      match iterations qs r with
      | O => enter qs pending'
      | S k => P_wait k r pending'
      end
  end.

(** [for (i=0; i<qsize; ++i) if (q[j=(i+front)%qsize].state==CJ::EMPTY)]:
    the slot found, from [i] on with [n] rounds to go. *)
Fixpoint find_empty (qv : list CJ) (fr i n : nat) : option nat :=
  match n with
  | O => None
  | S n' =>
      let j := (i + fr) mod length qv in
      match state <$> qv !! j with
      | Some EMPTY => Some j
      | _ => find_empty qv fr (S i) n'
      end
  end.

(** The body of the loop of [write] under the mutex, and what [s] is
    after it.  When no slot is empty nothing is queued and [s] keeps its
    bytes ([assert(i<qsize)] is compiled out). *)
Definition fill (r : request) (s : sys) : sys * request :=
  match find_empty (q s) (front s) 0 (qsize s) with
  | Some j =>
      match q s !! j with
      | Some cj =>
          (with_slot j (mkCJ FULL (r_in r) (cj_out cj) (r_filename r) (r_method r)
                             (r_type r) (sem_signal pthread (full cj))
                             (compressed cj)) s,
           swapped r)
      | None => (s, r)
      end
  | None => (s, r)
  end.

Definition step_producer (woken : bool) (s : sys) : option sys :=
  match prod s with
  | P_wait k r pending =>
      match sem_wait pthread woken (empty s) with
      | None => None
      | Some e => Some (with_prod (P_fill k r pending) (with_empty e s))
      end
  | P_fill k r pending =>
      let '(s', r') := fill r s in
      Some (with_prod (match k with
                       | O => enter (qsize s) pending
                       | S k' => P_wait k' r' pending
                       end) s')
  | P_join =>
      if forallb (fun w => match w with W_done => true | _ => false end) (workers s)
         && match writer s with Wr_done => true | _ => false end
      then Some (with_prod P_done s) else None
  | P_done => None
  end.

(** [compressThread] with job number [j]. *)
Definition step_worker (woken : bool) (j : nat) (s : sys) : option sys :=
  match workers s !! j, q s !! j with
  | Some w, Some cj =>
      match w with
      | W_wait =>
          match sem_wait pthread woken (full cj) with
          | None => None
          | Some f =>
              Some (with_worker j W_lock
                      (with_slot j (mkCJ (state cj) (cj_in cj) (cj_out cj) (filename cj)
                                         (method cj) (type cj) f (compressed cj)) s))
          end
      | W_lock =>
          if is_end (method cj) then
            Some (with_worker j W_done
                    (with_slot j (mkCJ (state cj) (cj_in cj) (cj_out cj) (filename cj)
                                       (method cj) (type cj) (full cj)
                                       (sem_signal pthread (compressed cj))) s))
          else
            Some (with_worker j W_compress
                    (with_slot j (mkCJ COMPRESSING (cj_in cj) (cj_out cj) (filename cj)
                                       (method cj) (type cj) (full cj)
                                       (compressed cj)) s))
      | W_compress =>
          Some (with_worker j W_finish
                  (with_slot j (mkCJ (state cj) (cj_in cj)
                                     (cj_out cj ++ compressBlock (cj_in cj) (method cj)
                                                                 (filename cj) (type cj))
                                     (filename cj) (method cj) (type cj) (full cj)
                                     (compressed cj)) s))
      | W_finish =>
          Some (with_worker j W_wait
                  (with_slot j (mkCJ COMPRESSED [] (cj_out cj) (filename cj)
                                     (method cj) (type cj) (full cj)
                                     (sem_signal pthread (compressed cj))) s))
      | W_done => None
      end
  | _, _ => None
  end.

(** The end of the loop of [writeThread]: [cj.state=CJ::EMPTY;
    cj.out.reset(); job.front=(job.front+1)%job.qsize;
    job.empty.signal()]. *)
Definition release (i : nat) (cj : CJ) (s : sys) : sys :=
  let s := with_slot i (mkCJ EMPTY (cj_in cj) [] (filename cj) (method cj) (type cj)
                             (full cj) (compressed cj)) s in
  mkSys (q s) ((front s + 1) mod qsize s) (sem_signal pthread (empty s))
        (written s) (csize s) (prod s) (workers s) Wr_top.

(** [int outsize=cj.out.size()] *)
Definition outsize (cj : CJ) : Z := wrap_int (vsize (cj_out cj)).

Definition step_writer (woken : bool) (s : sys) : option sys :=
  match writer s with
  | Wr_top => Some (with_writer (Wr_wait (front s)) s)
  | Wr_wait i =>
      match q s !! i with
      | Some cj =>
          match sem_wait pthread woken (compressed cj) with
          | None => None
          | Some c =>
              Some (with_writer (Wr_lock i)
                      (with_slot i (mkCJ (state cj) (cj_in cj) (cj_out cj) (filename cj)
                                         (method cj) (type cj) (full cj) c) s))
          end
      | None => None
      end
  | Wr_lock i =>
      match q s !! i with
      | Some cj =>
          if is_end (method cj) then Some (with_writer Wr_done s)
          else
            let cj := mkCJ WRITING (cj_in cj) (cj_out cj) (filename cj) (method cj)
                           (type cj) (full cj) (compressed cj) in
            let s := mkSys (<[i := cj]> (q s)) (front s) (empty s) (written s)
                           (csize s ++ [outsize cj]) (prod s) (workers s) (writer s) in
            if (0 <? outsize cj)%Z then Some (with_writer (Wr_write i (outsize cj)) s)
            else Some (release i cj s)
      | None => None
      end
  | Wr_write i n =>
      match q s !! i with
      | Some cj =>
          Some (mkSys (q s) (front s) (empty s)
                      (written s ++ [take (Z.to_nat n) (cj_out cj)]) (csize s)
                      (prod s) (workers s) (Wr_finish i))
      | None => None
      end
  | Wr_finish i =>
      match q s !! i with
      | Some cj => Some (release i cj s)
      | None => None
      end
  | Wr_done => None
  end.

Inductive thread := Producer | Worker (j : nat) | Writer.

(** One step of thread [t], if it is not blocked and has not returned. *)
Definition step_thread (woken : bool) (t : thread) (s : sys) : option sys :=
  match t with
  | Producer => step_producer woken s
  | Worker j => step_worker woken j s
  | Writer => step_writer woken s
  end.

(** A turn of the schedule: thread [t] takes its next step if it can
    ([Run]), or takes it also from inside a [pthread_cond_wait] that no
    [signal] has ended ([Wake]). *)
Inductive turn :=
  | Run (t : thread)
  | Wake (t : thread).

Definition step (tn : turn) (s : sys) : option sys :=
  match tn with
  | Run t => step_thread false t s
  | Wake t => step_thread true t s
  end.

(** The threads run in the order [sched]; a thread that cannot move when
    its turn comes lets the turn pass. *)
Fixpoint exec (sched : list turn) (s : sys) : sys :=
  match sched with
  | [] => s
  | tn :: sched' => exec sched' (default s (step tn s))
  end.

(** No [pthread_cond_wait] returns without a signal in [sched]; with
    Windows threads there is no such call. *)
Definition is_run (tn : turn) : bool :=
  match tn with Run _ => true | Wake _ => false end.

Definition regular (sched : list turn) : bool :=
  negb pthread || forallb is_run sched.

(** [CompressJob job(threads, outp)] with [threads] = [t], the threads
    started, and the main thread about to make the calls [calls] of
    [job.write].  ([empty.init(t)]: with Windows threads the semaphore
    can be created for [t <= MAXCOUNT] only.) *)
Definition start (t : nat) (calls : list request) : sys :=
  mkSys (replicate t CJ0) 0 (Z.of_nat t) [] [] (enter t calls)
        (replicate t W_wait) Wr_top.

(** The calls of [add]: one per block flushed, then the end of input. *)
Definition calls_of (jobs : list request) : list request := jobs ++ [end_of_input].

(** *** The semaphores when no wait returns at count 0 *)

Lemma sem_wait_0 : sem_wait pthread false 0 = None.
Proof. unfold sem_wait. now destruct pthread. Qed.

Lemma sem_wait_pos n :
  (0 < n <= MAXCOUNT)%Z -> sem_wait pthread false n = Some (n - 1)%Z.
Proof.
  intros Hn. unfold sem_wait, MAXCOUNT in *. destruct pthread.
  - replace (n =? 0)%Z with false by (symmetry; apply Z.eqb_neq; lia).
    cbn. now rewrite wrap_int_small by lia.
  - now replace (0 <? n)%Z with true by (symmetry; apply Z.ltb_lt; lia).
Qed.

Lemma sem_wait_1 : sem_wait pthread false 1 = Some 0%Z.
Proof. apply (sem_wait_pos 1). unfold MAXCOUNT. lia. Qed.

Lemma sem_signal_small n :
  (0 <= n < MAXCOUNT)%Z -> sem_signal pthread n = (n + 1)%Z.
Proof.
  intros Hn. unfold sem_signal, MAXCOUNT in *. destruct pthread.
  - now rewrite wrap_int_small by lia.
  - now replace (n <? 2000000000)%Z with true by (symmetry; apply Z.ltb_lt; lia).
Qed.

Lemma sem_signal_0 : sem_signal pthread 0 = 1%Z.
Proof. apply (sem_signal_small 0). unfold MAXCOUNT. lia. Qed.

(** With Windows threads [woken] makes no difference, and neither does
    it in a turn that is a [Run]. *)
Lemma step_regular tn s :
  negb pthread || is_run tn = true ->
  step tn s = step_thread false match tn with Run t | Wake t => t end s.
Proof.
  destruct tn as [t | t]; [reflexivity|]. cbn [is_run]. rewrite orb_false_r.
  intros Hp. apply negb_true_iff in Hp.
  destruct t as [|j|]; cbn [step step_thread];
    unfold step_producer, step_worker, step_writer, sem_wait; now rewrite Hp.
Qed.

(** *** What the queue holds *)

(** The slots are filled one at a time; [expand] lists, for the calls
    of [write], what each filling puts into its slot. *)
Definition expand1 (qs : nat) (r : request) : list request :=
  match iterations qs r with
  | O => []
  | S k => r :: replicate k (swapped r)
  end.

Definition expand (qs : nat) (calls : list request) : list request :=
  concat (map (expand1 qs) calls).

(** The fillings that the main thread has still to do. *)
Definition todo (qs : nat) (pc : producer_pc) : list request :=
  match pc with
  | P_wait k r pending | P_fill k r pending =>
      r :: replicate k (swapped r) ++ expand qs pending
  | P_join | P_done => []
  end.

Definition out_of (r : request) : list Z :=
  compressBlock (r_in r) (r_method r) (r_filename r) (r_type r).

Definition slot (r : request) (st : cj_state) (i o : list Z) (f c : Z) : CJ :=
  mkCJ st i o (r_filename r) (r_method r) (r_type r) f c.

(** The writer has not taken the buffer at the front. *)
Definition idle (wr : writer_pc) : Prop :=
  match wr with
  | Wr_top | Wr_wait _ => True
  | _ => False
  end.

(** Slot [j] with its worker, holding the filling [r]; [wr] is where the
    writer is if the slot is at the front, and [Wr_top] if it is not. *)
Inductive occupied (r : request) (j : nat) : writer_pc -> worker_pc -> CJ -> Prop :=
  | o_filled wr :
      idle wr -> occupied r j wr W_wait (slot r FULL (r_in r) [] 1 0)
  | o_taken wr :
      idle wr -> occupied r j wr W_lock (slot r FULL (r_in r) [] 0 0)
  | o_compressing wr :
      idle wr -> is_end (r_method r) = false ->
      occupied r j wr W_compress (slot r COMPRESSING (r_in r) [] 0 0)
  | o_finishing wr :
      idle wr -> is_end (r_method r) = false ->
      occupied r j wr W_finish (slot r COMPRESSING (r_in r) (out_of r) 0 0)
  | o_ready wr :
      idle wr -> is_end (r_method r) = false ->
      occupied r j wr W_wait (slot r COMPRESSED [] (out_of r) 0 1)
  | o_claimed :
      is_end (r_method r) = false ->
      occupied r j (Wr_lock j) W_wait (slot r COMPRESSED [] (out_of r) 0 0)
  | o_writing :
      is_end (r_method r) = false ->
      (0 <? wrap_int (vsize (out_of r)))%Z = true ->
      occupied r j (Wr_write j (wrap_int (vsize (out_of r)))) W_wait
               (slot r WRITING [] (out_of r) 0 0)
  | o_written :
      is_end (r_method r) = false ->
      (0 <? wrap_int (vsize (out_of r)))%Z = true ->
      occupied r j (Wr_finish j) W_wait (slot r WRITING [] (out_of r) 0 0)
  | o_ended wr :
      idle wr -> is_end (r_method r) = true ->
      occupied r j wr W_done (slot r FULL (r_in r) [] 0 1)
  | o_end_claimed :
      is_end (r_method r) = true ->
      occupied r j (Wr_lock j) W_done (slot r FULL (r_in r) [] 0 0)
  | o_end_seen :
      is_end (r_method r) = true ->
      occupied r j Wr_done W_done (slot r FULL (r_in r) [] 0 0).

(** A slot that holds nothing. *)
Definition vacant (w : worker_pc) (cj : CJ) : Prop :=
  w = W_wait /\ state cj = EMPTY /\ cj_out cj = [] /\ full cj = 0%Z /\
  compressed cj = 0%Z.

Section Invariant.

(** The number of slots and workers, and the fillings of the whole run. *)
Variable T : nat.
Hypothesis T_pos : 0 < T.
Hypothesis T_max : (Z.of_nat T <= MAXCOUNT)%Z.
Variable fills : list request.

Definition seen (idx done : nat) (wr : writer_pc) : writer_pc :=
  if decide (idx = done) then wr else Wr_top.

(** Filling number [idx] goes to slot [idx mod T].  With [done] slots
    released and [enq] filled, the fillings [done .. enq-1] are in their
    slots and the other slots are vacant. *)
Definition described (done enq : nat) (wr : writer_pc) (idx : nat)
    (w : worker_pc) (cj : CJ) : Prop :=
  (idx < enq /\ exists r, fills !! idx = Some r /\
                          occupied r (idx mod T) (seen idx done wr) w cj)
  \/ (enq <= idx /\ vacant w cj).

Definition slots (done enq : nat) (wr : writer_pc) (qv : list CJ)
    (ws : list worker_pc) : Prop :=
  forall idx, done <= idx < done + T ->
    exists cj w, qv !! (idx mod T) = Some cj /\ ws !! (idx mod T) = Some w /\
                 described done enq wr idx w cj.

Definition writer_ok (done enq fr : nat) (wr : writer_pc) : Prop :=
  match wr with
  | Wr_top => True
  | Wr_wait i => i = fr
  | Wr_lock i | Wr_write i _ | Wr_finish i => i = fr /\ done < enq
  | Wr_done => done < enq
  end.

(** [if (outsize>0)], and the bytes of the buffer [o] that
    [out->write(cj.out.c_str(), outsize)] is given. *)
Definition positive (o : list Z) : bool := (0 <? wrap_int (vsize o))%Z.
Definition sent (o : list Z) : list Z := take (Z.to_nat (wrap_int (vsize o))) o.

(** How many fillings the writer has passed to [out->write], and how many
    it has entered in [csize]. *)
Definition passed (done : nat) (wr : writer_pc) : nat :=
  match wr with Wr_finish _ => S done | _ => done end.
Definition sized (done : nat) (wr : writer_pc) : nat :=
  match wr with Wr_write _ _ | Wr_finish _ => S done | _ => done end.

Definition filling (pc : producer_pc) : nat :=
  match pc with P_fill _ _ _ => 1 | _ => 0 end.

Record inv_at (done enq : nat) (s : sys) : Prop := {
  i_q : length (q s) = T;
  i_w : length (workers s) = T;
  i_front : front s = done mod T;
  i_le : done <= enq <= done + T;
  i_enq : enq <= length fills;
  i_empty : (empty s + Z.of_nat (filling (prod s) + enq) = Z.of_nat (done + T))%Z;
  i_free : (0 <= empty s)%Z;
  i_todo : fills = take enq fills ++ todo T (prod s);
  i_real : forall idx r, idx < done -> fills !! idx = Some r ->
                         is_end (r_method r) = false;
  i_slots : slots done enq (writer s) (q s) (workers s);
  i_writer : writer_ok done enq (front s) (writer s);
  i_written : written s
              = map sent (filter (fun o => positive o = true)
                                 (map out_of (take (passed done (writer s)) fills)));
  i_csize : csize s
            = map (fun o => wrap_int (vsize o))
                  (map out_of (take (sized done (writer s)) fills));
  i_joined : prod s = P_done -> writer s = Wr_done
}.

Definition inv (s : sys) : Prop := exists done enq, inv_at done enq s.

(** *** Slots and fillings *)

Lemma window_inj done a b :
  done <= a < done + T -> done <= b < done + T -> a mod T = b mod T -> a = b.
Proof.
  intros Ha Hb Hm.
  pose proof (Nat.div_mod_eq a T) as Ea. pose proof (Nat.div_mod_eq b T) as Eb.
  rewrite Hm in Ea.
  assert (a / T = b / T \/ a / T < b / T \/ b / T < a / T) as [E | [E | E]] by lia.
  - rewrite E in Ea. lia.
  - assert (T * (a / T) + T <= T * (b / T)) by nia.
    pose proof (Nat.mod_upper_bound b T). lia.
  - assert (T * (b / T) + T <= T * (a / T)) by nia.
    pose proof (Nat.mod_upper_bound b T). lia.
Qed.

Lemma window_cover done j :
  j < T -> exists idx, done <= idx < done + T /\ idx mod T = j.
Proof.
  intros Hj. pose proof (Nat.mod_upper_bound done T ltac:(lia)) as Hm.
  pose proof (Nat.div_mod_eq done T) as Ed.
  destruct (le_lt_dec (done mod T) j) as [Hle | Hlt].
  - exists (done + (j - done mod T)). split; [lia|].
    replace (done + (j - done mod T)) with (j + done / T * T) by lia.
    rewrite Nat.Div0.mod_add. now apply Nat.mod_small.
  - exists (done + (T + j - done mod T)). split; [lia|].
    replace (done + (T + j - done mod T)) with (j + (done / T + 1) * T) by lia.
    rewrite Nat.Div0.mod_add. now apply Nat.mod_small.
Qed.

Lemma mod_window done : (done + T) mod T = done mod T.
Proof.
  replace (done + T) with (done + 1 * T) by lia. apply Nat.Div0.mod_add.
Qed.

Lemma mod_next done : (done mod T + 1) mod T = (done + 1) mod T.
Proof. now rewrite Nat.Div0.add_mod_idemp_l. Qed.

Lemma mod_lt idx : idx mod T < T.
Proof. apply Nat.mod_upper_bound. lia. Qed.

Lemma occupied_idle r j wr wr' w cj :
  idle wr -> idle wr' -> occupied r j wr w cj -> occupied r j wr' w cj.
Proof.
  intros Hi Hi' H. inversion H; subst; try (now constructor); destruct Hi.
Qed.

Lemma occupied_busy r j w cj : occupied r j Wr_top w cj -> state cj <> EMPTY.
Proof. intros H. inversion H; subst; discriminate. Qed.

Lemma occupied_state r j wr w cj : occupied r j wr w cj -> state cj <> EMPTY.
Proof. intros H. inversion H; subst; discriminate. Qed.

Lemma seen_other idx done wr : idx <> done -> seen idx done wr = Wr_top.
Proof. intros H. unfold seen. now rewrite decide_False. Qed.

Lemma seen_front done wr : seen done done wr = wr.
Proof. unfold seen. now rewrite decide_True. Qed.

(** One slot and its worker change, as described; the writer moves only
    if the slot is at the front. *)
Lemma slots_put done enq wr wr' qv ws idx0 cj' w' :
  length qv = T -> length ws = T ->
  slots done enq wr qv ws -> done <= idx0 < done + T ->
  described done enq wr' idx0 w' cj' ->
  wr' = wr \/ idx0 = done ->
  slots done enq wr' (<[idx0 mod T := cj']> qv) (<[idx0 mod T := w']> ws).
Proof.
  intros Hq Hw Hs H0 Hd Hwr idx Hidx.
  destruct (decide (idx = idx0)) as [-> | Hne].
  - exists cj', w'. pose proof (mod_lt idx0).
    rewrite !list_lookup_insert_eq by lia. auto.
  - destruct (Hs idx Hidx) as (cj & w & Hqj & Hwj & Hdesc).
    assert (idx0 mod T <> idx mod T)
      by (intros E; apply Hne; symmetry; eapply window_inj; eassumption).
    exists cj, w. rewrite !list_lookup_insert_ne by assumption.
    split; [exact Hqj|]. split; [exact Hwj|].
    destruct Hwr as [-> | ->]; [exact Hdesc|].
    unfold described in *. now rewrite seen_other in * by exact Hne.
Qed.

(** The writer moves and no slot changes. *)
Lemma slots_writer done enq wr wr' qv ws :
  slots done enq wr qv ws ->
  (forall w cj, described done enq wr done w cj -> described done enq wr' done w cj) ->
  slots done enq wr' qv ws.
Proof.
  intros Hs Hd idx Hidx. destruct (Hs idx Hidx) as (cj & w & Hqj & Hwj & Hdesc).
  exists cj, w. split; [exact Hqj|]. split; [exact Hwj|].
  destruct (decide (idx = done)) as [-> | Hne]; [now apply Hd|].
  unfold described in *. now rewrite seen_other in * by exact Hne.
Qed.

(** The writer releases the slot at the front. *)
Lemma slots_release done enq wr qv ws cj' :
  length qv = T ->
  slots done enq wr qv ws -> enq <= done + T ->
  (forall w cj, qv !! (done mod T) = Some cj -> ws !! (done mod T) = Some w ->
                described done enq wr done w cj -> vacant w cj') ->
  slots (S done) enq Wr_top (<[done mod T := cj']> qv) ws.
Proof.
  intros Hq Hs Hle Hv idx Hidx.
  destruct (decide (idx = done + T)) as [-> | Hne].
  - destruct (Hs done ltac:(lia)) as (cj & w & Hqj & Hwj & Hdesc).
    exists cj', w. rewrite mod_window. pose proof (mod_lt done).
    rewrite list_lookup_insert_eq by lia.
    split; [reflexivity|]. split; [exact Hwj|].
    right. split; [lia|]. eapply Hv; eassumption.
  - destruct (Hs idx ltac:(lia)) as (cj & w & Hqj & Hwj & Hdesc).
    assert (done mod T <> idx mod T).
    { intros E. assert (done = idx) by (apply (window_inj done); [lia | lia | exact E]). lia. }
    exists cj, w. rewrite list_lookup_insert_ne by assumption.
    split; [exact Hqj|]. split; [exact Hwj|].
    unfold described in *. rewrite seen_other in Hdesc by lia.
    destruct Hdesc as [[Hlt (r & Hr & Ho)] | Hvac]; [left | now right].
    split; [exact Hlt|]. exists r. split; [exact Hr|].
    unfold seen. destruct (decide (idx = S done)); exact Ho.
Qed.

(** The main thread fills the first vacant slot. *)
Lemma slots_fill done enq wr qv ws r :
  length qv = T -> length ws = T ->
  slots done enq wr qv ws -> done <= enq < done + T ->
  fills !! enq = Some r -> (enq = done -> idle wr) ->
  exists cj,
    qv !! (enq mod T) = Some cj /\ state cj = EMPTY /\
    slots done (S enq) wr
          (<[enq mod T := mkCJ FULL (r_in r) (cj_out cj) (r_filename r) (r_method r)
                               (r_type r) (sem_signal pthread (full cj))
                               (compressed cj)]> qv) ws.
Proof.
  intros Hq Hw Hs Hle Hr Hidle.
  destruct (Hs enq ltac:(lia)) as (cj & w & Hqj & Hwj & [[Hlt _] | [_ Hvac]]); [lia|].
  destruct Hvac as (-> & Hst & Hout & Hfull & Hcomp).
  exists cj. split; [exact Hqj|]. split; [exact Hst|].
  intros idx Hidx. destruct (decide (idx = enq)) as [-> | Hne].
  - eexists _, W_wait. pose proof (mod_lt enq).
    rewrite list_lookup_insert_eq by lia.
    split; [reflexivity|]. split; [exact Hwj|].
    left. split; [lia|]. exists r. split; [exact Hr|].
    rewrite Hout, Hfull, Hcomp, sem_signal_0. apply o_filled.
    unfold seen. destruct (decide (enq = done)); [auto | exact I].
  - destruct (Hs idx Hidx) as (cj1 & w1 & Hqj1 & Hwj1 & Hdesc).
    assert (enq mod T <> idx mod T).
    { intros E. apply Hne. symmetry. apply (window_inj done); [lia | lia | exact E]. }
    exists cj1, w1. rewrite list_lookup_insert_ne by assumption.
    split; [exact Hqj1|]. split; [exact Hwj1|].
    destruct Hdesc as [[Hlt Ho] | [Hge Hvac]]; [left | right]; split;
      try assumption; lia.
Qed.

(** The loop of [write] finds that slot. *)
Lemma find_empty_spec done enq wr qv ws :
  length qv = T -> slots done enq wr qv ws -> done <= enq < done + T ->
  forall n i, done + i <= enq -> i + n = T ->
    find_empty qv (done mod T) i n = Some (enq mod T).
Proof.
  intros Hq Hs Hle. induction n as [|n IH]; intros i Hi Hn; [lia|].
  cbn [find_empty]. cbv zeta. rewrite Hq.
  replace ((i + done mod T) mod T) with ((done + i) mod T)
    by (rewrite Nat.Div0.add_mod_idemp_r; f_equal; lia).
  destruct (Hs (done + i) ltac:(lia)) as (cj & w & Hqj & _ & Hdesc).
  rewrite Hqj. cbn [fmap option_fmap option_map].
  destruct Hdesc as [[Hlt (r & _ & Ho)] | [Hge Hvac]].
  - apply occupied_state in Ho.
    replace (find_empty qv (done mod T) (S i) n) with (Some (enq mod T))
      by (symmetry; apply IH; lia).
    destruct (state cj); [contradiction | reflexivity..].
  - destruct Hvac as (_ & -> & _). do 2 f_equal. lia.
Qed.

(** *** The steps keep the invariant *)

Lemma inv_worker_put done enq s idx w' cj' :
  inv_at done enq s -> done <= idx < done + T ->
  described done enq (writer s) idx w' cj' ->
  inv_at done enq (with_worker (idx mod T) w' (with_slot (idx mod T) cj' s)).
Proof.
  intros I Hidx Hd. destruct I.
  split; cbn; try assumption; try (now rewrite length_insert).
  apply slots_put with (wr := writer s); auto.
Qed.

Ltac redescribe Hdesc H :=
  let Hlt := fresh "Hlt" in
  let r := fresh "r" in
  let Hr := fresh "Hr" in
  let Ho := fresh "Ho" in
  let Hge := fresh "Hge" in
  let Hv := fresh "Hv" in
  let Hvw := fresh "Hvw" in
  let Hvs := fresh "Hvs" in
  let Hvo := fresh "Hvo" in
  let Hvf := fresh "Hvf" in
  let Hvc := fresh "Hvc" in
  destruct Hdesc as [[Hlt (r & Hr & Ho)] | [Hge Hv]];
  [ inversion Ho; subst; unfold slot in *; cbn in *
  | destruct Hv as (Hvw & Hvs & Hvo & Hvf & Hvc);
    try discriminate Hvw; rewrite ?Hvs, ?Hvf, ?Hvc in H ];
  rewrite ?sem_wait_0, ?sem_wait_1 in H;
  try discriminate H; try contradiction; try lia.

Ltac occupy r :=
  left; split; [assumption|]; exists r; split; [assumption|];
  rewrite ?sem_signal_0.

Lemma inv_worker done enq s j s' :
  inv_at done enq s -> step_worker false j s = Some s' -> inv_at done enq s'.
Proof.
  intros I H. unfold step_worker in H.
  destruct (workers s !! j) as [w|] eqn:Hwj; [|discriminate].
  destruct (q s !! j) as [cj|] eqn:Hqj; [|discriminate].
  assert (Hj : j < T).
  { apply lookup_lt_Some in Hqj. now rewrite (i_q _ _ _ I) in Hqj. }
  destruct (window_cover done j Hj) as (idx & Hidx & <-).
  destruct (i_slots _ _ _ I idx Hidx) as (cj0 & w0 & Hq0 & Hw0 & Hdesc).
  rewrite Hqj in Hq0. rewrite Hwj in Hw0.
  injection Hq0 as <-. injection Hw0 as <-.
  destruct w; [| | | |discriminate]; redescribe Hdesc H.
  - (* at [cj.full.wait()] *)
    injection H as <-. apply inv_worker_put; [exact I | exact Hidx |].
    occupy r. now apply o_taken.
  - (* the check for the end of input *)
    destruct (is_end (r_method r)) eqn:Hend; injection H as <-;
      (apply inv_worker_put; [exact I | exact Hidx |]); occupy r.
    + now apply o_ended.
    + now apply o_compressing.
  - (* [compressBlock] *)
    injection H as <-. apply inv_worker_put; [exact I | exact Hidx |].
    occupy r. now apply o_finishing.
  - (* the buffer is compressed *)
    injection H as <-. apply inv_worker_put; [exact I | exact Hidx |].
    occupy r. now apply o_ready.
Qed.

Definition written_to (n : nat) : list (list Z) :=
  map sent (filter (fun o => positive o = true) (map out_of (take n fills))).

Definition sizes_to (n : nat) : list Z :=
  map (fun o => wrap_int (vsize o)) (map out_of (take n fills)).

Lemma written_to_S n r :
  fills !! n = Some r ->
  written_to (S n)
  = written_to n ++ (if positive (out_of r) then [sent (out_of r)] else []).
Proof.
  intros Hr. unfold written_to.
  rewrite (take_S_r _ _ _ Hr), map_app, filter_app, map_app. f_equal.
  cbn [map]. destruct (positive (out_of r)) eqn:E.
  - now rewrite filter_cons_True.
  - rewrite filter_cons_False; [reflexivity | congruence].
Qed.

Lemma sizes_to_S n r :
  fills !! n = Some r ->
  sizes_to (S n) = sizes_to n ++ [wrap_int (vsize (out_of r))].
Proof.
  intros Hr. unfold sizes_to. now rewrite (take_S_r _ _ _ Hr), !map_app.
Qed.

(** The writer moves on at the front slot without releasing it. *)
Lemma inv_writer_put done enq s qv' cj' wr' written' csize' w :
  inv_at done enq s ->
  qv' = <[done mod T := cj']> (q s) ->
  workers s !! (done mod T) = Some w ->
  described done enq wr' done w cj' ->
  writer_ok done enq (front s) wr' ->
  written' = written_to (passed done wr') ->
  csize' = sizes_to (sized done wr') ->
  (prod s = P_done -> wr' = Wr_done) ->
  inv_at done enq (mkSys qv' (front s) (empty s) written' csize' (prod s)
                         (workers s) wr').
Proof.
  intros I -> Hw Hd Hok Hwr Hcs Hj. destruct I.
  split; cbn; try assumption; try (now rewrite length_insert).
  rewrite <- (list_insert_id (workers s) (done mod T) w Hw).
  apply slots_put with (wr := writer s); auto. lia.
Qed.

(** The writer releases the front slot, which held the filling [r]. *)
Lemma inv_release done enq s qv' cj' r written' csize' :
  inv_at done enq s -> done < enq ->
  fills !! done = Some r -> is_end (r_method r) = false ->
  qv' = <[done mod T := cj']> (q s) ->
  (forall w cj, q s !! (done mod T) = Some cj -> workers s !! (done mod T) = Some w ->
                described done enq (writer s) done w cj -> vacant w cj') ->
  written' = written_to (S done) ->
  csize' = sizes_to (S done) ->
  writer s <> Wr_done ->
  inv_at (S done) enq
         (mkSys qv' ((done mod T + 1) mod T) (sem_signal pthread (empty s))
                written' csize' (prod s) (workers s) Wr_top).
Proof.
  intros I Hlt Hr Hreal -> Hv Hwr Hcs Hnd. destruct I.
  rewrite sem_signal_small by lia.
  split; cbn; try assumption; try (now rewrite length_insert); try lia.
  - rewrite mod_next. f_equal. lia.
  - intros idx r0 Hidx Hr0. destruct (decide (idx = done)) as [-> | Hne].
    + congruence.
    + apply (i_real0 idx); [lia | exact Hr0].
  - apply slots_release with (wr := writer s); auto. lia.
  - intros Hp. now apply i_joined0 in Hp.
Qed.

Lemma inv_writer done enq s s' :
  inv_at done enq s -> step_writer false s = Some s' ->
  exists done', inv_at done' enq s'.
Proof.
  intros I H. unfold step_writer in H.
  pose proof (i_writer _ _ _ I) as Hok.
  pose proof (i_front _ _ _ I) as Hfr.
  pose proof (i_written _ _ _ I) as Hwr.
  pose proof (i_csize _ _ _ I) as Hcs.
  pose proof (i_joined _ _ _ I) as Hjoin.
  destruct (i_slots _ _ _ I done ltac:(lia)) as (cj & w & Hqj & Hwj & Hdesc).
  unfold described in Hdesc. rewrite seen_front in Hdesc.
  destruct (writer s) as [|i|i|i n|i|] eqn:Hw; cbn in Hok.
  - (* the writer looks at the front *)
    injection H as <-. exists done.
    eapply (inv_writer_put done enq s (q s) _ (Wr_wait (front s)));
      [exact I | symmetry; apply list_insert_id; eassumption | eassumption
      | | reflexivity | exact Hwr | exact Hcs | ].
    + unfold described. rewrite seen_front.
      destruct Hdesc as [[Hlt (r & Hr & Ho)] | Hv]; [left | now right].
      split; [exact Hlt|]. exists r. split; [exact Hr|].
      eapply occupied_idle; [| |exact Ho]; constructor.
    + intros Hp. now apply Hjoin in Hp.
  - (* [cj.compressed.wait()] *)
    rewrite Hfr in Hok. subst i. rewrite Hqj in H. exists done.
    redescribe Hdesc H; injection H as <-;
      (eapply (inv_writer_put done enq s _ _ (Wr_lock (done mod T)));
       [exact I | reflexivity | eassumption | | | exact Hwr | exact Hcs |]);
      try (split; [now rewrite Hfr | assumption]);
      try (intros Hp; now apply Hjoin in Hp);
      unfold described; rewrite seen_front; occupy r.
    + now apply o_claimed.
    + now apply o_end_claimed.
  - (* the check for the end of input, and [csize.push_back] *)
    rewrite Hfr in Hok. destruct Hok as [-> Hlt]. rewrite Hqj in H.
    redescribe Hdesc H.
    + match goal with He : is_end _ = _ |- _ => rewrite He in H end.
      cbn in H. unfold outsize in H. cbn in H.
      destruct (0 <? wrap_int (vsize (out_of r)))%Z eqn:Hpos; injection H as <-.
      * exists done.
        eapply (inv_writer_put done enq s _ _
                  (Wr_write (done mod T) (wrap_int (vsize (out_of r)))));
          [exact I | reflexivity | eassumption | | | | |].
        -- unfold described. rewrite seen_front. occupy r.
           now apply o_writing.
        -- split; [now rewrite Hfr | assumption].
        -- exact Hwr.
        -- cbn [sized]. rewrite (sizes_to_S _ _ Hr). now rewrite Hcs.
        -- intros Hp. now apply Hjoin in Hp.
      * exists (S done). unfold release, with_slot, with_q, qsize. cbn.
        rewrite !length_insert, (i_q _ _ _ I), Hfr.
        eapply (inv_release done enq s _ _ r); try eassumption.
        -- now rewrite list_insert_insert_eq.
        -- intros w0 cj0 Hq0 Hw0 _. rewrite Hwj in Hw0. injection Hw0 as <-.
           repeat split; reflexivity.
        -- rewrite (written_to_S _ _ Hr). unfold positive. rewrite Hpos.
           now rewrite app_nil_r.
        -- rewrite (sizes_to_S _ _ Hr). now rewrite Hcs.
        -- rewrite Hw. discriminate.
    + match goal with He : is_end _ = _ |- _ => rewrite He in H end.
      injection H as <-. exists done.
      eapply (inv_writer_put done enq s (q s) _ Wr_done);
        [exact I | symmetry; apply list_insert_id; eassumption | eassumption
        | | exact Hlt | exact Hwr | exact Hcs | reflexivity].
      unfold described. rewrite seen_front. occupy r. now apply o_end_seen.
  - (* [out->write] *)
    rewrite Hfr in Hok. destruct Hok as [-> Hlt]. rewrite Hqj in H.
    redescribe Hdesc H. injection H as <-. exists done.
    eapply (inv_writer_put done enq s (q s) _ (Wr_finish (done mod T)));
      [exact I | symmetry; apply list_insert_id; eassumption | eassumption
      | | | | exact Hcs | ].
    + unfold described. rewrite seen_front. occupy r.
      now apply o_written.
    + split; [now rewrite Hfr | assumption].
    + cbn [passed]. rewrite (written_to_S _ _ Hr). unfold positive.
      match goal with He : (0 <? _)%Z = true |- _ => rewrite He end.
      now rewrite Hwr.
    + intros Hp. now apply Hjoin in Hp.
  - (* the slot is released *)
    rewrite Hfr in Hok. destruct Hok as [-> Hlt]. rewrite Hqj in H.
    redescribe Hdesc H. injection H as <-. exists (S done).
    unfold release, with_slot, with_q, qsize. cbn.
    rewrite !length_insert, (i_q _ _ _ I), Hfr.
    eapply (inv_release done enq s _ _ r); try eassumption; try reflexivity.
    + intros w0 cj0 Hq0 Hw0 _. rewrite Hwj in Hw0. injection Hw0 as <-.
      repeat split; reflexivity.
    + rewrite Hw. discriminate.
  - discriminate.
Qed.

Lemma todo_enter pending : todo T (enter T pending) = expand T pending.
Proof.
  induction pending as [|r pending IH]; [reflexivity|].
  cbn [enter]. unfold expand. cbn [map concat]. unfold expand1 at 1.
  destruct (iterations T r); [exact IH | reflexivity].
Qed.

Lemma filling_enter pending : filling (enter T pending) = 0.
Proof.
  induction pending as [|r pending IH]; [reflexivity|].
  cbn [enter]. destruct (iterations T r); [exact IH | reflexivity].
Qed.

Lemma enter_not_done pending : enter T pending <> P_done.
Proof.
  induction pending as [|r pending IH]; [discriminate|].
  cbn [enter]. destruct (iterations T r); [exact IH | discriminate].
Qed.

Lemma inv_producer done enq s s' :
  inv_at done enq s -> step_producer false s = Some s' ->
  exists enq', inv_at done enq' s'.
Proof.
  intros I H. unfold step_producer in H.
  pose proof (i_empty _ _ _ I) as Hem. pose proof (i_free _ _ _ I) as Hfree.
  pose proof (i_le _ _ _ I) as Hle.
  destruct (prod s) as [k r pending | k r pending | |] eqn:Hp.
  - (* [empty.wait()] *)
    cbn [filling] in Hem.
    destruct (Z.eq_dec (empty s) 0) as [E | E];
      [rewrite E, sem_wait_0 in H; discriminate|].
    rewrite sem_wait_pos in H by lia. injection H as <-.
    exists enq. destruct I. rewrite Hp in *.
    split; cbn; try assumption; try lia. discriminate.
  - (* a slot is filled *)
    exists (S enq). cbn [filling] in Hem.
    pose proof (i_todo _ _ _ I) as Htodo. rewrite Hp in Htodo. cbn [todo] in Htodo.
    pose proof (i_enq _ _ _ I) as Henq.
    assert (Hr : fills !! enq = Some r).
    { rewrite Htodo. rewrite lookup_app_r by (rewrite length_take; lia).
      rewrite length_take. replace (enq - enq `min` length fills) with 0 by lia.
      reflexivity. }
    assert (Hidle : enq = done -> idle (writer s)).
    { intros ->. pose proof (i_writer _ _ _ I) as Hok.
      destruct (writer s); cbn in *; try exact Logic.I; lia. }
    destruct (slots_fill done enq (writer s) (q s) (workers s) r
                (i_q _ _ _ I) (i_w _ _ _ I) (i_slots _ _ _ I) ltac:(lia) Hr Hidle)
      as (cj & Hqj & Hst & Hslots).
    unfold fill, qsize in H. rewrite (i_q _ _ _ I), (i_front _ _ _ I) in H.
    rewrite (find_empty_spec done enq (writer s) (q s) (workers s)
               (i_q _ _ _ I) (i_slots _ _ _ I) ltac:(lia) T 0 ltac:(lia) ltac:(lia))
      in H.
    rewrite Hqj in H. injection H as <-.
    assert (Htake : fills = take (S enq) fills
                            ++ replicate k (swapped r) ++ expand T pending).
    { rewrite (take_S_r _ _ _ Hr), <- app_assoc. exact Htodo. }
    destruct I. split; cbn; try assumption; try (now rewrite length_insert);
      try lia.
    + now apply lookup_lt_Some in Hr.
    + destruct k; [rewrite filling_enter | cbn]; lia.
    + destruct k; [now rewrite todo_enter | exact Htake].
    + destruct (writer s); cbn in *; try assumption; lia.
    + destruct k; [intros E; now apply enter_not_done in E | discriminate].
  - (* the joins *)
    destruct (forallb _ _ && _) eqn:Hall; [|discriminate]. injection H as <-.
    exists enq. apply andb_prop in Hall as [_ Hwr].
    destruct I. rewrite Hp in *.
    split; cbn; try assumption. intros _. now destruct (writer s).
  - discriminate.
Qed.

Lemma inv_step t s s' : inv s -> step_thread false t s = Some s' -> inv s'.
Proof.
  intros (done & enq & I) H. destruct t as [|j|]; cbn [step_thread] in H.
  - destruct (inv_producer _ _ _ _ I H) as [enq' I']. now exists done, enq'.
  - exists done, enq. eapply inv_worker; eassumption.
  - destruct (inv_writer _ _ _ _ I H) as [done' I']. now exists done', enq.
Qed.

Lemma inv_exec sched : forall s,
  regular sched = true -> inv s -> inv (exec sched s).
Proof.
  unfold regular.
  induction sched as [|tn sched IH]; intros s Hreg I; [exact I|].
  assert (Htn : negb pthread || is_run tn = true)
    by (destruct pthread; [cbn in *; now apply andb_prop in Hreg | reflexivity]).
  assert (Hrest : negb pthread || forallb is_run sched = true)
    by (destruct pthread; [cbn in *; now apply andb_prop in Hreg | reflexivity]).
  cbn [exec]. apply IH; [exact Hrest|]. rewrite (step_regular tn s Htn).
  destruct (step_thread false _ s) as [s'|] eqn:H; [|exact I].
  eapply inv_step; eassumption.
Qed.

(** *** The run of [add] *)

Lemma inv_start calls : fills = expand T calls -> inv (start T calls).
Proof.
  intros Hf. exists 0, 0. split; cbn.
  - apply length_replicate.
  - apply length_replicate.
  - now rewrite Nat.Div0.mod_0_l.
  - lia.
  - lia.
  - rewrite filling_enter. lia.
  - lia.
  - now rewrite todo_enter.
  - intros idx r Hidx. lia.
  - intros idx Hidx. exists CJ0, W_wait. pose proof (mod_lt idx).
    split; [now apply lookup_replicate_2|].
    split; [now apply lookup_replicate_2|].
    right. split; [lia|]. repeat split; reflexivity.
  - exact Logic.I.
  - reflexivity.
  - reflexivity.
  - intros E. now apply enter_not_done in E.
Qed.

Definition real (r : request) : Prop := is_end (r_method r) = false.

Lemma expand_calls jobs :
  Forall real jobs -> expand T (calls_of jobs) = jobs ++ replicate T end_of_input.
Proof.
  intros Hreal. unfold calls_of, expand. rewrite map_app, concat_app. f_equal.
  - induction Hreal as [|r jobs Hr _ IH]; [reflexivity|].
    cbn [map concat]. rewrite IH. unfold expand1, iterations.
    unfold real in Hr. now rewrite Hr.
  - cbn. rewrite app_nil_r. unfold expand1, iterations. cbn.
    destruct T; [lia | reflexivity].
Qed.

Section Run.

Variable jobs : list request.
Hypothesis jobs_real : Forall real jobs.
Hypothesis fills_jobs : fills = jobs ++ replicate T end_of_input.

Lemma fills_job idx r :
  idx < length jobs -> fills !! idx = Some r -> real r.
Proof.
  intros Hidx Hr. rewrite fills_jobs, lookup_app_l in Hr by exact Hidx.
  rewrite Forall_lookup in jobs_real. eapply jobs_real, Hr.
Qed.

Lemma fills_end idx r :
  length jobs <= idx -> fills !! idx = Some r -> is_end (r_method r) = true.
Proof.
  intros Hidx Hr. rewrite fills_jobs, lookup_app_r in Hr by exact Hidx.
  apply lookup_replicate in Hr as [-> _]. reflexivity.
Qed.

Lemma fills_length : length fills = length jobs + T.
Proof. now rewrite fills_jobs, length_app, length_replicate. Qed.

(** What the writer has released are blocks, not the end of input. *)
Lemma released_jobs done enq s : inv_at done enq s -> done <= length jobs.
Proof.
  intros I. destruct (le_lt_dec done (length jobs)) as [H | H]; [exact H|].
  destruct (lookup_lt_is_Some_2 fills (length jobs)) as [r Hr];
    [rewrite fills_length; lia|].
  pose proof (i_real _ _ _ I _ _ H Hr) as Hreal.
  rewrite (fills_end _ _ (Nat.le_refl _) Hr) in Hreal. discriminate.
Qed.

Lemma passed_jobs done enq s :
  inv_at done enq s -> passed done (writer s) <= length jobs.
Proof.
  intros I. pose proof (released_jobs _ _ _ I) as Hd.
  pose proof (i_writer _ _ _ I) as Hok.
  destruct (i_slots _ _ _ I done ltac:(lia)) as (cj & w & _ & _ & Hdesc).
  unfold described in Hdesc. rewrite seen_front in Hdesc.
  destruct (writer s) eqn:Hw; cbn in *; try exact Hd.
  destruct Hdesc as [[Hlt (r & Hr & Ho)] | [Hge _]]; [|lia].
  inversion Ho; subst; try contradiction.
  destruct (le_lt_dec (length jobs) done) as [Hle | Hlt']; [|lia].
  match goal with He : is_end _ = false |- _ =>
    rewrite (fills_end _ _ Hle Hr) in He; discriminate He end.
Qed.

(** When the writer has returned, it has released all the blocks. *)
Lemma returned_jobs done enq s :
  inv_at done enq s -> writer s = Wr_done -> done = length jobs.
Proof.
  intros I Hw. pose proof (released_jobs _ _ _ I) as Hd.
  pose proof (i_writer _ _ _ I) as Hok. rewrite Hw in Hok. cbn in Hok.
  destruct (i_slots _ _ _ I done ltac:(lia)) as (cj & w & _ & _ & Hdesc).
  unfold described in Hdesc. rewrite seen_front, Hw in Hdesc.
  destruct Hdesc as [[Hlt (r & Hr & Ho)] | [Hge _]]; [|lia].
  inversion Ho; subst; try contradiction.
  destruct (le_lt_dec (length jobs) done) as [Hle | Hlt']; [lia|].
  pose proof (fills_job _ _ Hlt' Hr) as Hreal. unfold real in Hreal. congruence.
Qed.

Lemma written_to_jobs n :
  n <= length jobs ->
  exists rest,
    map sent (filter (fun o => positive o = true) (map out_of jobs))
    = written_to n ++ rest.
Proof.
  intros Hn. unfold written_to.
  exists (map sent (filter (fun o => positive o = true) (map out_of (drop n jobs)))).
  rewrite <- map_app, <- filter_app, <- map_app. do 3 f_equal.
  rewrite fills_jobs, take_app_le by exact Hn. now rewrite take_drop.
Qed.

Lemma take_jobs : take (length jobs) fills = jobs.
Proof. rewrite fills_jobs. apply take_app_length. Qed.

(** *** No run gets stuck *)

Lemma forallb_false {A} (f : A -> bool) (l : list A) :
  forallb f l = false -> exists j x, l !! j = Some x /\ f x = false.
Proof.
  induction l as [|a l IH]; [discriminate|]. cbn [forallb].
  destruct (f a) eqn:Ha.
  - intros H. destruct (IH H) as (j & x & Hj & Hx). now exists (S j), x.
  - intros _. now exists 0, a.
Qed.

(** When the main thread is at the joins, everything is queued. *)
Lemma joined_all done enq s :
  inv_at done enq s -> todo T (prod s) = [] -> enq = length jobs + T.
Proof.
  intros I Ht. pose proof (i_todo _ _ _ I) as Hf. rewrite Ht, app_nil_r in Hf.
  pose proof (i_enq _ _ _ I). apply (f_equal length) in Hf.
  rewrite length_take, fills_length in Hf. rewrite fills_length in *. lia.
Qed.

Lemma waiting_more done enq s k r pending :
  inv_at done enq s -> prod s = P_wait k r pending -> enq < length jobs + T.
Proof.
  intros I Hp. pose proof (i_todo _ _ _ I) as Hf. rewrite Hp in Hf. cbn [todo] in Hf.
  pose proof (i_enq _ _ _ I). apply (f_equal length) in Hf.
  rewrite length_app, length_take, fills_length in Hf. cbn [length] in Hf.
  rewrite fills_length in *. lia.
Qed.

Lemma progress done enq s :
  inv_at done enq s -> prod s <> P_done ->
  exists t s', step_thread false t s = Some s'.
Proof.
  intros I Hnd.
  destruct (step_producer false s) as [s'|] eqn:Hsp; [now exists Producer, s'|].
  destruct (step_writer false s) as [s'|] eqn:Hsw; [now exists Writer, s'|].
  pose proof (i_writer _ _ _ I) as Hok.
  pose proof (i_front _ _ _ I) as Hfr.
  pose proof (i_le _ _ _ I) as Hle.
  pose proof (i_empty _ _ _ I) as Hem.
  pose proof (i_free _ _ _ I) as Hfree.
  pose proof (released_jobs _ _ _ I) as Hrel.
  destruct (i_slots _ _ _ I done ltac:(lia)) as (cj & w & Hqj & Hwj & Hdesc).
  unfold described in Hdesc. rewrite seen_front in Hdesc.
  unfold step_writer in Hsw. unfold step_producer in Hsp.
  assert (Hwait : forall k r pending, prod s = P_wait k r pending ->
                                      (0 < empty s)%Z -> False).
  { intros k r pending Hp Hpos. rewrite Hp in Hsp, Hem. cbn [filling] in Hem.
    rewrite sem_wait_pos in Hsp by lia. discriminate. }
  destruct (writer s) as [|i|i|i n|i|] eqn:Hw; cbn in Hok.
  - discriminate.
  - (* the writer waits for the front slot: its worker can go on *)
    rewrite Hfr in Hok. subst i. rewrite Hqj in Hsw.
    exists (Worker (done mod T)). cbn [step_thread]. unfold step_worker.
    rewrite Hwj, Hqj.
    destruct Hdesc as [[Hlt (r & Hr & Ho)] | [Hge Hv]].
    + inversion Ho; subst; unfold slot in *; cbn in *;
        rewrite ?sem_wait_0, ?sem_wait_1 in *;
        try discriminate; try contradiction;
        try (eexists; reflexivity).
      destruct (is_end (r_method r)); eexists; reflexivity.
    + exfalso. assert (enq = done) as -> by lia.
      destruct (prod s) as [k r pending | k r pending | |] eqn:Hp.
      * apply (Hwait k r pending eq_refl). cbn [filling] in Hem. lia.
      * destruct (fill r s); discriminate.
      * pose proof (joined_all _ _ _ I) as Hall. rewrite Hp in Hall.
        specialize (Hall eq_refl). lia.
      * now apply Hnd.
  - rewrite Hfr in Hok. destruct Hok as [-> _]. rewrite Hqj in Hsw.
    cbv zeta in Hsw.
    destruct (is_end (method cj)); [discriminate|].
    destruct (0 <? _)%Z; discriminate.
  - rewrite Hfr in Hok. destruct Hok as [-> _]. rewrite Hqj in Hsw. discriminate.
  - rewrite Hfr in Hok. destruct Hok as [-> _]. rewrite Hqj in Hsw. discriminate.
  - (* the writer has returned: the workers see the end of input *)
    pose proof (returned_jobs _ _ _ I Hw) as Hdone.
    destruct (prod s) as [k r pending | k r pending | |] eqn:Hp.
    + exfalso. pose proof (waiting_more _ _ _ _ _ _ I Hp).
      apply (Hwait k r pending eq_refl). cbn [filling] in Hem. lia.
    + destruct (fill r s); discriminate.
    + pose proof (joined_all _ _ _ I) as Hall. rewrite Hp in Hall.
      specialize (Hall eq_refl).
      destruct (forallb _ (workers s)) eqn:Hfa; [discriminate|].
      apply forallb_false in Hfa as (j & wj & Hj & Hwd).
      assert (Hjt : j < T).
      { apply lookup_lt_Some in Hj. now rewrite (i_w _ _ _ I) in Hj. }
      destruct (window_cover done j Hjt) as (idx & Hidx & <-).
      destruct (i_slots _ _ _ I idx Hidx) as (cj1 & w1 & Hq1 & Hw1 & Hd1).
      rewrite Hj in Hw1. injection Hw1 as <-.
      exists (Worker (idx mod T)). cbn [step_thread]. unfold step_worker.
      rewrite Hj, Hq1.
      destruct Hd1 as [[Hlt (r & Hr & Ho)] | [Hge _]]; [|lia].
      pose proof (fills_end idx r ltac:(lia) Hr) as Hend.
      unfold seen in Ho. rewrite Hw in Ho.
      destruct (decide (idx = done));
        inversion Ho; subst; unfold slot in *; cbn in *;
        rewrite ?sem_wait_0, ?sem_wait_1 in *;
        try discriminate; try congruence; try contradiction;
        try (eexists; reflexivity);
        rewrite Hend; eexists; reflexivity.
    + now destruct Hnd.
Qed.

End Run.

End Invariant.

(** *** Every step is a step towards the end *)

Definition rank_p (pc : producer_pc) : nat :=
  match pc with
  | P_wait _ _ _ | P_join => 1
  | P_fill _ _ _ | P_done => 0
  end.

Definition rank_w (w : worker_pc) : nat :=
  match w with
  | W_wait | W_done => 0
  | W_lock => 9
  | W_compress => 8
  | W_finish => 7
  end.

Definition rank_wr (wr : writer_pc) : nat :=
  match wr with
  | Wr_top => 2
  | Wr_wait _ => 1
  | Wr_lock _ => 6
  | Wr_write _ _ => 5
  | Wr_finish _ => 4
  | Wr_done => 0
  end.

Definition rank_cj (cj : CJ) : nat :=
  10 * Z.to_nat (full cj) + 6 * Z.to_nat (compressed cj).

(** A bound on the steps that are left. *)
Definition potential (s : sys) : nat :=
  12 * length (todo (qsize s) (prod s)) + rank_p (prod s)
  + sum_list_with rank_w (workers s) + sum_list_with rank_cj (q s)
  + Z.to_nat (empty s) + rank_wr (writer s).

(** The counts of the semaphores are counts. *)
Definition in_range (n : Z) : Prop := (0 <= n <= MAXCOUNT)%Z.

Definition ranged (s : sys) : Prop :=
  in_range (empty s) /\
  forall j cj, q s !! j = Some cj -> in_range (full cj) /\ in_range (compressed cj).

Lemma wait_count n m :
  in_range n -> sem_wait pthread false n = Some m -> Z.to_nat n = S (Z.to_nat m).
Proof.
  unfold in_range. intros Hn H. destruct (Z.eq_dec n 0) as [-> | Hne].
  - rewrite sem_wait_0 in H. discriminate.
  - rewrite sem_wait_pos in H by lia. injection H as <-. lia.
Qed.

Lemma signal_count n :
  in_range n -> Z.to_nat (sem_signal pthread n) <= S (Z.to_nat n).
Proof.
  unfold in_range, sem_signal, MAXCOUNT. intros Hn. destruct pthread.
  - rewrite wrap_int_small by lia. lia.
  - destruct (n <? 2000000000)%Z; lia.
Qed.

Lemma inv_ranged (t : nat) (fills : list request) (s : sys) :
  0 < t -> (Z.of_nat t <= MAXCOUNT)%Z -> inv t fills s -> ranged s.
Proof.
  intros Ht Hmax (done & enq & I). split.
  - pose proof (i_empty _ _ _ _ _ I). pose proof (i_free _ _ _ _ _ I).
    pose proof (i_le _ _ _ _ _ I). unfold in_range. lia.
  - intros j cj Hq.
    assert (Hj : j < t).
    { apply lookup_lt_Some in Hq. now rewrite (i_q _ _ _ _ _ I) in Hq. }
    destruct (window_cover t Ht done j Hj) as (idx & Hidx & <-).
    destruct (i_slots _ _ _ _ _ I idx Hidx) as (cj0 & w0 & Hq0 & _ & Hdesc).
    rewrite Hq in Hq0. injection Hq0 as <-.
    unfold in_range, MAXCOUNT.
    destruct Hdesc as [[_ (r & _ & Ho)] | [_ (_ & _ & _ & Hf & Hc)]].
    + inversion Ho; subst; cbn; lia.
    + rewrite Hf, Hc. lia.
Qed.

Lemma sum_insert {A} (f : A -> nat) (l : list A) : forall j x y,
  l !! j = Some y ->
  sum_list_with f (<[j := x]> l) + f y = sum_list_with f l + f x.
Proof.
  induction l as [|a l IH]; intros j x y Hy; [discriminate|].
  destruct j as [|j].
  - injection Hy as ->.
    change (f x + sum_list_with f l + f y = f y + sum_list_with f l + f x). lia.
  - pose proof (IH j x y Hy) as H.
    change (f a + sum_list_with f (<[j := x]> l) + f y
            = f a + sum_list_with f l + f x). lia.
Qed.

Ltac fields :=
  unfold potential, qsize, release, with_worker, with_slot, with_q, with_prod,
    with_empty, with_writer in *;
  cbn [q workers prod empty writer front written csize todo length
       rank_p rank_w rank_wr] in *.

Lemma potential_worker j s s' :
  ranged s -> step_worker false j s = Some s' -> potential s' < potential s.
Proof.
  intros [_ Hrange]. unfold step_worker.
  destruct (workers s !! j) as [w|] eqn:Hw; [|discriminate].
  destruct (q s !! j) as [cj|] eqn:Hq; [|discriminate].
  destruct (Hrange j cj Hq) as [Hf Hc].
  pose proof (signal_count _ Hc) as Hsig.
  assert (Hsum : forall w' cj',
            potential (with_worker j w' (with_slot j cj' s)) + rank_w w + rank_cj cj
            = potential s + rank_w w' + rank_cj cj').
  { intros w' cj'. fields. rewrite length_insert.
    pose proof (sum_insert rank_w (workers s) j w' w Hw).
    pose proof (sum_insert rank_cj (q s) j cj' cj Hq). lia. }
  destruct w; [destruct (sem_wait pthread false (full cj)) as [f|] eqn:Hwait;
                 [apply (wait_count _ _ Hf) in Hwait | discriminate]
              |destruct (is_end (method cj))| | |discriminate];
    intros [= <-];
    match goal with |- potential (with_worker _ ?w' (with_slot _ ?cj' _)) < _ =>
      pose proof (Hsum w' cj') as Hs end;
    unfold rank_cj in Hs; cbn [full compressed rank_w] in Hs; lia.
Qed.

Lemma potential_producer s s' :
  ranged s -> step_producer false s = Some s' -> potential s' < potential s.
Proof.
  intros [Hem Hrange]. unfold step_producer.
  destruct (prod s) as [k r pending|k r pending| |] eqn:Hp.
  - destruct (sem_wait pthread false (empty s)) as [e|] eqn:He; [|discriminate].
    apply (wait_count _ _ Hem) in He. intros [= <-].
    fields. rewrite Hp. fields. lia.
  - destruct (fill r s) as [s1 r1] eqn:Hfill0. intros [= <-].
    assert (Hfill : length (q s1) = length (q s) /\
                    workers s1 = workers s /\
                    empty s1 = empty s /\
                    writer s1 = writer s /\
                    sum_list_with rank_cj (q s1)
                    <= sum_list_with rank_cj (q s) + 10).
    { unfold fill in Hfill0.
      destruct (find_empty _ _ _ _) as [j|];
        [|injection Hfill0 as <- <-; repeat split; lia].
      destruct (q s !! j) as [cj|] eqn:Hq;
        [|injection Hfill0 as <- <-; repeat split; lia].
      injection Hfill0 as <- <-.
      fields. rewrite length_insert. repeat split.
      pose proof (sum_insert rank_cj (q s) j
                    (mkCJ FULL (r_in r) (cj_out cj) (r_filename r) (r_method r)
                          (r_type r) (sem_signal pthread (full cj))
                          (compressed cj)) cj Hq) as Hs.
      pose proof (signal_count _ (proj1 (Hrange j cj Hq))).
      unfold rank_cj in *. cbn [full compressed] in Hs. lia. }
    destruct Hfill as (Hqs & Hws & Hem1 & Hwr & Hsum).
    fields. rewrite Hqs, Hws, Hem1, Hwr, Hp. fields.
    rewrite !length_app, length_replicate.
    destruct k as [|k].
    + rewrite todo_enter.
      assert (rank_p (enter (length (q s)) pending) <= 1)
        by (destruct (enter (length (q s)) pending); cbn; lia).
      cbn [length]. lia.
    + fields. rewrite !length_app, length_replicate. lia.
  - destruct (forallb _ _ && _); [|discriminate]. intros [= <-].
    fields. rewrite Hp. fields. lia.
  - discriminate.
Qed.

Lemma potential_writer s s' :
  ranged s -> step_writer false s = Some s' -> potential s' < potential s.
Proof.
  intros [Hem Hrange]. unfold step_writer.
  pose proof (signal_count _ Hem) as Hsig.
  assert (Hrel : forall i cj cj0 s0,
            q s0 !! i = Some cj0 -> rank_cj cj = rank_cj cj0 ->
            empty s0 = empty s ->
            potential (release i cj s0) + rank_wr (writer s0)
            <= potential s0 + 3).
  { intros i cj cj0 s0 Hq0 Hr He. fields. rewrite !length_insert, He.
    pose proof (sum_insert rank_cj (q s0) i
                  (mkCJ EMPTY (cj_in cj) [] (filename cj) (method cj) (type cj)
                        (full cj) (compressed cj)) cj0 Hq0) as Hs.
    unfold rank_cj in *. cbn [full compressed] in Hs. lia. }
  destruct (writer s) as [|i|i|i n|i|] eqn:Hw.
  - intros [= <-]. fields. rewrite Hw. fields. lia.
  - destruct (q s !! i) as [cj|] eqn:Hq; [|discriminate].
    destruct (sem_wait pthread false (compressed cj)) as [c|] eqn:Hc; [|discriminate].
    apply (wait_count _ _ (proj2 (Hrange i cj Hq))) in Hc. intros [= <-].
    fields. rewrite length_insert, Hw.
    pose proof (sum_insert rank_cj (q s) i
                  (mkCJ (state cj) (cj_in cj) (cj_out cj) (filename cj) (method cj)
                        (type cj) (full cj) c) cj Hq) as Hs.
    unfold rank_cj in *. cbn [full compressed] in Hs. fields. lia.
  - destruct (q s !! i) as [cj|] eqn:Hq; [|discriminate].
    destruct (is_end (method cj)).
    + intros [= <-]. fields. rewrite Hw. fields. lia.
    + cbv zeta.
      set (cj1 := mkCJ WRITING (cj_in cj) (cj_out cj) (filename cj) (method cj)
                       (type cj) (full cj) (compressed cj)).
      set (s1 := mkSys (<[i := cj1]> (q s)) (front s) (empty s) (written s)
                       (csize s ++ [outsize cj1]) (prod s) (workers s) (writer s)).
      assert (H1 : potential s1 = potential s).
      { unfold s1. fields. rewrite length_insert.
        pose proof (sum_insert rank_cj (q s) i cj1 cj Hq) as Hs.
        unfold rank_cj, cj1 in *. cbn [full compressed] in Hs. lia. }
      destruct (0 <? outsize cj1)%Z; intros [= <-].
      * rewrite <- H1. unfold s1. fields. rewrite Hw. fields. lia.
      * assert (Hq1 : q s1 !! i = Some cj1).
        { unfold s1. cbn [q]. apply list_lookup_insert_eq.
          now apply lookup_lt_Some in Hq. }
        pose proof (Hrel i cj1 cj1 s1 Hq1 eq_refl eq_refl) as Hr.
        replace (writer s1) with (Wr_lock i) in Hr by (now rewrite <- Hw).
        cbn [rank_wr] in Hr.
        match goal with |- potential ?x < _ =>
          replace (potential x) with (potential (release i cj1 s1)) by reflexivity
        end. lia.
  - destruct (q s !! i) as [cj|] eqn:Hq; [|discriminate]. intros [= <-].
    fields. rewrite Hw. fields. lia.
  - destruct (q s !! i) as [cj|] eqn:Hq; [|discriminate]. intros [= <-].
    pose proof (Hrel i cj cj s Hq eq_refl eq_refl) as Hr. rewrite Hw in Hr.
    cbn [rank_wr] in Hr. lia.
  - discriminate.
Qed.

Lemma step_potential t s s' :
  ranged s -> step_thread false t s = Some s' -> potential s' < potential s.
Proof.
  intros Hr. destruct t; cbn [step_thread];
    [now apply potential_producer | now apply potential_worker
    | now apply potential_writer].
Qed.

Lemma exec_app sched1 sched2 s :
  exec (sched1 ++ sched2) s = exec sched2 (exec sched1 s).
Proof.
  revert s. induction sched1 as [|t sched1 IH]; intros s; [reflexivity|].
  cbn [app exec]. apply IH.
Qed.

(** From every state of a run the threads can go on until the main
    thread is past the joins, no wait returning at count 0, and they
    cannot go on for ever. *)
Lemma completes (t : nat) (jobs : list request) :
  0 < t -> (Z.of_nat t <= MAXCOUNT)%Z -> Forall real jobs ->
  forall s, inv t (jobs ++ replicate t end_of_input) s ->
  exists ths : list thread, prod (exec (map Run ths) s) = P_done.
Proof.
  intros Ht Hmax Hreal s. remember (potential s) as n eqn:Hn. revert s Hn.
  induction n as [n IH] using lt_wf_ind. intros s -> Hinv.
  assert (prod s = P_done \/ prod s <> P_done) as [Hp | Hp]
    by (destruct (prod s); (now left) || (now right)).
  { now exists []. }
  pose proof (inv_ranged t _ s Ht Hmax Hinv) as Hr.
  destruct Hinv as (done & enq & I).
  destruct (progress t Ht Hmax _ jobs Hreal eq_refl done enq s I Hp)
    as (th & s' & Hstep).
  destruct (IH (potential s') (step_potential _ _ _ Hr Hstep) s' eq_refl)
    as [ths Hths].
  - eapply inv_step; [exact Ht | exact Hmax | | exact Hstep]. now exists done, enq.
  - exists (th :: ths). cbn [map exec step]. now rewrite Hstep.
Qed.

(** The blocks as they go to the archive, and their sizes. *)
Definition payloads (jobs : list request) : list (list Z) :=
  map sent (filter (fun o => positive o = true) (map out_of jobs)).

Definition sizes (jobs : list request) : list Z :=
  map (fun o => wrap_int (vsize o)) (map out_of jobs).

Lemma run_inv (t : nat) (jobs : list request) (sched : list turn) :
  0 < t -> (Z.of_nat t <= MAXCOUNT)%Z -> Forall real jobs ->
  regular sched = true ->
  inv t (jobs ++ replicate t end_of_input) (exec sched (start t (calls_of jobs))).
Proof.
  intros Ht Hmax Hreal Hreg. apply inv_exec; try assumption.
  apply inv_start; try assumption. symmetry. now apply expand_calls.
Qed.

Lemma run_written (t : nat) (jobs : list request) (sched : list turn) :
  0 < t -> (Z.of_nat t <= MAXCOUNT)%Z -> Forall real jobs ->
  regular sched = true ->
  let s := exec sched (start t (calls_of jobs)) in
  (exists rest, payloads jobs = written s ++ rest) /\
  (prod s = P_done -> written s = payloads jobs /\ csize s = sizes jobs).
Proof.
  intros Ht Hmax Hreal Hreg s.
  destruct (run_inv t jobs sched Ht Hmax Hreal Hreg) as (done & enq & I). fold s in I.
  split.
  - rewrite (i_written _ _ _ _ _ I).
    apply (written_to_jobs t _ jobs eq_refl).
    eapply passed_jobs; [exact Ht | reflexivity | exact I].
  - intros Hp. pose proof (i_joined _ _ _ _ _ I Hp) as Hw.
    assert (Hd : done = length jobs)
      by (eapply returned_jobs; [exact Ht | exact Hreal | reflexivity | exact I | exact Hw]).
    subst done.
    rewrite (i_written _ _ _ _ _ I), (i_csize _ _ _ _ _ I), Hw. cbn [passed sized].
    unfold payloads, sizes. now rewrite (take_jobs t _ jobs eq_refl).
Qed.

(** However the threads have run so far, the run can be completed. *)
Lemma run_completes (t : nat) (jobs : list request) (sched : list turn) :
  0 < t -> (Z.of_nat t <= MAXCOUNT)%Z -> Forall real jobs ->
  regular sched = true ->
  exists ths : list thread,
    prod (exec (sched ++ map Run ths) (start t (calls_of jobs))) = P_done.
Proof.
  intros Ht Hmax Hreal Hreg.
  destruct (completes t jobs Ht Hmax Hreal _ (run_inv t jobs sched Ht Hmax Hreal Hreg))
    as [ths H].
  exists ths. now rewrite exec_app.
Qed.

(** The steps that the threads take under a schedule: the turns at
    which the thread whose turn it is can move. *)
Fixpoint moves (sched : list turn) (s : sys) : nat :=
  match sched with
  | [] => 0
  | tn :: sched' =>
      match step tn s with
      | Some s' => S (moves sched' s')
      | None => moves sched' s
      end
  end.

Lemma moves_potential (t : nat) (fills : list request) (sched : list turn) :
  0 < t -> (Z.of_nat t <= MAXCOUNT)%Z ->
  forall s, regular sched = true -> inv t fills s ->
            moves sched s + potential (exec sched s) <= potential s.
Proof.
  intros Ht Hmax. unfold regular.
  induction sched as [|tn sched IH]; intros s Hreg I; cbn [moves exec]; [lia|].
  assert (Htn : negb pthread || is_run tn = true)
    by (destruct pthread; [cbn in *; now apply andb_prop in Hreg | reflexivity]).
  assert (Hrest : negb pthread || forallb is_run sched = true)
    by (destruct pthread; [cbn in *; now apply andb_prop in Hreg | reflexivity]).
  rewrite (step_regular tn s Htn).
  destruct (step_thread false _ s) as [s'|] eqn:Hs; cbn [default from_option id].
  - pose proof (step_potential _ _ _ (inv_ranged t fills s Ht Hmax I) Hs).
    assert (I' : inv t fills s') by (eapply inv_step; eassumption).
    specialize (IH s' Hrest I'). lia.
  - now apply IH.
Qed.

Lemma sum_replicate {A} (f : A -> nat) (n : nat) (x : A) :
  f x = 0 -> sum_list_with f (replicate n x) = 0.
Proof. intros Hx. induction n as [|n IH]; cbn; lia. Qed.

Lemma rank_enter qs pending : rank_p (enter qs pending) <= 1.
Proof.
  induction pending as [|r pending IH]; cbn [enter rank_p]; [lia|].
  destruct (iterations qs r); [exact IH | cbn; lia].
Qed.

End Threads.

(** Three blocks, a stand-in for the codec (the length of the name, then
    the bytes), and the threads taking turns. *)
Definition three_blocks : list request :=
  map request_of
      [Add.mkJob [1%Z] 20250101000000%Z 1%Z 1 "1" 0%Z;
       Add.mkJob [2%Z; 2%Z] 20250101000000%Z 2%Z 1 "1" 0%Z;
       Add.mkJob [3%Z] 20250101000000%Z 3%Z 2 "1" 0%Z].

Definition toy_compress (i : list Z) (m f : string) (ty : Z) : list Z :=
  Z.of_nat (String.length f) :: i.

Definition round_robin (t n : nat) : list turn :=
  concat (replicate n (map Run (Producer :: Writer :: map Worker (seq 0 t)))).

Example request_name :
  r_filename <$> head three_blocks = Some "jDC20250101000000d0000000001".
Proof. reflexivity. Qed.

(** *** A wait that returns at count 0 *)

(** One block, flushed by [add] with two compression threads. *)
Definition one_block : list request :=
  [request_of (Add.mkJob [1%Z] 20250101000000%Z 1%Z 1 "1" 0%Z)].

(** A run of the three threads and the main thread.  The main thread
    queues the block in slot 0.  [writeThread] is in
    [pthread_cond_wait] for slot 0, and the call returns though
    [compressThread] 0 has not signalled; [writeThread] takes the slot
    for compressed, enters size 0 in [csize], writes nothing, marks the
    slot [EMPTY] and moves [front] to slot 1.  The main thread queues
    the two ends of input, the first in slot 1, the second in slot 0
    over the block.  Both [compressThread]s see the end of input and
    return, [writeThread] sees it in slot 1 and returns, and the main
    thread joins them. *)
Definition lost_block_run : list turn :=
  [Run Producer; Run Producer;
   Run Writer; Wake Writer; Run Writer;
   Run Producer; Run Producer; Run Producer; Run Producer;
   Run (Worker 0); Run (Worker 0); Run (Worker 1); Run (Worker 1);
   Run Writer; Run Writer; Run Writer;
   Run Producer].

(** C10.  With Pthreads, [Semaphore::wait] tests the count with an
    [if] and decrements it when [pthread_cond_wait] returns, whatever
    the count is then.  In the run [lost_block_run], in which one call
    of [pthread_cond_wait] returns without a signal, [add] with two
    threads comes to the end of the compression job (all threads
    joined) with nothing passed to [out->write] and the size 0 entered
    in [csize] for the block, whatever the codec makes of the block:
    no slot holds compressed bytes.  The same turns with the Windows semaphore, and a run with Pthreads
    in which no wait returns at count 0, write the block ([28; 1] for
    the stand-in codec) and enter its size. *)
Theorem wakeup_loses_block
    (compressBlock : list Z -> string -> string -> Z -> list Z) :
  let s := exec compressBlock true lost_block_run (start 2 (calls_of one_block)) in
  (prod s = P_done /\ writer s = Wr_done /\ workers s = [W_done; W_done] /\
   written s = [] /\ csize s = [0%Z] /\ map cj_out (q s) = [[]; []]) /\
  (let s' := exec toy_compress false (lost_block_run ++ round_robin 2 10)
                  (start 2 (calls_of one_block)) in
   prod s' = P_done /\ written s' = [[28; 1]%Z] /\ csize s' = [2%Z]) /\
  (let s' := exec toy_compress true (round_robin 2 20)
                  (start 2 (calls_of one_block)) in
   prod s' = P_done /\ written s' = [[28; 1]%Z] /\ csize s' = [2%Z]) /\
  payloads toy_compress one_block = [[28; 1]%Z] /\
  sizes toy_compress one_block = [2%Z].
Proof. repeat split; vm_compute; reflexivity. Qed.

(** *** Runs in which every wait returns at a positive count *)

(** X26.  Let [add] flush the blocks [jobs] (each with a method that is
    not the empty string, which marks the end of input) and run with
    [t >= 1] compression threads, [t <= MAXCOUNT], the threads taking
    their steps in any order [sched], with the Windows semaphore or with
    Pthreads in a run in which no [pthread_cond_wait] returns without a
    signal.  At every moment the buffers that [writeThread] has passed
    to [out->write] are the first of the compressed blocks, in the order
    in which the main thread queued them; when the main thread is past
    the joins they are all of them, and [job.csize] holds their sizes.
    Neither depends on the number of threads or on the order of the
    steps: two complete runs with [t] and [t'] threads write the same.
    And every such run can be completed.  (A block that compresses to
    nothing is entered in [csize] with size 0 and not passed to
    [out->write]; of a buffer, [out->write] gets [int(out.size())]
    bytes.) *)
Theorem archive_order (compressBlock : list Z -> string -> string -> Z -> list Z)
    (pthread : bool) (jobs : list request) (t : nat) (sched : list turn) :
  0 < t -> (Z.of_nat t <= MAXCOUNT)%Z -> Forall real jobs ->
  regular pthread sched = true ->
  let s := exec compressBlock pthread sched (start t (calls_of jobs)) in
  (exists rest, payloads compressBlock jobs = written s ++ rest) /\
  (prod s = P_done ->
   written s = payloads compressBlock jobs /\ csize s = sizes compressBlock jobs) /\
  (forall (t' : nat) (sched' : list turn),
     0 < t' -> (Z.of_nat t' <= MAXCOUNT)%Z -> regular pthread sched' = true ->
     let s' := exec compressBlock pthread sched' (start t' (calls_of jobs)) in
     prod s = P_done -> prod s' = P_done ->
     written s' = written s /\ csize s' = csize s) /\
  (exists ths : list thread,
     prod (exec compressBlock pthread (sched ++ map Run ths) (start t (calls_of jobs)))
     = P_done).
Proof.
  intros Ht Hmax Hreal Hreg s.
  destruct (run_written compressBlock pthread t jobs sched Ht Hmax Hreal Hreg)
    as [Hpre Hall].
  split; [exact Hpre|]. split; [exact Hall|].
  split; [|now apply run_completes].
  intros t' sched' Ht' Hmax' Hreg' s' Hp Hp'.
  destruct (run_written compressBlock pthread t' jobs sched' Ht' Hmax' Hreal Hreg')
    as [_ Hall'].
  destruct (Hall Hp) as [E1 E2]. destruct (Hall' Hp') as [E1' E2'].
  split; [exact (eq_trans E1' (eq_sym E1)) | exact (eq_trans E2' (eq_sym E2))].
Qed.

Lemma archive_order_witness :
  prod (exec toy_compress true (round_robin 2 40) (start 2 (calls_of three_blocks)))
  = P_done /\
  written (exec toy_compress true (round_robin 2 40) (start 2 (calls_of three_blocks)))
  = [[28; 1]; [28; 2; 2]; [28; 3]]%Z /\
  csize (exec toy_compress true (round_robin 2 40) (start 2 (calls_of three_blocks)))
  = [2; 3; 2]%Z.
Proof.
  assert (Hp : prod (exec toy_compress true (round_robin 2 40)
                          (start 2 (calls_of three_blocks))) = P_done)
    by (vm_compute; reflexivity).
  assert (Hreal : Forall real three_blocks) by (repeat constructor).
  split; [exact Hp|].
  destruct (archive_order toy_compress true three_blocks 2 (round_robin 2 40)
              ltac:(lia) ltac:(vm_compute; discriminate) Hreal
              ltac:(vm_compute; reflexivity)) as (_ & H & _ & _).
  destruct (H Hp) as [Hw Hc]. split; [rewrite Hw | rewrite Hc]; reflexivity.
Defined.

(** With five threads, and the workers ahead of the main thread, the
    archive is the same. *)
Example five_threads :
  let s := exec toy_compress true
                (concat (replicate 40 (map Run (map Worker [4; 3; 2; 1; 0]
                                                ++ [Writer; Producer; Producer]))))
                (start 5 (calls_of three_blocks)) in
  prod s = P_done /\ written s = [[28; 1]; [28; 2; 2]; [28; 3]]%Z.
Proof. vm_compute. split; reflexivity. Qed.

(** *** The queue never overflows, and no run goes on for ever *)

(** X8.  With the Windows semaphore, or with Pthreads in a run in which
    no [pthread_cond_wait] returns without a signal: in every state
    that a run of the compression job with [t >= 1] threads
    ([t <= MAXCOUNT]) can reach, whatever the blocks written and the
    order in which the threads move, the semaphore [empty] counts
    between 0 and [t] free slots, and whenever the main thread is past
    [empty.wait()] in [CompressJob::write] the loop over the slots
    finds one in state [EMPTY] whose output buffer is empty:
    [assert(i<qsize)] would hold, and no queued block is overwritten or
    dropped. *)
Theorem queue_never_overflows
    (compressBlock : list Z -> string -> string -> Z -> list Z) (pthread : bool)
    (jobs : list request) (t : nat) (sched : list turn) :
  0 < t -> (Z.of_nat t <= MAXCOUNT)%Z -> Forall real jobs ->
  regular pthread sched = true ->
  let s := exec compressBlock pthread sched (start t (calls_of jobs)) in
  (0 <= empty s <= Z.of_nat t)%Z /\
  forall k r pending, prod s = P_fill k r pending ->
    exists j cj, find_empty (q s) (front s) 0 (qsize s) = Some j /\
                 q s !! j = Some cj /\ state cj = EMPTY /\ cj_out cj = [].
Proof.
  intros Ht Hmax Hreal Hreg s.
  destruct (run_inv compressBlock pthread t jobs sched Ht Hmax Hreal Hreg)
    as (done & enq & I).
  fold s in I.
  pose proof (i_empty _ _ _ _ _ _ I) as Hem.
  pose proof (i_free _ _ _ _ _ _ I) as Hfree.
  pose proof (i_le _ _ _ _ _ _ I) as Hle.
  split; [lia|].
  intros k r pending Hp. rewrite Hp in Hem. cbn [filling] in Hem.
  exists (enq mod t).
  destruct (i_slots _ _ _ _ _ _ I enq ltac:(lia)) as (cj & w & Hq & _ & Hdesc).
  exists cj. split.
  - rewrite (i_front _ _ _ _ _ _ I). unfold qsize. rewrite (i_q _ _ _ _ _ _ I).
    eapply (find_empty_spec compressBlock t Ht _ done enq);
      [exact (i_q _ _ _ _ _ _ I) | exact (i_slots _ _ _ _ _ _ I) | lia | lia | lia].
  - split; [exact Hq|].
    destruct Hdesc as [[Hlt _] | [_ (_ & Hst & Hout & _)]]; [lia | now split].
Qed.

Lemma queue_never_overflows_witness :
  exists j,
    find_empty (q (exec toy_compress true [Run Producer]
                        (start 2 (calls_of three_blocks))))
               0 0 2 = Some j.
Proof.
  assert (Hreal : Forall real three_blocks) by (repeat constructor).
  destruct (queue_never_overflows toy_compress true three_blocks 2 [Run Producer]
              ltac:(lia) ltac:(vm_compute; discriminate) Hreal eq_refl) as [_ H].
  destruct (H 0 _ _ eq_refl) as (j & cj & Hj & _). now exists j.
Defined.

(** X9.  With the Windows semaphore, or with Pthreads in a run in which
    no [pthread_cond_wait] returns without a signal: a run of the
    compression job with [t >= 1] threads ([t <= MAXCOUNT]) on [n]
    blocks is over after at most [12 (n + t) + t + 3] steps of its
    threads, whatever the order in which they take them: no thread
    spins, and a thread that cannot move is blocked on a semaphore or
    has returned. *)
Theorem run_bounded
    (compressBlock : list Z -> string -> string -> Z -> list Z) (pthread : bool)
    (jobs : list request) (t : nat) (sched : list turn) :
  0 < t -> (Z.of_nat t <= MAXCOUNT)%Z -> Forall real jobs ->
  regular pthread sched = true ->
  moves compressBlock pthread sched (start t (calls_of jobs))
  <= 12 * (length jobs + t) + t + 3.
Proof.
  intros Ht Hmax Hreal Hreg.
  assert (I : inv compressBlock t (jobs ++ replicate t end_of_input)
                  (start t (calls_of jobs))).
  { apply inv_start; try assumption. symmetry. now apply expand_calls. }
  pose proof (moves_potential compressBlock pthread t _ sched Ht Hmax _ Hreg I) as H.
  assert (Hp : potential (start t (calls_of jobs))
               <= 12 * (length jobs + t) + t + 3).
  { unfold potential, start, qsize.
    cbn [q prod workers empty writer rank_wr].
    rewrite length_replicate, todo_enter.
    rewrite expand_calls by assumption.
    rewrite length_app, length_replicate.
    rewrite !sum_replicate by reflexivity.
    pose proof (rank_enter t (calls_of jobs)). lia. }
  lia.
Qed.

Lemma run_bounded_witness :
  moves toy_compress true (round_robin 2 40) (start 2 (calls_of three_blocks)) <= 65.
Proof.
  assert (Hreal : Forall real three_blocks) by (repeat constructor).
  exact (run_bounded toy_compress true three_blocks 2 (round_robin 2 40)
           ltac:(lia) ltac:(vm_compute; discriminate) Hreal
           ltac:(vm_compute; reflexivity)).
Defined.

End Queue.

(** ** File arguments ([ispath], [Jidac::rename], [Jidac::unrename]) *)

Module Filenames.

(** A C string is the list of its characters before the terminating NUL. *)
Definition cstring (s : list Z) : Prop := Forall (fun c => c <> 0) s.

Definition slash : Z := 47.
Definition star : Z := 42.
Definition qmark : Z := 63.

(** The [while (true)] loop of the [*] case of [ispath], [rec] being
    [ispath(a+1, .)]: it returns true when
    [ispath(a+1, b)] does, false when [b] is at its end or at a slash,
    and moves [b] on otherwise. *)
Fixpoint skip_star (rec : list Z -> bool) (b : list Z) : bool :=
  if rec b then true
  else match b with
       | [] => false
       | c :: b' => if c =? slash then false else skip_star rec b'
       end.

Section Platform.

(** Whether the program is compiled without [unix] defined. *)
Variable windows : bool.

(** [inline int tolowerW(int c)] *)
Definition tolowerW (c : Z) : Z :=
  if windows && (65 <=? c) && (c <=? 90) then c - 65 + 97 else c.

(** [*b==0 || *b=='/'] *)
Definition at_end (b : list Z) : bool :=
  match b with
  | [] => true
  | c :: _ => c =? slash
  end.

(** [bool ispath(const char* a, const char* b)].  The [for] loop runs
    while both strings have a character left. *)
Fixpoint ispath (a b : list Z) {struct a} : bool :=
  match a with
  | [] => at_end b
  | ca0 :: a' =>
      match b with
      | [] => false
      | cb0 :: b' =>
          let ca := tolowerW ca0 in
          let cb := tolowerW cb0 in
          if (ca =? 0) || ((ca =? slash) && bool_decide (a' = []))
          then (cb =? 0) || (cb =? slash)
          else if ca =? qmark then
            if (cb =? 0) || (cb =? slash) then false else ispath a' b'
          else if ca =? star then skip_star (ispath a') b
          else if negb (ca =? cb) then false
          else ispath a' b'
      end
  end.

Lemma skip_star_spec rec b :
  skip_star rec b = true <->
  exists pre rest, b = pre ++ rest /\ Forall (fun c => c <> slash) pre /\
                   rec rest = true.
Proof.
  induction b as [|c b IH]; cbn [skip_star].
  - destruct (rec []) eqn:E.
    + split; [|reflexivity]. intros _. exists [], []. auto.
    + split; [discriminate|]. intros (pre & rest & Hb & _ & Hr).
      symmetry in Hb. apply app_eq_nil in Hb as [_ ->]. congruence.
  - destruct (rec (c :: b)) eqn:E.
    + split; [|reflexivity]. intros _. exists [], (c :: b). auto.
    + destruct (Z.eqb_spec c slash) as [-> | Hc].
      * split; [discriminate|]. intros (pre & rest & Hb & Hp & Hr).
        destruct pre as [|p pre]; cbn in Hb.
        -- subst rest. congruence.
        -- injection Hb as <- _. now inversion Hp.
      * rewrite IH. split.
        -- intros (pre & rest & -> & Hp & Hr). exists (c :: pre), rest.
           split; [reflexivity|]. split; [now constructor | exact Hr].
        -- intros (pre & rest & Hb & Hp & Hr).
           destruct pre as [|p pre]; cbn in Hb.
           ++ subst rest. congruence.
           ++ injection Hb as <- ->. exists pre, rest.
              split; [reflexivity|]. split; [now inversion Hp | exact Hr].
Qed.

(** X10.  In a pattern, [*] stands for a run of characters of the name
    that holds no slash, and the rest of the pattern has to match what
    follows the run; but against a name that is at its end the loop of
    [ispath] is not entered, so a pattern with a [*] left never matches
    there, although the empty run would do. *)
Theorem ispath_star (a b : list Z) :
  ispath (star :: a) b = true <->
  b <> [] /\
  exists pre rest, b = pre ++ rest /\ Forall (fun c => c <> slash) pre /\
                   ispath a rest = true.
Proof.
  destruct b as [|cb0 b'].
  - cbn. split; [discriminate | now intros [H _]].
  - cbn [ispath]. cbv zeta.
    assert (tolowerW star = star) as ->
      by (unfold tolowerW; now rewrite andb_false_r).
    cbn [Z.eqb star slash qmark Pos.eqb orb andb].
    rewrite skip_star_spec. split; [now split | now intros [_ H]].
Qed.

Definition plain (c : Z) : Prop := c <> 0 /\ c <> qmark /\ c <> star.

Lemma tolowerW_cases c :
  tolowerW c = c \/ (65 <= c <= 90 /\ tolowerW c = c + 32).
Proof.
  unfold tolowerW. destruct windows; [|now left]. cbn [andb].
  destruct (Z.leb_spec 65 c); [|now left].
  destruct (Z.leb_spec c 90); [|now left].
  right. cbn. lia.
Qed.

(** X11.  A pattern without [?] and [*] selects the file of that name and
    what is below it as a directory: [ispath(a, b)] holds exactly when
    [b] starts with [a] (in Windows, apart from the case of the letters)
    and goes on with nothing, with a slash, or with anything if [a] ends
    with a slash.  A name that only starts with the same letters is not
    selected. *)
Theorem ispath_plain (a : list Z) : forall b : list Z,
  Forall plain a -> cstring b ->
  ispath a b = true <->
  exists pre rest, b = pre ++ rest /\ tolowerW <$> pre = tolowerW <$> a /\
                   (rest = [] \/ head rest = Some slash \/ last a = Some slash).
Proof.
  induction a as [|ca0 a' IH]; intros b Ha Hb.
  - cbn [ispath]. split.
    + intros H. exists [], b. split; [reflexivity|]. split; [reflexivity|].
      destruct b as [|c b]; [now left|]. right. left. cbn in *.
      apply Z.eqb_eq in H. now subst.
    + intros (pre & rest & -> & Hp & Hr). apply fmap_nil_inv in Hp as ->.
      cbn [app]. destruct Hr as [-> | [Hr | Hr]]; [reflexivity | | discriminate].
      destruct rest as [|c rest]; [discriminate|]. injection Hr as ->. reflexivity.
  - destruct b as [|cb0 b']; cbn [ispath].
    { split; [discriminate|]. intros (pre & rest & Hb' & Hp & _).
      symmetry in Hb'. apply app_eq_nil in Hb' as [-> _]. discriminate. }
    cbv zeta. inversion Ha as [|? ? (Ha0 & Haq & Has) Ha']; subst.
    inversion Hb as [|? ? Hb0 Hb']; subst.
    unfold slash, qmark, star in *.
    pose proof (tolowerW_cases ca0) as Hca.
    pose proof (tolowerW_cases cb0) as Hcb.
    assert (Hsl : tolowerW ca0 = 47 <-> ca0 = 47) by lia.
    rewrite (proj2 (Z.eqb_neq (tolowerW ca0) 0)) by lia.
    rewrite (proj2 (Z.eqb_neq (tolowerW cb0) 0)) by lia.
    rewrite (proj2 (Z.eqb_neq (tolowerW ca0) 63)) by lia.
    rewrite (proj2 (Z.eqb_neq (tolowerW ca0) 42)) by lia.
    cbn [orb].
    assert (Hhead : forall pre rest,
              cb0 :: b' = pre ++ rest ->
              tolowerW <$> pre = tolowerW <$> ca0 :: a' ->
              exists pre', pre = cb0 :: pre' /\ b' = pre' ++ rest /\
                           tolowerW cb0 = tolowerW ca0 /\
                           tolowerW <$> pre' = tolowerW <$> a').
    { intros pre rest Hpre Hp. destruct pre as [|p pre]; [discriminate|].
      cbn in Hpre, Hp. injection Hpre as <- ->. injection Hp as Hp0 Hp.
      now exists pre. }
    destruct (Z.eqb_spec (tolowerW ca0) 47) as [Esl | Esl];
      [case_bool_decide as Hnil|]; cbn [andb].
    + (* the pattern ends with this slash *)
      subst a'. split.
      * intros H. apply Z.eqb_eq in H. exists [cb0], b'.
        split; [reflexivity|]. split; [cbn; congruence|].
        right; right. cbn. f_equal. lia.
      * intros (pre & rest & Hpre & Hp & _).
        destruct (Hhead _ _ Hpre Hp) as (pre' & -> & _ & Hc & _).
        apply Z.eqb_eq. congruence.
    + destruct (Z.eqb_spec (tolowerW ca0) (tolowerW cb0)) as [Ec | Ec]; cbn [negb].
      * rewrite (IH b' Ha' Hb'). split.
        -- intros (pre & rest & -> & Hp & Hr). exists (cb0 :: pre), rest.
           split; [reflexivity|]. split; [cbn; congruence|].
           destruct Hr as [Hr | [Hr | Hr]]; [now left | now right; left |].
           right; right. destruct a'; [discriminate | exact Hr].
        -- intros (pre & rest & Hpre & Hp & Hr).
           destruct (Hhead _ _ Hpre Hp) as (pre' & -> & -> & _ & Hp').
           exists pre', rest. split; [reflexivity|]. split; [exact Hp'|].
           destruct Hr as [Hr | [Hr | Hr]]; [now left | now right; left |].
           right; right. destruct a'; [contradiction | exact Hr].
      * split; [discriminate|]. intros (pre & rest & Hpre & Hp & _).
        destruct (Hhead _ _ Hpre Hp) as (pre' & -> & _ & Hc & _). congruence.
    + destruct (Z.eqb_spec (tolowerW ca0) (tolowerW cb0)) as [Ec | Ec]; cbn [negb].
      * rewrite (IH b' Ha' Hb'). split.
        -- intros (pre & rest & -> & Hp & Hr). exists (cb0 :: pre), rest.
           split; [reflexivity|]. split; [cbn; congruence|].
           destruct Hr as [Hr | [Hr | Hr]]; [now left | now right; left |].
           right; right. destruct a'; [discriminate | exact Hr].
        -- intros (pre & rest & Hpre & Hp & Hr).
           destruct (Hhead _ _ Hpre Hp) as (pre' & -> & -> & _ & Hp').
           exists pre', rest. split; [reflexivity|]. split; [exact Hp'|].
           destruct Hr as [Hr | [Hr | Hr]]; [now left | now right; left |].
           right; right. destruct a' as [|c a'']; [|exact Hr].
           cbn in Hr. injection Hr as ->. lia.
      * split; [discriminate|]. intros (pre & rest & Hpre & Hp & _).
        destruct (Hhead _ _ Hpre Hp) as (pre' & -> & _ & Hc & _). congruence.
Qed.

End Platform.

Lemma ispath_plain_witness :
  ispath false [100; 105; 114] [100; 105; 114; 47; 120] = true /\
  ispath false [100; 105; 114] [100; 105; 114; 120] = false.
Proof.
  assert (Ha : Forall plain [100; 105; 114])
    by (repeat constructor; discriminate).
  split.
  - apply (ispath_plain false [100; 105; 114] [100; 105; 114; 47; 120] Ha).
    + repeat constructor; discriminate.
    + exists [100; 105; 114], [47; 120]. split; [reflexivity|].
      split; [reflexivity|]. right. left. reflexivity.
  - destruct (ispath false [100; 105; 114] [100; 105; 114; 120]) eqn:E;
      [|reflexivity].
    apply (ispath_plain false [100; 105; 114] [100; 105; 114; 120] Ha) in E.
    + destruct E as (pre & rest & Hb & Hp & Hr).
      assert (Hlen : length pre = 3%nat)
        by (apply (f_equal length) in Hp; rewrite !length_fmap in Hp; exact Hp).
      destruct pre as [|p1 [|p2 [|p3 [|p4 pre]]]]; try discriminate.
      injection Hb as _ _ _ <-.
      destruct Hr as [Hr | [Hr | Hr]]; discriminate.
    + repeat constructor; discriminate.
Defined.

(** *** [-to]: renaming by prefix ([Jidac::rename], [Jidac::unrename]) *)

(** [name.size()>=len && name.substr(0, len)==p], [len] the size of [p]. *)
Definition has_prefix (p name : list Z) : bool :=
  (length p <=? length name)%nat && bool_decide (take (length p) name = p).

(** The loop [for (i=0; i<files.size() && i<tofiles.size(); ++i)] of
    [rename], from the pair at [i] on: the first [from] that starts
    [name] is replaced by its [to]. *)
Fixpoint replace_prefix (from to : list (list Z)) (name : list Z) : list Z :=
  match from, to with
  | f :: from', t :: to' =>
      if has_prefix f name then t ++ drop (length f) name
      else replace_prefix from' to' name
  | _, _ => name
  end.

(** [string Jidac::rename(const string& name)] *)
Definition rename (files tofiles : list (list Z)) (name : list Z) : list Z :=
  match files, tofiles with
  | [], t :: _ => t ++ name
  | _, _ => replace_prefix files tofiles name
  end.

(** [string Jidac::unrename(const string& name)] *)
Definition unrename (files tofiles : list (list Z)) (name : list Z) : list Z :=
  match files, tofiles with
  | [], t :: _ =>
      if has_prefix t name then drop (length t) name
      else replace_prefix tofiles files name
  | _, _ => replace_prefix tofiles files name
  end.

Lemma has_prefix_app p rest : has_prefix p (p ++ rest) = true.
Proof.
  unfold has_prefix. rewrite length_app.
  replace (length p <=? length p + length rest)%nat with true
    by (symmetry; apply Nat.leb_le; lia).
  rewrite take_app_length. now rewrite bool_decide_eq_true_2.
Qed.

Lemma has_prefix_spec p name :
  has_prefix p name = true <-> exists rest, name = p ++ rest.
Proof.
  split.
  - unfold has_prefix. intros H. apply andb_true_iff in H as [_ H].
    apply bool_decide_eq_true_1 in H. exists (drop (length p) name).
    rewrite <- H at 1. now rewrite take_drop.
  - intros [rest ->]. apply has_prefix_app.
Qed.

(** X12.  What [rename] does to the names under the first file
    argument, [unrename] undoes, and the other way round: with [-to],
    [rename] replaces the prefix [f] (the first of the file arguments)
    by [t] (the first of the [-to] arguments) and [unrename] replaces
    [t] by [f]; without file arguments [rename] puts [t] before the name
    and [unrename] takes it off again.  (For a later pair this can fail:
    the first pair whose prefix fits is taken.) *)
Theorem rename_round_trip (f t : list Z) (fs ts : list (list Z)) (sub name : list Z) :
  rename (f :: fs) (t :: ts) (f ++ sub) = t ++ sub /\
  unrename (f :: fs) (t :: ts) (t ++ sub) = f ++ sub /\
  unrename (f :: fs) (t :: ts) (rename (f :: fs) (t :: ts) (f ++ sub)) = f ++ sub /\
  unrename [] (t :: ts) (rename [] (t :: ts) name) = name.
Proof.
  assert (H1 : rename (f :: fs) (t :: ts) (f ++ sub) = t ++ sub).
  { cbn [rename replace_prefix]. now rewrite has_prefix_app, drop_app_length. }
  assert (H2 : unrename (f :: fs) (t :: ts) (t ++ sub) = f ++ sub).
  { cbn [unrename replace_prefix]. now rewrite has_prefix_app, drop_app_length. }
  split; [exact H1|]. split; [exact H2|]. split; [now rewrite H1|].
  cbn [rename unrename]. now rewrite has_prefix_app, drop_app_length.
Qed.

End Filenames.

(** ** Abbreviated options ([expandOption]) *)

Module Options.

Import Stdlib.Strings.Ascii.
Local Open Scope string_scope.

(** The first five are the commands. *)
Definition opts : list string :=
  ["list"; "add"; "extract"; "delete"; "test";
   "method"; "force"; "quiet"; "summary"; "since"; "compare";
   "to"; "not"; "version"; "until"; "threads"; "all"; "fragile"].

(** How a call ends: it returns, or it prints "Ambiguous" or "No such
    option" and exits. *)
Inductive expansion :=
  | Expanded (result : string)
  | Ambiguous
  | No_such_option.

(** [!strncmp(opt, o, n)] with [n = strlen(opt)]: [opt] starts [o]. *)
Definition abbreviates (opt o : string) : bool := String.prefix opt o.

Definition is_empty (s : string) : bool :=
  match s with EmptyString => true | _ => false end.

(** The loop over [opts] from index [i] on. *)
Fixpoint expand_loop (opt : string) (os : list string) (i : nat) (result : string)
  : expansion :=
  match os with
  | [] => if is_empty result then No_such_option else Expanded result
  | o :: os' =>
      if abbreviates opt o then
        if negb (is_empty result) then Ambiguous
        else
          let result := "-" +:+ o in
          if (i <? 5)%nat && negb (is_empty result) then Expanded result
          else expand_loop opt os' (S i) result
      else expand_loop opt os' (S i) result
  end.

(** [string expandOption(const char* opt)] *)
Definition expandOption (opt : string) : expansion :=
  let opt := match opt with String "-"%char rest => rest | _ => opt end in
  if String.eqb opt "x" then Expanded "-extract"
  else expand_loop opt opts 0 "".

Definition commands : list string := take 5 opts.
Definition settings : list string := drop 5 opts.

(** The same without the loop: the first command that [opt] starts, or
    else the one other option that it starts. *)
Definition expansion_of (opt : string) : expansion :=
  match List.filter (abbreviates opt) commands with
  | c :: _ => Expanded ("-" +:+ c)
  | [] =>
      match List.filter (abbreviates opt) settings with
      | [] => No_such_option
      | [o] => Expanded ("-" +:+ o)
      | _ => Ambiguous
      end
  end.

Lemma expand_commands opt : forall (os rest : list string) (i : nat),
  (i + length os <= 5)%nat ->
  expand_loop opt (os ++ rest) i ""
  = match List.filter (abbreviates opt) os with
    | c :: _ => Expanded ("-" +:+ c)
    | [] => expand_loop opt rest (i + length os) ""
    end.
Proof.
  induction os as [|o os IH]; intros rest i Hi.
  - cbn. now rewrite Nat.add_0_r.
  - cbn [app expand_loop List.filter length] in *.
    destruct (abbreviates opt o).
    + cbn [is_empty negb]. replace (i <? 5)%nat with true
        by (symmetry; apply Nat.ltb_lt; lia).
      reflexivity.
    + rewrite IH by lia. replace (S i + length os)%nat with (i + S (length os))%nat by lia.
      reflexivity.
Qed.

Lemma expand_settings opt : forall (os : list string) (i : nat) (o : string),
  (5 <= i)%nat ->
  expand_loop opt os i ("-" +:+ o)
  = if List.existsb (abbreviates opt) os then Ambiguous else Expanded ("-" +:+ o).
Proof.
  induction os as [|o' os IH]; intros i o Hi; [reflexivity|].
  cbn [expand_loop List.existsb].
  destruct (abbreviates opt o'); [reflexivity|]. cbn [orb]. apply IH. lia.
Qed.

Lemma expand_first opt : forall (os : list string) (i : nat),
  (5 <= i)%nat ->
  expand_loop opt os i ""
  = match List.filter (abbreviates opt) os with
    | [] => No_such_option
    | [o] => Expanded ("-" +:+ o)
    | _ => Ambiguous
    end.
Proof.
  induction os as [|o os IH]; intros i Hi; [reflexivity|].
  cbn [expand_loop List.filter].
  destruct (abbreviates opt o) eqn:Ho.
  - cbn [is_empty negb]. replace (i <? 5)%nat with false
      by (symmetry; apply Nat.ltb_ge; lia).
    cbn [andb]. rewrite expand_settings by lia.
    destruct (List.filter (abbreviates opt) os) as [|o2 l] eqn:Hf.
    + replace (List.existsb (abbreviates opt) os) with false; [reflexivity|].
      symmetry. apply not_true_is_false. intros He.
      apply List.existsb_exists in He as (x & Hx & Hax).
      assert (Hin : List.In x (List.filter (abbreviates opt) os))
        by (apply List.filter_In; now split).
      rewrite Hf in Hin. destruct Hin.
    + replace (List.existsb (abbreviates opt) os) with true; [reflexivity|].
      symmetry. apply List.existsb_exists. exists o2.
      apply List.filter_In. rewrite Hf. now left.
  - apply IH. lia.
Qed.

(** X13.  [expandOption] strips one leading "-"; "x" stands for
    "-extract"; otherwise the result is the first of the commands
    (list, add, extract, delete, test) that the argument is a prefix
    of, even when it is also a prefix of other options; if it is a
    prefix of no command, the result is the one other option that it is
    a prefix of, and the program exits with "No such option" if there is
    none and with "Ambiguous" if there are several.  Every option
    written in full stands for itself. *)
Theorem expandOption_spec (opt : string) :
  expandOption opt
  = (let o := match opt with String "-"%char rest => rest | _ => opt end in
     if String.eqb o "x" then Expanded "-extract" else expansion_of o) /\
  Forall (fun o => expandOption ("-" +:+ o) = Expanded ("-" +:+ o)) opts.
Proof.
  split; [|repeat constructor].
  unfold expandOption. cbv zeta.
  destruct (String.eqb _ "x"); [reflexivity|].
  set (o := match opt with String "-"%char rest => rest | _ => opt end).
  unfold expansion_of.
  change opts with (commands ++ settings)%list.
  rewrite expand_commands by (cbn; lia).
  destruct (List.filter (abbreviates o) commands); [|reflexivity].
  apply expand_first. cbn. lia.
Qed.

Example expand_t : expandOption "-t" = Expanded "-test".
Proof. reflexivity. Qed.

Example expand_s : expandOption "-s" = Ambiguous.
Proof. reflexivity. Qed.

Example expand_dash : expandOption "-" = Expanded "-list".
Proof. reflexivity. Qed.

Example expand_unt : expandOption "-unt" = Expanded "-until".
Proof. reflexivity. Qed.

End Options.

(** ** Segment names and comments ([add], [compressBlock], [read_archive]) *)

Module Segment.

Import Stdlib.Strings.Ascii.
Local Open Scope string_scope.
Local Open Scope Z_scope.

Definition code (c : ascii) : Z := Z.of_nat (nat_of_ascii c).

(** [isdigit(c)] *)
Definition isdigit (c : ascii) : bool := (48 <=? code c) && (code c <=? 57).

(** The name that [add] gives a journaling block: "jDC", the date of the
    update in 14 digits, the kind of the block and a number in 10
    digits. *)
Definition block_name (date : Z) (kind : ascii) (num : Z) : string :=
  "jDC" +:+ Queue.itos date 14 +:+ String kind (Queue.itos num 10).

(** The comment that [compressBlock] gives the segment of a journaling
    block of [n] bytes: [itos(n)] and " jDC\x01". *)
Definition jidac_tag : string := "jDC" +:+ String (ascii_of_nat 1) "".
Definition block_comment (n : Z) : string := Queue.itos n 1 +:+ " " +:+ jidac_tag.

(** [s] from position [n] on. *)
Fixpoint skip (n : nat) (s : string) : string :=
  match n, s with
  | S n', String _ s' => skip n' s'
  | _, _ => s
  end.

(** [for (; i<stop && isdigit(s[i]); ++i) x=x*10+s[i]-'0';] with [cnt]
    positions to go before [stop], in the arithmetic of the type of [x]. *)
Fixpoint read_number (wrap : Z -> Z) (cnt : nat) (s : string) (x : Z) : Z :=
  match cnt, s with
  | S cnt', String c s' =>
      if isdigit c then read_number wrap cnt' s' (wrap (x * 10 + code c - 48))
      else x
  | _, _ => x
  end.

(** The loop that reads the size at the start of a comment, [p] moving
    over the digits: [usize=usize*10+*p-'0'].  The number and what is
    left of the comment. *)
Fixpoint read_size (s : string) (x : Z) : Z * string :=
  match s with
  | String c s' =>
      if isdigit c then read_size s' (wrap_int64 (x * 10 + code c - 48))
      else (x, s)
  | EmptyString => (x, s)
  end.

(** [if (p==comment.s.c_str()) usize=-1;]: the size that the comment
    starts with, -1 if it starts with none. *)
Definition comment_usize (comment : string) : Z :=
  let '(usize, p) := read_size comment 0 in
  if (String.length p =? String.length comment)%nat then -1 else usize.

(** The comment that [add] gives a segment in streaming mode, for a file
    of one block: the size, the date and, when the low byte of the
    attributes is not 0, that byte as a character and the rest of the
    attributes in decimal. *)
Definition streaming_comment (size edate eattr : Z) : string :=
  Queue.itos size 1 +:+ " " +:+ Queue.itos edate 1
  +:+ (if 0 <? Z.land eattr 255
       then " " +:+ String (ascii_of_nat (Z.to_nat (Z.land eattr 255)))
                           (Queue.itos (Z.shiftr eattr 8) 1)
       else "").

(** "read date": the loop runs while there is a character and [fdate] is
    below 19000000000000, and takes in the digits it passes. *)
Fixpoint read_date (s : string) (fdate : Z) : Z * string :=
  match s with
  | String c s' =>
      if fdate <? 19000000000000
      then read_date s' (if isdigit c then wrap_int64 (fdate * 10 + code c - 48)
                         else fdate)
      else (fdate, s)
  | EmptyString => (fdate, s)
  end.

(** "Read the comment attribute wN or uN where N is a number": the loop
    over the rest of the comment and the NUL that ends it. *)
Fixpoint read_fattr (s : string) (attrchar fattr : Z) : Z :=
  match s with
  | String c s' =>
      if (code c =? 117) || (code c =? 119) then read_fattr s' (code c) 0
      else if isdigit c && ((attrchar =? 117) || (attrchar =? 119))
      then read_fattr s' attrchar (wrap_int64 (fattr * 10 + code c - 48))
      else if negb (attrchar =? 0)
      then read_fattr s' 0 (wrap_int64 (fattr * 256 + attrchar))
      else read_fattr s' attrchar fattr
  | EmptyString =>
      if negb (attrchar =? 0) then wrap_int64 (fattr * 256 + attrchar) else fattr
  end.

(** [usize], [fdate] and [fattr] as [read_archive] reads them from the
    comment of a segment. *)
Definition parse_comment (comment : string) : Z * Z * Z :=
  let '(_, p) := read_size comment 0 in
  let '(fdate, p) := read_date p 0 in
  let fdate := if (fdate <? 19000000000000) || (30000000000000 <=? fdate)
               then -1 else fdate in
  (comment_usize comment, fdate, read_fattr p 0 0).

(** [strchr("cdhi", c)]: also found is the NUL that ends "cdhi". *)
Definition is_kind (c : ascii) : bool :=
  (code c =? 99) || (code c =? 100) || (code c =? 104) || (code c =? 105)
  || (code c =? 0).

(** "Test for JIDAC format" in [read_archive], and "Read the date and
    number in the filename": the kind, [fdate], [num] and [usize] of a
    journaling block, [None] for any other segment. *)
Definition jidac (filename comment : string) : option (ascii * Z * Z * Z) :=
  let usize := comment_usize comment in
  match String.get 17 filename with
  | Some kind =>
      if (4 <=? String.length comment)%nat && (0 <=? usize)
         && String.eqb (skip (String.length comment - 4) comment) jidac_tag
         && (String.length filename =? 28)%nat
         && String.prefix "jDC" filename
         && is_kind kind
      then Some (kind,
                 read_number wrap_int64 14 (skip 3 filename) 0,
                 read_number wrap_unsigned 10 (skip 18 filename) 0,
                 usize)
      else None
  | None => None
  end.

(** *** Decimal digits *)

(** The loop of [itos] run [k] times: [k] digits of [x] put before [r]. *)
Fixpoint digits_onto (k : nat) (x : Z) (r : string) : string :=
  match k with
  | O => r
  | S k' => digits_onto k' (x ÷ 10)
                        (String (ascii_of_nat (48 + Z.to_nat (Z.rem x 10))) r)
  end.

Lemma itos_loop_digits (fuel : nat) : forall (x n : Z) (r : string),
  0 <= x < 10 ^ Z.of_nat fuel -> n <= Z.of_nat fuel ->
  exists m : nat,
    Queue.itos_loop fuel x n r = digits_onto m x r /\
    x < 10 ^ Z.of_nat m /\ n <= Z.of_nat m /\ (m <= fuel)%nat /\
    (0 <= n -> x < 10 ^ n -> Z.of_nat m = n).
Proof.
  induction fuel as [|fuel IH]; intros x n r Hx Hn.
  - exists 0%nat. cbn in *. repeat split; try lia.
  - cbn [Queue.itos_loop].
    destruct ((x =? 0) && (n <=? 0)) eqn:Hstop.
    + apply andb_true_iff in Hstop as [H0 Hn0].
      apply Z.eqb_eq in H0. apply Z.leb_le in Hn0. subst x.
      exists 0%nat. cbn. repeat split; try lia.
    + assert (Hq : 0 <= x ÷ 10 < 10 ^ Z.of_nat fuel).
      { rewrite Nat2Z.inj_succ, Z.pow_succ_r in Hx by lia.
        rewrite Z.quot_div_nonneg by lia.
        split; [apply Z.div_pos; lia | apply Z.div_lt_upper_bound; lia]. }
      destruct (IH (x ÷ 10) (n - 1) (String (ascii_of_nat (48 + Z.to_nat (Z.rem x 10))) r)
                   Hq ltac:(lia)) as (m & Hm & Hlt & Hle & Hf & Hex).
      exists (S m). split; [exact Hm|].
      rewrite Nat2Z.inj_succ, Z.pow_succ_r by lia.
      rewrite Z.quot_div_nonneg in Hlt by lia.
      assert (Hxm : x < 10 * 10 ^ Z.of_nat m).
      { pose proof (Z.div_mod x 10 ltac:(lia)).
        pose proof (Z.mod_pos_bound x 10 ltac:(lia)). lia. }
      split; [exact Hxm|]. split; [lia|]. split; [lia|].
      intros Hn0 Hxn.
      destruct (Z.eq_dec n 0) as [-> | Hne].
      * exfalso. apply andb_false_iff in Hstop as [H | H].
        -- apply Z.eqb_neq in H. cbn in Hxn. lia.
        -- apply Z.leb_gt in H. lia.
      * assert (Hq' : x ÷ 10 < 10 ^ (n - 1)).
        { rewrite Z.quot_div_nonneg by lia. apply Z.div_lt_upper_bound; [lia|].
          replace n with (Z.succ (n - 1)) in Hxn by lia.
          rewrite Z.pow_succ_r in Hxn by lia. exact Hxn. }
        specialize (Hex ltac:(lia) Hq'). lia.
Qed.

(** [itos(x, n)] is [m >= n] digits of [x], as many as [x] needs. *)
Lemma itos_digits (x n : Z) :
  0 <= x < 2 ^ 63 -> 0 <= n ->
  exists m : nat,
    Queue.itos x n = digits_onto m x "" /\ x < 10 ^ Z.of_nat m /\
    n <= Z.of_nat m /\ (x < 10 ^ n -> Z.of_nat m = n).
Proof.
  intros Hx Hn. unfold Queue.itos.
  destruct (itos_loop_digits (20 + Z.to_nat n) x n "") as (m & Hm & Hlt & Hle & _ & Hex).
  - split; [lia|]. apply Z.lt_le_trans with (10 ^ 20); [lia|].
    apply Z.pow_le_mono_r; lia.
  - lia.
  - exists m. repeat split; try assumption. intros Hxn. now apply Hex.
Qed.

Lemma digits_onto_app (k : nat) : forall (x : Z) (r s : string),
  digits_onto k x r +:+ s = digits_onto k x (r +:+ s).
Proof.
  induction k as [|k IH]; intros x r s; [reflexivity|].
  cbn [digits_onto]. now rewrite IH.
Qed.

Lemma length_digits_onto (k : nat) : forall (x : Z) (r : string),
  String.length (digits_onto k x r) = (k + String.length r)%nat.
Proof.
  induction k as [|k IH]; intros x r; [reflexivity|].
  cbn [digits_onto]. rewrite IH. cbn. lia.
Qed.

Lemma skip_digits_onto (k : nat) : forall (x : Z) (r : string) (n : nat),
  skip (k + n) (digits_onto k x r) = skip n r.
Proof.
  induction k as [|k IH]; intros x r n; [reflexivity|].
  cbn [digits_onto]. replace (S k + n)%nat with (k + S n)%nat by lia.
  now rewrite IH.
Qed.

Lemma get_digits_onto (k : nat) : forall (x : Z) (r : string) (n : nat),
  String.get (k + n) (digits_onto k x r) = String.get n r.
Proof.
  induction k as [|k IH]; intros x r n; [reflexivity|].
  cbn [digits_onto]. replace (S k + n)%nat with (k + S n)%nat by lia.
  now rewrite IH.
Qed.

Lemma digit_char (d : Z) :
  0 <= d <= 9 ->
  isdigit (ascii_of_nat (48 + Z.to_nat d)) = true /\
  code (ascii_of_nat (48 + Z.to_nat d)) - 48 = d.
Proof.
  intros Hd. unfold isdigit, code.
  rewrite nat_ascii_embedding by lia.
  split; [apply andb_true_iff; split; apply Z.leb_le; lia | lia].
Qed.

(** Reading the digits of [x] continues the number read so far. *)
Lemma read_number_digits (wrap : Z -> Z) (bound : Z) (k : nat) :
  (forall y, 0 <= y < bound -> wrap y = y) ->
  forall (x : Z) (r : string) (cnt : nat) (acc : Z),
  0 <= x < 10 ^ Z.of_nat k -> 0 <= acc ->
  acc * 10 ^ Z.of_nat k + x < bound ->
  read_number wrap (k + cnt) (digits_onto k x r) acc
  = read_number wrap cnt r (acc * 10 ^ Z.of_nat k + x).
Proof.
  intros Hwrap. induction k as [|k IH]; intros x r cnt acc Hx Hacc Hb.
  - cbn in *. f_equal. lia.
  - cbn [digits_onto].
    rewrite Nat2Z.inj_succ, Z.pow_succ_r in * by lia.
    assert (Hp : 0 < 10 ^ Z.of_nat k) by (apply Z.pow_pos_nonneg; lia).
    pose proof (Z.div_mod x 10 ltac:(lia)) as Hdm.
    pose proof (Z.mod_pos_bound x 10 ltac:(lia)) as Hmod.
    rewrite Z.quot_div_nonneg, Z.rem_mod_nonneg by lia.
    assert (Hq : 0 <= x / 10 < 10 ^ Z.of_nat k).
    { split; [apply Z.div_pos; lia | apply Z.div_lt_upper_bound; lia]. }
    replace (S k + cnt)%nat with (k + S cnt)%nat by lia.
    rewrite IH; [|exact Hq | exact Hacc | nia].
    cbn [read_number].
    destruct (digit_char (x mod 10) ltac:(lia)) as [-> Hc].
    rewrite Hwrap by nia. f_equal. lia.
Qed.

Lemma read_size_digits (k : nat) :
  forall (x : Z) (r : string) (acc : Z),
  0 <= x < 10 ^ Z.of_nat k -> 0 <= acc ->
  acc * 10 ^ Z.of_nat k + x < 2 ^ 63 ->
  read_size (digits_onto k x r) acc = read_size r (acc * 10 ^ Z.of_nat k + x).
Proof.
  induction k as [|k IH]; intros x r acc Hx Hacc Hb.
  - cbn in *. f_equal. lia.
  - cbn [digits_onto].
    rewrite Nat2Z.inj_succ, Z.pow_succ_r in * by lia.
    assert (Hp : 0 < 10 ^ Z.of_nat k) by (apply Z.pow_pos_nonneg; lia).
    pose proof (Z.div_mod x 10 ltac:(lia)) as Hdm.
    pose proof (Z.mod_pos_bound x 10 ltac:(lia)) as Hmod.
    rewrite Z.quot_div_nonneg, Z.rem_mod_nonneg by lia.
    assert (Hq : 0 <= x / 10 < 10 ^ Z.of_nat k).
    { split; [apply Z.div_pos; lia | apply Z.div_lt_upper_bound; lia]. }
    rewrite IH; [|exact Hq | exact Hacc | nia].
    cbn [read_size].
    destruct (digit_char (x mod 10) ltac:(lia)) as [-> Hc].
    rewrite wrap_int64_small by nia. f_equal. lia.
Qed.


(** X14.  A journaling block that [add] writes is recognised by
    [read_archive] for what it is.  For a date of at most 14 digits, a
    fragment ID or block number below 2^32, a kind among c, d, h, i and
    a block of [n < 2^63] bytes, the segment name ["jDC" + itos(date, 14)
    + kind + itos(num, 10)] is 28 characters long and, with the comment
    [itos(n) + " jDC\x01"] of [compressBlock], passes the "test for JIDAC
    format"; the date, the number and the size read from them are
    [date], [num] and [n].  The data blocks queued by [add] carry such a
    name. *)
Theorem block_name_read (date num n : Z) (kind : ascii) :
  0 <= date < 10 ^ 14 -> 0 <= num < 2 ^ 32 -> 0 <= n < 2 ^ 63 ->
  is_kind kind = true ->
  String.length (block_name date kind num) = 28%nat /\
  jidac (block_name date kind num) (block_comment n) = Some (kind, date, num, n) /\
  forall j : Add.cjob,
    Queue.r_filename (Queue.request_of j)
    = block_name (Add.j_date j) "d"%char (Add.j_first j).
Proof.
  intros Hdate Hnum Hn Hkind.
  destruct (itos_digits date 14 ltac:(lia) ltac:(lia)) as (md & Ed & Hd & _ & Hmd).
  destruct (itos_digits num 10 ltac:(lia) ltac:(lia)) as (mn & En & Hn' & _ & Hmn).
  destruct (itos_digits n 1 ltac:(lia) ltac:(lia)) as (m & Em & Hm & Hm1 & _).
  assert (md = 14%nat) as -> by (specialize (Hmd ltac:(lia)); lia).
  assert (mn = 10%nat) as -> by (specialize (Hmn ltac:(lia)); lia).
  assert (Hname : block_name date kind num
                  = "jDC" +:+ digits_onto 14 date
                                (String kind (digits_onto 10 num ""))).
  { unfold block_name. rewrite Ed, En, digits_onto_app. reflexivity. }
  assert (Hcomment : block_comment n = digits_onto m n (" " +:+ jidac_tag)).
  { unfold block_comment. rewrite Em, digits_onto_app. reflexivity. }
  assert (Hlen : String.length (block_name date kind num) = 28%nat).
  { rewrite Hname.
    change (String.length ("jDC" +:+ ?x)) with (3 + String.length x)%nat.
    rewrite length_digits_onto.
    change (String.length (String ?c ?x)) with (S (String.length x)).
    rewrite length_digits_onto. reflexivity. }
  split; [exact Hlen|]. split; [|reflexivity].
  assert (Hget : String.get 17 (block_name date kind num) = Some kind).
  { rewrite Hname.
    change (String.get 17 ("jDC" +:+ ?x)) with (String.get (14 + 0) x).
    now rewrite get_digits_onto. }
  assert (Hskip3 : skip 3 (block_name date kind num)
                   = digits_onto 14 date (String kind (digits_onto 10 num ""))).
  { rewrite Hname. reflexivity. }
  assert (Hskip18 : skip 18 (block_name date kind num) = digits_onto 10 num "").
  { rewrite Hname.
    change (skip 18 ("jDC" +:+ ?x)) with (skip (14 + 1) x).
    now rewrite skip_digits_onto. }
  assert (Hpre : String.prefix "jDC" (block_name date kind num) = true).
  { rewrite Hname. reflexivity. }
  assert (Hu : comment_usize (block_comment n) = n).
  { unfold comment_usize. rewrite Hcomment.
    rewrite read_size_digits by lia.
    replace (0 * 10 ^ Z.of_nat m + n) with n by lia.
    change (read_size (" " +:+ jidac_tag) n) with (n, " " +:+ jidac_tag).
    rewrite length_digits_onto.
    destruct (Nat.eqb_spec (String.length (" " +:+ jidac_tag))
                           (m + String.length (" " +:+ jidac_tag))) as [E | _];
      [lia | reflexivity]. }
  assert (Htag : skip (String.length (block_comment n) - 4) (block_comment n)
                 = jidac_tag).
  { rewrite Hcomment, length_digits_onto.
    change (String.length (" " +:+ jidac_tag)) with 5%nat.
    replace (m + 5 - 4)%nat with (m + 1)%nat by lia.
    rewrite skip_digits_onto. reflexivity. }
  assert (Hcl : (4 <=? String.length (block_comment n))%nat = true).
  { apply Nat.leb_le. rewrite Hcomment, length_digits_onto.
    change (String.length (" " +:+ jidac_tag)) with 5%nat. lia. }
  assert (Hfdate : read_number wrap_int64 14 (skip 3 (block_name date kind num)) 0
                   = date).
  { rewrite Hskip3. change 14%nat with (14 + 0)%nat at 1.
    rewrite (read_number_digits wrap_int64 (2 ^ 63));
      [cbn [read_number]; lia | intros y Hy; apply wrap_int64_small; lia
      | lia | lia | lia]. }
  assert (Hfnum : read_number wrap_unsigned 10 (skip 18 (block_name date kind num)) 0
                  = num).
  { rewrite Hskip18. change 10%nat with (10 + 0)%nat at 1.
    rewrite (read_number_digits wrap_unsigned (2 ^ 32));
      [cbn [read_number]; lia | intros y Hy; apply wrap_unsigned_small; lia
      | lia | lia | lia]. }
  unfold jidac. cbv zeta.
  rewrite Hget, Hlen, Hu, Htag, Hcl, Hpre, Hkind, Hfdate, Hfnum, String.eqb_refl.
  replace (0 <=? n) with true by (symmetry; apply Z.leb_le; lia).
  reflexivity.
Qed.

Lemma block_name_read_witness :
  block_name 20250101000000 "d"%char 1 = "jDC20250101000000d0000000001" /\
  jidac (block_name 20250101000000 "d"%char 1) (block_comment 4096)
  = Some ("d"%char, 20250101000000, 1, 4096).
Proof.
  split; [vm_compute; reflexivity|].
  apply (block_name_read 20250101000000 1 4096 "d"%char); (lia || reflexivity).
Defined.

Lemma isdigit_range c : isdigit c = true -> 48 <= code c <= 57.
Proof.
  unfold isdigit. intros H. apply andb_true_iff in H as [H1 H2].
  apply Z.leb_le in H1. apply Z.leb_le in H2. lia.
Qed.

(** Reading the digits of [x] in a loop that takes in a digit as
    [acc*10+digit] while the result stays below [bound]. *)
Lemma digits_fold {A} (F : string -> Z -> A) (bound : Z) :
  (forall c s acc, isdigit c = true -> 0 <= acc -> acc * 10 + (code c - 48) < bound ->
     F (String c s) acc = F s (acc * 10 + (code c - 48))) ->
  forall (k : nat) (x : Z) (r : string) (acc : Z),
  0 <= x < 10 ^ Z.of_nat k -> 0 <= acc ->
  acc * 10 ^ Z.of_nat k + x < bound ->
  F (digits_onto k x r) acc = F r (acc * 10 ^ Z.of_nat k + x).
Proof.
  intros Hstep. induction k as [|k IH]; intros x r acc Hx Hacc Hb.
  - cbn in *. f_equal. lia.
  - cbn [digits_onto].
    rewrite Nat2Z.inj_succ, Z.pow_succ_r in * by lia.
    assert (Hp : 0 < 10 ^ Z.of_nat k) by (apply Z.pow_pos_nonneg; lia).
    pose proof (Z.div_mod x 10 ltac:(lia)) as Hdm.
    pose proof (Z.mod_pos_bound x 10 ltac:(lia)) as Hmod.
    rewrite Z.quot_div_nonneg, Z.rem_mod_nonneg by lia.
    assert (Hq : 0 <= x / 10 < 10 ^ Z.of_nat k).
    { split; [apply Z.div_pos; lia | apply Z.div_lt_upper_bound; lia]. }
    rewrite IH; [|exact Hq | exact Hacc | nia].
    destruct (digit_char (x mod 10) ltac:(lia)) as [Hd Hc].
    rewrite Hstep; [|exact Hd | nia | rewrite Hc; nia].
    rewrite Hc. f_equal. lia.
Qed.

(** X15.  What [add] writes into the comment of a segment in streaming
    mode, [read_archive] reads back: for a size below 2^63, a date from
    19000000000000 to 29999999999999 and attributes below 2^62 whose low
    byte is 'u' or 'w', the comment [itos(size) + " " + itos(date) + " "
    + char(attr&255) + itos(attr>>8)] is parsed into the same size, date
    and attributes. *)
Theorem streaming_comment_read (size edate eattr : Z) :
  0 <= size < 2 ^ 63 -> 19000000000000 <= edate < 30000000000000 ->
  0 <= eattr < 2 ^ 62 -> Z.land eattr 255 = 117 \/ Z.land eattr 255 = 119 ->
  parse_comment (streaming_comment size edate eattr) = (size, edate, eattr).
Proof.
  intros Hsize Hdate Hattr Hlow.
  assert (Hland : Z.land eattr 255 = eattr mod 256)
    by (change 255 with (Z.ones 8); now rewrite Z.land_ones by lia).
  assert (Hshift : Z.shiftr eattr 8 = eattr / 256)
    by (now rewrite Z.shiftr_div_pow2 by lia).
  pose proof (Z.div_mod eattr 256 ltac:(lia)) as Hdm.
  assert (Hhi : 0 <= eattr / 256 < 2 ^ 54).
  { split; [apply Z.div_pos; lia | apply Z.div_lt_upper_bound; lia]. }
  destruct (itos_digits size 1 ltac:(lia) ltac:(lia)) as (ms & Es & Hs & Hs1 & _).
  destruct (itos_digits edate 1 ltac:(lia) ltac:(lia)) as (md & Ed & Hd & _ & _).
  destruct (itos_digits (eattr / 256) 1 ltac:(lia) ltac:(lia)) as (ma & Ea & Ha & _ & _).
  set (a := Z.land eattr 255) in *.
  set (tail := String (ascii_of_nat (Z.to_nat a)) (digits_onto ma (eattr / 256) "")).
  assert (Hcomment : streaming_comment size edate eattr
                     = digits_onto ms size
                         (String " " (digits_onto md edate (String " " tail)))).
  { unfold streaming_comment. fold a. rewrite Hshift, Es, Ed, Ea.
    replace (0 <? a) with true by (symmetry; apply Z.ltb_lt; lia).
    rewrite !digits_onto_app. reflexivity. }
  assert (Hsz : read_size (streaming_comment size edate eattr) 0
                = (size, String " " (digits_onto md edate (String " " tail)))).
  { rewrite Hcomment, read_size_digits by lia.
    replace (0 * 10 ^ Z.of_nat ms + size) with size by lia. reflexivity. }
  assert (Hu : comment_usize (streaming_comment size edate eattr) = size).
  { unfold comment_usize. rewrite Hsz. rewrite Hcomment at 1.
    rewrite length_digits_onto.
    destruct (Nat.eqb_spec
                (String.length (String " " (digits_onto md edate (String " " tail))))
                (ms + String.length (String " " (digits_onto md edate (String " " tail)))))
      as [E | _]; [lia | reflexivity]. }
  assert (Hrd : read_date (String " " (digits_onto md edate (String " " tail))) 0
                = (edate, String " " tail)).
  { cbn [read_date]. change (0 <? 19000000000000) with true. cbv iota.
    change (isdigit " ") with false. cbv iota.
    rewrite (digits_fold read_date 190000000000000).
    - replace (0 * 10 ^ Z.of_nat md + edate) with edate by lia.
      cbn [read_date].
      replace (edate <? 19000000000000) with false
        by (symmetry; apply Z.ltb_ge; lia).
      reflexivity.
    - intros c s acc Hc Hacc Hb. cbn [read_date].
      pose proof (isdigit_range c Hc) as Hcd.
      replace (acc <? 19000000000000) with true by (symmetry; apply Z.ltb_lt; lia).
      rewrite Hc. rewrite wrap_int64_small by lia. f_equal. lia.
    - lia.
    - lia.
    - lia. }
  assert (Hchar : code (ascii_of_nat (Z.to_nat a)) = a).
  { unfold code. rewrite nat_ascii_embedding by lia. lia. }
  assert (Hfa : read_fattr (String " " tail) 0 0 = eattr).
  { cbn [read_fattr]. change (code " ") with 32.
    change ((32 =? 117) || (32 =? 119)) with false. cbv iota.
    change (isdigit " ") with false. cbn [andb negb Z.eqb]. cbv iota.
    unfold tail. cbn [read_fattr]. rewrite Hchar.
    replace ((a =? 117) || (a =? 119)) with true
      by (symmetry; apply orb_true_iff; rewrite !Z.eqb_eq; exact Hlow).
    rewrite (digits_fold (fun s x => read_fattr s a x) (2 ^ 54)).
    - cbn [read_fattr].
      replace (a =? 0) with false by (symmetry; apply Z.eqb_neq; lia).
      cbn [negb]. rewrite wrap_int64_small by lia. lia.
    - intros c s acc Hc Hacc Hb. cbn [read_fattr].
      pose proof (isdigit_range c Hc) as Hcd.
      replace ((code c =? 117) || (code c =? 119)) with false
        by (symmetry; apply orb_false_iff; rewrite !Z.eqb_neq; lia).
      rewrite Hc.
      replace ((a =? 117) || (a =? 119)) with true
        by (symmetry; apply orb_true_iff; rewrite !Z.eqb_eq; exact Hlow).
      cbn [andb]. rewrite wrap_int64_small by lia. f_equal. lia.
    - lia.
    - lia.
    - lia. }
  unfold parse_comment. rewrite Hsz, Hrd, Hu, Hfa.
  replace ((edate <? 19000000000000) || (30000000000000 <=? edate)) with false;
    [reflexivity|].
  symmetry. apply orb_false_iff. split; [apply Z.ltb_ge | apply Z.leb_gt]; lia.
Qed.

Lemma streaming_comment_read_witness :
  streaming_comment 4096 20250101120000 (420 * 256 + 117)
  = "4096 20250101120000 u420" /\
  parse_comment (streaming_comment 4096 20250101120000 (420 * 256 + 117))
  = (4096, 20250101120000, 420 * 256 + 117).
Proof.
  split; [vm_compute; reflexivity|].
  apply (streaming_comment_read 4096 20250101120000 (420 * 256 + 117));
    [lia | lia | lia | left; reflexivity].
Defined.

End Segment.

(** ** Index records ([add] writes them, [read_archive] reads them) *)

Module Entries.

Import Reader.

(** The attributes of an update record: for Unix [itob(3)], 'u' and two
    bytes of the mode, for Windows [itob(5)], 'w' and [itob(attr>>8)],
    and [itob(0)] for any other kind. *)
Definition attr_bytes (eattr : Z) : list Z :=
  if Z.land eattr 255 =? 117 then
    Bytes.itob 3 ++ [Bytes.to_char 117;
                     Bytes.to_char (Z.land (Z.shiftr eattr 8) 255);
                     Bytes.to_char (Z.land (Z.shiftr eattr 16) 255)]
  else if Z.land eattr 255 =? 119 then
    Bytes.itob 5 ++ [Bytes.to_char 119] ++ Bytes.itob (Z.shiftr eattr 8)
  else Bytes.itob 0.

(** "Update file": date, name, NUL, attributes and the list of fragment
    pointers. *)
Definition update_record (name : list Z) (d : DT) : list Z :=
  Bytes.ltob (edate d) ++ name ++ [0] ++ attr_bytes (eattr d)
  ++ Bytes.itob (vsize (eptr d)) ++ concat (map Bytes.itob (eptr d)).

(** "Remove file": date 0, name, NUL. *)
Definition delete_record (name : list Z) : list Z := Bytes.ltob 0 ++ name ++ [0].

Definition back_date (d : DT) : Z := dtv_date (default DTV0 (last (dtv d))).
Definition back_attr (d : DT) : Z := dtv_attr (default DTV0 (last (dtv d))).
Definition back_ptr (d : DT) : list Z := dtv_ptr (default DTV0 (last (dtv d))).

(** What one turn of the loop "Append compressed index to archive"
    appends to [is] for the entry [d] of [dt] named [name]. *)
Definition index_record (force : bool) (name : list Z) (d : DT) : list Z :=
  let known := negb (bool_decide (dtv d = [])) in
  (if (written d =? 0) && (edate d =? 0) && known && negb (back_date d =? 0)
   then delete_record name else [])
  ++ (if negb (edate d =? 0)
         && (force || negb known || negb (edate d =? back_date d))
      then
        if negb known || negb (edate d =? back_date d)
           || negb (eattr d =? back_attr d)
           || negb (bool_decide (eptr d = back_ptr d))
        then update_record name d else []
      else []).

(** The attributes that come back from [attr_bytes]. *)
Definition kept_attr (eattr : Z) : Z :=
  if Z.land eattr 255 =? 117 then eattr mod 2 ^ 24
  else if Z.land eattr 255 =? 119 then eattr mod 2 ^ 40
  else 0.

(** [dtv.size] after the pointer loop: the sizes of the fragments,
    added up in [int64_t]. *)
Definition sum_sizes (h : list HT) (ptrs : list Z) (size : Z) : Z :=
  fold_left (fun acc p => wrap_int64 (acc + usize (ht_at h (Z.to_nat p)))) ptrs size.

Lemma strlen_name (name rest : list Z) :
  Forall (fun c => c <> 0) name -> strlen (name ++ 0 :: rest) = length name.
Proof.
  induction 1 as [|c name Hc _ IH]; [reflexivity|].
  cbn [app strlen length]. rewrite (proj2 (Z.eqb_neq c 0) Hc). now rewrite IH.
Qed.

Lemma read_ptrs_good (ptrs : list Z) : forall (done tail s : list Z) (a : ptr_state),
  Forall (fun p => 1 <= p < vsize (ps_ht a)) ptrs -> vsize (ps_ht a) <= 2 ^ 32 ->
  ps_ptr a = done ++ replicate (length ptrs) 0 ++ tail ->
  read_ptrs (length ptrs) (length done) (concat (map Bytes.itob ptrs) ++ s) a
  = (mkPtr (done ++ ptrs ++ tail) (sum_sizes (ps_ht a) ptrs (ps_size a))
           (sum_sizes (ps_ht a) ptrs (ps_usize a)) (ps_ht a) (ps_pass a),
     s, false).
Proof.
  induction ptrs as [|p ptrs IH]; intros done tail s a Hp Hlen Hptr.
  - cbn. destruct a; cbn in *. now rewrite Hptr.
  - apply Forall_cons in Hp as [Hp1 Hp].
    cbn [length map concat read_ptrs]. rewrite <- app_assoc.
    assert (Hl : (length (Bytes.itob p ++ concat (map Bytes.itob ptrs) ++ s) <? 4)%nat
                 = false).
    { apply Nat.ltb_ge. rewrite length_app, Bytes.length_itob. lia. }
    rewrite Hl, Bytes.btou_itob by lia.
    cbn [ps_ht ps_ptr ps_size ps_usize ps_pass].
    change (Z.shiftl 1 24) with (2 ^ 24).
    replace ((p <? 1) || (vsize (ps_ht a) + 2 ^ 24 <=? p)) with false
      by (symmetry; apply orb_false_iff; split;
          [apply Z.ltb_ge | apply Z.leb_gt]; lia).
    replace (vsize (ps_ht a) <=? p) with false by (symmetry; apply Z.leb_gt; lia).
    rewrite grow_same by lia.
    rewrite drop_app_length' by reflexivity.
    assert (Hins : <[length done := p]> (ps_ptr a)
                   = (done ++ [p]) ++ replicate (length ptrs) 0 ++ tail).
    { rewrite Hptr. cbn [length replicate app].
      rewrite insert_app_r_alt by lia. rewrite Nat.sub_diag. cbn.
      now rewrite <- app_assoc. }
    replace (S (length done)) with (length (done ++ [p]))
      by (rewrite length_app; cbn; lia).
    rewrite (IH (done ++ [p]) tail); cbn [ps_ht ps_ptr ps_size ps_usize ps_pass];
      [|exact Hp | exact Hlen | exact Hins].
    rewrite <- app_assoc. reflexivity.
Qed.

Lemma to_char_range x : 0 <= Bytes.to_char x < 256.
Proof. unfold Bytes.to_char. apply Z.mod_pos_bound. lia. Qed.

Lemma land_to_char x : Z.land (Bytes.to_char x) 255 = Bytes.to_char x.
Proof. apply Bytes.byte_at_to_char. Qed.

(** The attribute loop on what [attr_bytes] wrote. *)
Lemma read_attr_bytes (eattr : Z) (rest : list Z) :
  0 <= eattr ->
  read_attr (Z.to_nat (Bytes.btou (attr_bytes eattr ++ rest))) 0
            (drop 4 (attr_bytes eattr ++ rest)) 0
  = (kept_attr eattr, rest).
Proof.
  intros Hpos. unfold attr_bytes, kept_attr.
  assert (Hland : Z.land eattr 255 = eattr mod 256)
    by (change 255 with (Z.ones 8); now rewrite Z.land_ones by lia).
  rewrite Hland.
  destruct (Z.eqb_spec (eattr mod 256) 117) as [Hu | Hnu];
    [|destruct (Z.eqb_spec (eattr mod 256) 119) as [Hw | Hnw]].
  - rewrite <- app_assoc, Bytes.btou_itob by lia.
    rewrite drop_app_length' by reflexivity.
    change (Z.to_nat 3) with 3%nat. cbn [app read_attr].
    rewrite !land_to_char.
    pose proof (to_char_range 117) as H0.
    pose proof (to_char_range (Z.land (Z.shiftr eattr 8) 255)) as H1.
    pose proof (to_char_range (Z.land (Z.shiftr eattr 16) 255)) as H2.
    change (0 <? 8) with true. change (0 + 1 <? 8) with true.
    change (0 + 1 + 1 <? 8) with true. cbv iota.
    rewrite !Z.shiftl_mul_pow2 by lia.
    change (0 * 8) with 0. change ((0 + 1) * 8) with 8.
    change ((0 + 1 + 1) * 8) with 16.
    rewrite (wrap_int64_small (0 + _)) by lia.
    rewrite (wrap_int64_small (0 + _ + _)) by lia.
    rewrite (wrap_int64_small (0 + _ + _ + _)) by lia.
    f_equal. unfold Bytes.to_char.
    change 255 with (Z.ones 8). rewrite !Z.land_ones by lia.
    rewrite !Z.shiftr_div_pow2 by lia. rewrite !Z.mod_mod by lia.
    change (2 ^ 24) with (256 * (256 * 256)).
    rewrite (Z.rem_mul_r eattr 256 (256 * 256)) by lia.
    rewrite (Z.rem_mul_r (eattr / 256) 256 256) by lia.
    rewrite Z.div_div by lia.
    change (2 ^ 8) with 256. change (2 ^ 16) with (256 * 256).
    change (117 mod 256) with 117. lia.
  - rewrite <- !app_assoc, Bytes.btou_itob by lia.
    rewrite drop_app_length' by reflexivity.
    change (Z.to_nat 5) with 5%nat.
    unfold Bytes.itob at 1. cbn [app read_attr].
    rewrite !land_to_char.
    set (y := wrap_unsigned (Z.shiftr eattr 8)).
    pose proof (to_char_range 119) as H0.
    pose proof (to_char_range y) as H1.
    pose proof (to_char_range (Z.shiftr y 8)) as H2.
    pose proof (to_char_range (Z.shiftr y 16)) as H3.
    pose proof (to_char_range (Z.shiftr y 24)) as H4.
    change (0 <? 8) with true. change (0 + 1 <? 8) with true.
    change (0 + 1 + 1 <? 8) with true. change (0 + 1 + 1 + 1 <? 8) with true.
    change (0 + 1 + 1 + 1 + 1 <? 8) with true. cbv iota.
    rewrite !Z.shiftl_mul_pow2 by lia.
    change (0 * 8) with 0. change ((0 + 1) * 8) with 8.
    change ((0 + 1 + 1) * 8) with 16. change ((0 + 1 + 1 + 1) * 8) with 24.
    change ((0 + 1 + 1 + 1 + 1) * 8) with 32.
    rewrite (wrap_int64_small (0 + _)) by lia.
    rewrite (wrap_int64_small (0 + _ + _)) by lia.
    rewrite (wrap_int64_small (0 + _ + _ + _)) by lia.
    rewrite (wrap_int64_small (0 + _ + _ + _ + _)) by lia.
    rewrite (wrap_int64_small (0 + _ + _ + _ + _ + _)) by lia.
    f_equal. unfold Bytes.to_char in *.
    rewrite !Z.shiftr_div_pow2 by lia.
    pose proof (Bytes.four_bytes y) as Hy.
    assert (Hyr : y mod 2 ^ 32 = (eattr / 256) mod 2 ^ 32).
    { unfold y, wrap_unsigned. rewrite Z.shiftr_div_pow2 by lia.
      now rewrite Z.mod_mod by lia. }
    change (2 ^ 40) with (256 * 2 ^ 32).
    rewrite (Z.rem_mul_r eattr 256 (2 ^ 32)) by lia.
    change (119 mod 256) with 119. lia.
  - rewrite Bytes.btou_itob by lia.
    rewrite drop_app_length' by reflexivity. reflexivity.
Qed.

Lemma length_attr_bytes eattr : (4 <= length (attr_bytes eattr))%nat.
Proof.
  unfold attr_bytes. destruct (_ =? 117); [cbn; lia|].
  destruct (_ =? 119); cbn; lia.
Qed.

(** X16.  For a file that is new to the archive or whose date has
    changed, [add] writes an update record and no deletion record, with
    or without [-force], and the record is read by
    [read_archive] as a new version of that file with the same date, the
    same list of fragment pointers and the attributes of the file (of a
    Unix file the low 24 bits, of a Windows file the low 40 bits, and 0
    for any other kind); its size is the sum of the sizes that [ht] has
    for the fragments.  The record is read to its end, nothing is
    reported, and [ht] and [pass] stay as they are.  This holds for a
    name without NUL, a date [0 < edate < 2^63], attributes [>= 0] and
    pointers that are IDs of [ht]. *)
Theorem update_record_read (force : bool) (name : list Z) (d : DT)
    (rest : list Z) (st : state) :
  dtv d = [] \/ edate d <> back_date d ->
  Forall (fun c => c <> 0) name -> 0 < edate d < 2 ^ 63 -> 0 <= eattr d ->
  Forall (fun p => 1 <= p < vsize (ht st)) (eptr d) -> vsize (ht st) <= 2 ^ 32 ->
  vsize (eptr d) < 2 ^ 32 ->
  index_record force name d = update_record name d /\
  exists st',
    read_record (index_record force name d ++ rest) st = (st', rest, false) /\
    ht st' = ht st /\ pass st' = pass st /\ log st' = log st /\
    dtv <$> (dt st' !! name)
    = Some (default [] (dtv <$> (dt st !! name))
            ++ [mkDTV (edate d) (sum_sizes (ht st) (eptr d) 0)
                      (kept_attr (eattr d)) (eptr d)
                      (wrap_int (vsize (ver st) - 1))]).
Proof.
  intros Hnew Hname Hdate Hattr Hptr Hht Hn.
  assert (Hrec : index_record force name d = update_record name d).
  { unfold index_record. cbv zeta.
    replace (edate d =? 0) with false by (symmetry; apply Z.eqb_neq; lia).
    rewrite andb_false_r. cbn [andb negb app].
    destruct Hnew as [Hnil | Hchg].
    - rewrite Hnil. rewrite bool_decide_eq_true_2 by reflexivity.
      cbn [negb orb]. now rewrite orb_true_r.
    - replace (edate d =? back_date d) with false
        by (symmetry; apply Z.eqb_neq; exact Hchg).
      cbn [negb]. now rewrite !orb_true_r. }
  split; [exact Hrec|]. rewrite Hrec.
  set (P := concat (map Bytes.itob (eptr d)) ++ rest).
  set (N := Bytes.itob (vsize (eptr d)) ++ P).
  set (X := attr_bytes (eattr d) ++ N).
  assert (Hs : update_record name d ++ rest
               = Bytes.ltob (edate d) ++ name ++ 0 :: X).
  { unfold update_record, X, N, P. rewrite <- !app_assoc. reflexivity. }
  rewrite Hs. unfold read_record. cbv zeta.
  rewrite Bytes.btol_ltob by lia.
  rewrite drop_app_length' by reflexivity.
  rewrite strlen_name by exact Hname.
  rewrite take_app_length.
  replace (drop (S (length name)) (name ++ 0 :: X)) with X
    by (change (name ++ 0 :: X) with (name ++ [0] ++ X);
        rewrite app_assoc, drop_app_length';
        [reflexivity | rewrite length_app; cbn; lia]).
  replace (edate d =? 0) with false by (symmetry; apply Z.eqb_neq; lia).
  cbn [negb andb].
  assert (HX : (8 <=? length X)%nat = true).
  { apply Nat.leb_le. unfold X, N. rewrite !length_app, Bytes.length_itob.
    pose proof (length_attr_bytes (eattr d)). lia. }
  rewrite HX. unfold X at 1 2. rewrite read_attr_bytes by exact Hattr.
  assert (HN : (4 <=? length N)%nat = true).
  { apply Nat.leb_le. unfold N. rewrite length_app, Bytes.length_itob. lia. }
  rewrite HN. unfold N. rewrite Bytes.btou_itob by (unfold vsize in *; lia).
  rewrite drop_app_length' by reflexivity.
  unfold vsize at 1 2. rewrite Nat2Z.id. unfold P.
  rewrite (read_ptrs_good (eptr d) [] [] rest);
    [|exact Hptr | exact Hht | cbn; now rewrite app_nil_r].
  rewrite app_nil_r.
  eexists. split; [reflexivity|].
  cbn [ht pass log dt with_ver with_pass with_ht with_dt ps_ht ps_pass ps_ptr
       ps_size ver].
  split; [reflexivity|]. split; [reflexivity|]. split; [reflexivity|].
  rewrite lookup_insert_eq. cbn [fmap option_fmap option_map dtv].
  f_equal. f_equal.
  - destruct (dt st !! name); reflexivity.
  - f_equal. f_equal. unfold on_back, vsize. now rewrite length_alter.
Qed.

(** A table of three entries, and a new file of two fragments. *)
Definition small_table : state :=
  with_ht [HT0; mkHT (replicate 20 1) 2 30; mkHT (replicate 20 2) 1 (-1)]
          (initial None).

Definition new_file : DT := mkDT 20250101000000 3 (420 * 256 + 117) [1; 2] [] 0.

Lemma update_record_read_witness :
  index_record false [97] new_file
  = Bytes.ltob 20250101000000 ++ [97; 0] ++ Bytes.itob 3 ++ [117; 164; 1]
    ++ Bytes.itob 2 ++ Bytes.itob 1 ++ Bytes.itob 2 /\
  exists st',
    read_record (index_record false [97] new_file ++ [9]) small_table
    = (st', [9], false) /\
    dtv <$> (dt st' !! [97])
    = Some [mkDTV 20250101000000 3 (420 * 256 + 117) [1; 2] 0].
Proof.
  split; [vm_compute; reflexivity|].
  destruct (update_record_read false [97] new_file [9] small_table)
    as (_ & st' & Hread & _ & _ & _ & Hdtv).
  - now left.
  - repeat constructor; discriminate.
  - split; vm_compute; reflexivity.
  - vm_compute; discriminate.
  - repeat constructor; vm_compute; (reflexivity || discriminate).
  - vm_compute; discriminate.
  - vm_compute; reflexivity.
  - exists st'. split; [exact Hread|]. rewrite Hdtv. vm_compute. reflexivity.
Defined.

(** X17.  For a file of the archive that is selected and no longer
    exists outside ([edate] is 0 and the last version is not a
    deletion), [add] writes a deletion record and no update record, and
    [read_archive] reads it as a new version with date 0 (deleted), no
    size, attributes or fragments, and counts a deletion for the
    update.  The record is read to its end, and [ht], [pass] and the
    diagnostics stay as they are. *)
Theorem delete_record_read (force : bool) (name : list Z) (d : DT)
    (rest : list Z) (st : state) :
  written d = 0 -> edate d = 0 -> dtv d <> [] -> back_date d <> 0 ->
  Forall (fun c => c <> 0) name ->
  index_record force name d = delete_record name /\
  exists st',
    read_record (index_record force name d ++ rest) st = (st', rest, false) /\
    ht st' = ht st /\ pass st' = pass st /\ log st' = log st /\
    dtv <$> (dt st' !! name)
    = Some (default [] (dtv <$> (dt st !! name))
            ++ [mkDTV 0 0 0 [] (wrap_int (vsize (ver st) - 1))]) /\
    ver_deletes <$> last (ver st')
    = (fun v => wrap_int (ver_deletes v + 1)) <$> last (ver st).
Proof.
  intros Hw He Hd Hb Hname.
  assert (Hrec : index_record force name d = delete_record name).
  { unfold index_record. cbv zeta. rewrite Hw, He.
    rewrite (bool_decide_eq_false_2 _ Hd).
    replace (back_date d =? 0) with false by (symmetry; apply Z.eqb_neq; exact Hb).
    cbn [Z.eqb negb andb]. apply app_nil_r. }
  split; [exact Hrec|]. rewrite Hrec.
  assert (Hs : delete_record name ++ rest = Bytes.ltob 0 ++ name ++ 0 :: rest).
  { unfold delete_record. rewrite <- !app_assoc. reflexivity. }
  rewrite Hs. unfold read_record. cbv zeta.
  rewrite Bytes.btol_ltob by lia.
  rewrite drop_app_length' by reflexivity.
  rewrite strlen_name by exact Hname.
  rewrite take_app_length.
  replace (drop (S (length name)) (name ++ 0 :: rest)) with rest
    by (change (name ++ 0 :: rest) with (name ++ [0] ++ rest);
        rewrite app_assoc, drop_app_length';
        [reflexivity | rewrite length_app; cbn; lia]).
  cbn [Z.eqb negb andb].
  eexists. split; [reflexivity|].
  cbn [ht pass log dt ver with_ver with_dt].
  split; [reflexivity|]. split; [reflexivity|]. split; [reflexivity|]. split.
  - rewrite lookup_insert_eq. cbn [fmap option_fmap option_map dtv].
    f_equal. f_equal.
    + destruct (dt st !! name); reflexivity.
    + f_equal. f_equal. unfold on_back, vsize. now rewrite length_alter.
  - unfold on_back. destruct (ver st) as [|v vs] using rev_ind; [reflexivity|].
    rewrite length_app. cbn [length].
    replace (length vs + 1 - 1)%nat with (length vs + 0)%nat by lia.
    rewrite alter_app_r. cbn. now rewrite !last_snoc.
Qed.

Definition gone_file : DT :=
  mkDT 0 0 0 [] [mkDTV 20250101000000 3 (420 * 256 + 117) [1; 2] 1] 0.

Lemma delete_record_read_witness :
  index_record false [97] gone_file = Bytes.ltob 0 ++ [97; 0] /\
  exists st',
    read_record (index_record false [97] gone_file ++ [9]) small_table
    = (st', [9], false) /\
    dtv <$> (dt st' !! [97]) = Some [mkDTV 0 0 0 [] 0].
Proof.
  split; [vm_compute; reflexivity|].
  destruct (delete_record_read false [97] gone_file [9] small_table)
    as (_ & st' & Hread & _ & _ & _ & Hdtv & _).
  - reflexivity.
  - reflexivity.
  - discriminate.
  - vm_compute; discriminate.
  - repeat constructor; discriminate.
  - exists st'. split; [exact Hread|]. rewrite Hdtv. vm_compute. reflexivity.
Defined.

End Entries.

(** ** Planning an extraction ([Jidac::extract]) *)

Module Extract.

(** [struct Block]: a data block and the files that point into it.  The
    constructor sets [size] to 0 and leaves [streaming] without a value
    ([None]). *)
Record Block := mkBlock {
  b_offset : Z;                 (* int64_t: location in archive *)
  b_files : list (list Z);      (* the files pointing here, by name *)
  b_start : Z;                  (* unsigned: index in ht of first fragment *)
  b_size : Z;                   (* int: number of fragments to decompress *)
  b_streaming : option bool
}.

Definition set_streaming (b : Block) : Block :=
  mkBlock (b_offset b) (b_files b) (b_start b) (b_size b) (Some true).

(** "Map fragments to blocks": one turn of the loop, at fragment [i].
    [hti] maps a fragment to the index of its block.  (With no block in
    the list yet the source uses [back()] of an empty vector; the model
    leaves the list as it is.  The local [usize] of the loop is written
    and never read.) *)
Definition map_step (ht : list HT) (acc : list Block * list Z) (i : nat)
  : list Block * list Z :=
  let '(block, hti) := acc in
  let e := ht_at ht i in
  let block := if 0 <=? csize e
               then block ++ [mkBlock (csize e) [] (Z.of_nat i) 0 None]
               else block in
  let hti := <[i := wrap_unsigned (vsize block - 1)]> hti in
  let block := if (usize e <? 0) || (Z.shiftl 1 24 <? usize e)
               then alter set_streaming (length block - 1)%nat block
               else block in
  (block, hti).

Definition map_fragments (ht : list HT) : list Block * list Z :=
  fold_left (map_step ht) (seq 1 (length ht - 1)) ([], replicate (length ht) 0).

(** The body of the loop over the pointers of a file [name] whose last
    version has size [fsize]: pointer [j]. *)
Definition want (ht : list HT) (hti : list Z) (name : list Z) (fsize : Z)
    (block : list Block) (j : Z) : list Block :=
  if (j =? 0) || (vsize ht <=? j) then block   (* "bad frag IDs, skipping" *)
  else
    let c := wrap_int64 (- csize (ht_at ht (Z.to_nat j))) in
    let c := if c <? 0 then 0 else c in
    let bi := Z.to_nat (default 0 (hti !! Z.to_nat j)) in
    alter (fun b =>
             mkBlock (b_offset b)
                     (if bool_decide (b_files b = []) || negb (bool_decide (last (b_files b) = Some name))
                      then b_files b ++ [name] else b_files b)
                     (b_start b)
                     (if b_size b <=? c then wrap_int (c + 1) else b_size b)
                     (if fsize <? 0 then Some true else b_streaming b))
          bi block.

(** A file is extracted if it is marked ([written] is 0) and its last
    version is not a deletion. *)
Definition selected (d : DT) : bool :=
  negb (bool_decide (dtv d = []))
  && negb (dtv_date (default DTV0 (last (dtv d))) =? 0)
  && (written d =? 0).

Section Plan.

(** [-force], and whether a file of that name exists outside. *)
Variable force : bool.
Variable exists_outside : list Z -> bool.

(** The loop over [dt] (in the order of the names): [None] when the
    program stops with "won't clobber existing files without -force". *)
Fixpoint plan (ht : list HT) (hti : list Z) (entries : list (list Z * DT))
    (block : list Block) : option (list Block) :=
  match entries with
  | [] => Some block
  | (name, d) :: entries' =>
      if selected d then
        if negb force && exists_outside name then None
        else
          let v := default DTV0 (last (dtv d)) in
          plan ht hti entries'
               (fold_left (want ht hti name (dtv_size v)) (dtv_ptr v) block)
      else plan ht hti entries' block
  end.

(** The blocks that [extract] hands to the decompression threads. *)
Definition extract_plan (ht : list HT) (entries : list (list Z * DT))
  : option (list Block) :=
  let '(block, hti) := map_fragments ht in plan ht hti entries block.

End Plan.

(** *** Every fragment of a file is in the plan *)

(** The first fragment of the block of fragment [j], as the locators
    say: [j] itself if its locator is an offset, and [-csize] entries
    back otherwise. *)
Definition home (ht : list HT) (j : Z) : Z :=
  let c := csize (ht_at ht (Z.to_nat j)) in
  if 0 <=? c then j else j + c.

(** The table as [read_archive] leaves it when nothing went wrong: each
    fragment after the first of its block has the locator -1, -2, ... in
    turn, and the entries are fewer than 2^31. *)
Definition located_table (ht : list HT) : Prop :=
  vsize ht < 2 ^ 31 /\
  forall j, 1 <= j < vsize ht ->
    1 <= home ht j <= j /\
    0 <= csize (ht_at ht (Z.to_nat (home ht j))) < 2 ^ 63 /\
    forall k, home ht j < k <= j -> csize (ht_at ht (Z.to_nat k)) = home ht j - k.

Lemma home_same ht j k :
  located_table ht -> 1 <= j < vsize ht -> home ht j <= k <= j ->
  home ht k = home ht j.
Proof.
  intros [_ H] Hj Hk. destruct (H j Hj) as (Hh & Hc & Hrun).
  destruct (Z.eq_dec k (home ht j)) as [-> | Hne].
  - unfold home at 1. replace (0 <=? _) with true by (symmetry; apply Z.leb_le; lia).
    reflexivity.
  - unfold home at 1. rewrite (Hrun k) by lia.
    replace (0 <=? home ht j - k) with false by (symmetry; apply Z.leb_gt; lia).
    lia.
Qed.

(** [hti] and the blocks after fragments 1 to [n]. *)
Record mapped (ht : list HT) (n : nat) (block : list Block) (hti : list Z) : Prop := {
  m_hti : length hti = length ht;
  m_count : (length block <= n)%nat;
  m_fresh : Forall (fun b => b_size b = 0 /\ b_files b = []) block;
  m_last : (1 <= n)%nat ->
           exists b, last block = Some b /\ b_start b = home ht (Z.of_nat n);
  m_home : forall j : nat, (1 <= j <= n)%nat ->
           exists (idx : nat) b,
             hti !! j = Some (Z.of_nat idx) /\ block !! idx = Some b /\
             b_start b = home ht (Z.of_nat j)
}.

Lemma alter_streaming_lookup (block : list Block) (i idx : nat) b :
  block !! idx = Some b ->
  exists b', alter set_streaming i block !! idx = Some b' /\
             b_start b' = b_start b /\ b_size b' = b_size b /\
             b_files b' = b_files b.
Proof.
  intros Hb. destruct (decide (idx = i)) as [-> | Hne].
  - rewrite list_lookup_alter_eq, Hb. cbn. eauto.
  - rewrite list_lookup_alter_ne by congruence. eauto.
Qed.

Lemma mapped_streaming ht n block hti i :
  mapped ht n block hti -> mapped ht n (alter set_streaming i block) hti.
Proof.
  intros [Hh Hc Hf Hl Hm]. split.
  - exact Hh.
  - now rewrite length_alter.
  - apply Forall_forall. intros b' Hb'.
    apply list_elem_of_lookup in Hb' as [idx Hidx].
    destruct (block !! idx) as [b|] eqn:Hb.
    + destruct (alter_streaming_lookup block i idx b Hb) as (b2 & H2 & _ & Hs & Hfi).
      rewrite Hidx in H2. injection H2 as ->.
      rewrite Forall_forall in Hf.
      destruct (Hf b (list_elem_of_lookup_2 _ _ _ Hb)) as [? ?].
      split; congruence.
    + apply lookup_ge_None in Hb. apply lookup_lt_Some in Hidx.
      rewrite length_alter in Hidx. lia.
  - intros Hn. destruct (Hl Hn) as (b & Hlast & Hst).
    rewrite last_lookup in Hlast. rewrite last_lookup, length_alter.
    destruct (alter_streaming_lookup block i _ b Hlast) as (b2 & H2 & Hs & _).
    exists b2. split; [exact H2 | congruence].
  - intros j Hj. destruct (Hm j Hj) as (idx & b & Hi & Hb & Hst).
    destruct (alter_streaming_lookup block i idx b Hb) as (b2 & H2 & Hs & _).
    exists idx, b2. split; [exact Hi|]. split; [exact H2 | congruence].
Qed.

Lemma mapped_step ht n block hti :
  located_table ht -> (S n < length ht)%nat ->
  mapped ht n block hti ->
  mapped ht (S n) (map_step ht (block, hti) (S n)).1 (map_step ht (block, hti) (S n)).2.
Proof.
  intros Hloc Hn Hm. pose proof Hloc as [Hsize Hl].
  destruct (Hl (Z.of_nat (S n)) ltac:(unfold vsize; lia)) as (Hh & Hc & Hrun).
  unfold map_step. cbv zeta.
  set (e := ht_at ht (S n)).
  set (block1 := if 0 <=? csize e
                 then block ++ [mkBlock (csize e) [] (Z.of_nat (S n)) 0 None]
                 else block).
  set (hti1 := <[S n := wrap_unsigned (vsize block1 - 1)]> hti).
  assert (Hm1 : mapped ht (S n) block1 hti1).
  { destruct Hm as [Hhti Hcount Hfresh Hlast Hhome].
    assert (Hhome_e : home ht (Z.of_nat (S n))
                      = if 0 <=? csize e then Z.of_nat (S n)
                        else Z.of_nat (S n) + csize e).
    { unfold home. rewrite Nat2Z.id. reflexivity. }
    assert (Hb1 : exists b, last block1 = Some b /\ b_start b = home ht (Z.of_nat (S n))).
    { unfold block1. destruct (Z.leb_spec 0 (csize e)) as [Hpos | Hneg].
      - eexists. rewrite last_snoc. split; [reflexivity|]. now rewrite Hhome_e.
      - assert (Hn1 : (1 <= n)%nat) by lia.
        destruct (Hlast Hn1) as (b & Hb & Hst). exists b. split; [exact Hb|].
        rewrite Hst. apply home_same; [exact Hloc | unfold vsize; lia | lia]. }
    assert (Hlen1 : (1 <= length block1 <= S n)%nat).
    { destruct Hb1 as (b & Hb & _). rewrite last_lookup in Hb.
      apply lookup_lt_Some in Hb. split; [lia|].
      unfold block1. destruct (0 <=? csize e); [rewrite length_app; cbn; lia | lia]. }
    assert (Hidx : wrap_unsigned (vsize block1 - 1)
                   = Z.of_nat (Nat.pred (length block1))).
    { unfold vsize in *. rewrite wrap_unsigned_small by lia. lia. }
    split.
    - unfold hti1. now rewrite length_insert.
    - lia.
    - unfold block1. destruct (0 <=? csize e); [|exact Hfresh].
      apply Forall_app. split; [exact Hfresh|]. now repeat constructor.
    - intros _. exact Hb1.
    - intros j Hj. destruct (decide (j = S n)) as [-> | Hne].
      + destruct Hb1 as (b & Hb & Hst). rewrite last_lookup in Hb.
        exists (Nat.pred (length block1)), b.
        split; [|split; [exact Hb | exact Hst]].
        unfold hti1. rewrite list_lookup_insert_eq by lia. now rewrite Hidx.
      + destruct (Hhome j ltac:(lia)) as (idx & b & Hi & Hb & Hst).
        exists idx, b. split; [|split; [|exact Hst]].
        * unfold hti1. now rewrite list_lookup_insert_ne by congruence.
        * unfold block1. destruct (0 <=? csize e); [|exact Hb].
          now apply lookup_app_l_Some. }
  destruct ((usize e <? 0) || (Z.shiftl 1 24 <? usize e)); cbn [fst snd];
    [now apply mapped_streaming | exact Hm1].
Qed.

Lemma mapped_fold ht (n : nat) :
  located_table ht -> (n < length ht)%nat ->
  let r := fold_left (map_step ht) (seq 1 n) ([], replicate (length ht) 0) in
  mapped ht n r.1 r.2.
Proof.
  intros Hloc. induction n as [|n IH]; intros Hn r.
  - subst r. cbn. split; cbn.
    + apply length_replicate.
    + lia.
    + constructor.
    + lia.
    + intros j Hj. lia.
  - subst r. rewrite seq_S, fold_left_app. cbn [fold_left Nat.add].
    specialize (IH ltac:(lia)). cbv zeta in IH.
    destruct (fold_left (map_step ht) (seq 1 n) ([], replicate (length ht) 0))
      as [block hti].
    now apply mapped_step.
Qed.

(** What [decompressThread] asserts of a block that it decompresses:
    [b.start>0], [b.start+b.size<=ht.size()] and [ht[b.start+j].csize==-j]
    for [0 < j < b.size]. *)
Definition sound (ht : list HT) (b : Block) : Prop :=
  0 <= b_size b /\
  (0 < b_size b ->
   1 <= b_start b /\ b_start b + b_size b <= vsize ht /\
   forall k, 0 < k < b_size b ->
     csize (ht_at ht (Z.to_nat (b_start b + k))) = - k).

(** Fragment [j] of file [name] is extracted: a block of the plan lists
    the file and decompresses far enough. *)
Definition covered (block : list Block) (name : list Z) (j : Z) : Prop :=
  exists b, b ∈ block /\ name ∈ b_files b /\
            b_start b <= j < b_start b + b_size b.

(** The plan only grows: the blocks stay, no file is taken off a block
    and no block is cut short. *)
Definition grows (block block' : list Block) : Prop :=
  forall idx b, block !! idx = Some b ->
    exists b', block' !! idx = Some b' /\ b_start b' = b_start b /\
               b_size b <= b_size b' /\
               forall nm, nm ∈ b_files b -> nm ∈ b_files b'.

Lemma grows_refl block : grows block block.
Proof. intros idx b Hb. exists b. repeat split; (assumption || lia || auto). Qed.

Lemma grows_trans a b c : grows a b -> grows b c -> grows a c.
Proof.
  intros Hab Hbc idx x Hx.
  destruct (Hab idx x Hx) as (y & Hy & Hs & Hz & Hf).
  destruct (Hbc idx y Hy) as (z & Hz' & Hs' & Hz2 & Hf').
  exists z. split; [exact Hz'|]. split; [congruence|]. split; [lia | auto].
Qed.

Lemma covered_grows block block' name j :
  grows block block' -> covered block name j -> covered block' name j.
Proof.
  intros Hg (b & Hb & Hn & Hj).
  apply list_elem_of_lookup in Hb as [idx Hidx].
  destruct (Hg idx b Hidx) as (b' & Hb' & Hs & Hz & Hf).
  exists b'. split; [eapply list_elem_of_lookup_2; exact Hb'|].
  split; [auto | lia].
Qed.

(** Where [hti] sends the fragments, as "Map fragments to blocks" leaves
    it, and the blocks with their starts. *)
Definition homes (ht : list HT) (hti : list Z) (block : list Block) : Prop :=
  forall j : nat, (1 <= j < length ht)%nat ->
    exists (idx : nat) b,
      hti !! j = Some (Z.of_nat idx) /\ block !! idx = Some b /\
      b_start b = home ht (Z.of_nat j).

Lemma homes_grows ht hti block block' :
  homes ht hti block -> grows block block' -> homes ht hti block'.
Proof.
  intros Hh Hg j Hj. destruct (Hh j Hj) as (idx & b & Hi & Hb & Hs).
  destruct (Hg idx b Hb) as (b' & Hb' & Hs' & _).
  exists idx, b'. split; [exact Hi|]. split; [exact Hb' | congruence].
Qed.

Lemma want_step ht hti name fsize block j :
  located_table ht -> homes ht hti block -> Forall (sound ht) block -> 0 <= j ->
  let block' := want ht hti name fsize block j in
  Forall (sound ht) block' /\ grows block block' /\
  (1 <= j < vsize ht -> covered block' name j).
Proof.
  intros Hloc Hh Hs Hj0 block'. subst block'. unfold want.
  destruct ((j =? 0) || (vsize ht <=? j)) eqn:Hbad.
  { split; [exact Hs|]. split; [apply grows_refl|]. intros Hj.
    apply orb_true_iff in Hbad as [H | H];
      [apply Z.eqb_eq in H | apply Z.leb_le in H]; lia. }
  apply orb_false_iff in Hbad as [H0 Hlt].
  apply Z.eqb_neq in H0. apply Z.leb_gt in Hlt.
  destruct Hloc as [Hsize Hl].
  assert (Hjn : (1 <= Z.to_nat j < length ht)%nat) by (unfold vsize in *; lia).
  destruct (Hh (Z.to_nat j) Hjn) as (idx & b & Hi & Hb & Hst).
  rewrite Z2Nat.id in Hst by lia.
  destruct (Hl j ltac:(lia)) as (Hhome & Hc & Hrun).
  cbv zeta. rewrite Hi. cbn [default from_option id]. rewrite Nat2Z.id.
  set (cj := csize (ht_at ht (Z.to_nat j))) in *.
  assert (Hcval : (if wrap_int64 (- cj) <? 0 then 0 else wrap_int64 (- cj))
                  = j - home ht j).
  { unfold home in *. fold cj in Hhome, Hc |- *.
    destruct (Z.leb_spec 0 cj) as [Hge | Hlt0].
    - rewrite wrap_int64_small by lia.
      destruct (Z.ltb_spec (- cj) 0); lia.
    - rewrite wrap_int64_small by lia.
      destruct (Z.ltb_spec (- cj) 0); lia. }
  rewrite Hcval.
  set (c := j - home ht j) in *.
  set (f := fun b : Block => _).
  assert (Hfb : b_start (f b) = b_start b /\ b_size b <= b_size (f b)
                /\ c + 1 <= b_size (f b)
                /\ (b_size (f b) = b_size b \/ b_size (f b) = c + 1)
                /\ (forall nm, nm ∈ b_files b -> nm ∈ b_files (f b))
                /\ name ∈ b_files (f b)).
  { unfold f. cbn [b_start b_size b_files].
    split; [reflexivity|].
    assert (Hw : wrap_int (c + 1) = c + 1) by (apply wrap_int_small; lia).
    rewrite Hw.
    split; [destruct (Z.leb_spec (b_size b) c); lia|].
    split; [destruct (Z.leb_spec (b_size b) c); lia|].
    split; [destruct (Z.leb_spec (b_size b) c); [now right | now left]|].
    split.
    - intros nm Hnm. destruct (_ || _); [apply elem_of_app; now left | exact Hnm].
    - destruct (bool_decide (b_files b = [])) eqn:E1; cbn [orb].
      + apply elem_of_app. right. now left.
      + destruct (bool_decide (last (b_files b) = Some name)) eqn:E2; cbn [negb].
        * apply bool_decide_eq_true_1 in E2. rewrite last_lookup in E2.
          eapply list_elem_of_lookup_2. exact E2.
        * apply elem_of_app. right. now left. }
  destruct Hfb as (Hfs & Hfz & Hfc & Hfeq & Hff & Hfn).
  assert (Hlook : alter f idx block !! idx = Some (f b))
    by (now rewrite list_lookup_alter_eq, Hb).
  split; [|split].
  - apply Forall_forall. intros x Hx.
    apply list_elem_of_lookup in Hx as [i Hix].
    destruct (decide (i = idx)) as [-> | Hne].
    + rewrite Hlook in Hix. injection Hix as <-.
      rewrite Forall_forall in Hs.
      pose proof (Hs b (list_elem_of_lookup_2 _ _ _ Hb)) as [Hb0 Hbs].
      split; [lia|]. intros Hpos'.
      destruct Hfeq as [Heq | Heq].
      * rewrite Hfs, Heq. apply Hbs. lia.
      * rewrite Hfs, Heq, Hst. unfold c.
        split; [lia|]. split; [lia|].
        intros k Hk. rewrite Hrun by lia. lia.
    + rewrite list_lookup_alter_ne in Hix by congruence.
      rewrite Forall_forall in Hs. apply Hs.
      eapply list_elem_of_lookup_2. exact Hix.
  - intros i x Hx. destruct (decide (i = idx)) as [-> | Hne].
    + rewrite Hb in Hx. injection Hx as <-.
      exists (f b). split; [exact Hlook|]. split; [exact Hfs|]. split; [lia | exact Hff].
    + exists x. rewrite list_lookup_alter_ne by congruence.
      split; [exact Hx|]. split; [reflexivity|]. split; [lia | auto].
  - intros _. exists (f b).
    split; [eapply list_elem_of_lookup_2; exact Hlook|].
    split; [exact Hfn|]. rewrite Hfs, Hst. unfold c in Hfc. lia.
Qed.

Lemma want_all ht hti name fsize (ptrs : list Z) : forall block,
  located_table ht -> homes ht hti block -> Forall (sound ht) block ->
  Forall (fun j => 0 <= j) ptrs ->
  let block' := fold_left (want ht hti name fsize) ptrs block in
  Forall (sound ht) block' /\ grows block block' /\
  forall j, j ∈ ptrs -> 1 <= j < vsize ht -> covered block' name j.
Proof.
  induction ptrs as [|p ptrs IH]; intros block Hloc Hh Hs Hp; cbn [fold_left].
  - split; [exact Hs|]. split; [apply grows_refl|].
    intros j Hj. now apply elem_of_nil in Hj.
  - apply Forall_cons in Hp as [Hp0 Hp].
    destruct (want_step ht hti name fsize block p Hloc Hh Hs Hp0) as (Hs1 & Hg1 & Hc1).
    destruct (IH _ Hloc (homes_grows _ _ _ _ Hh Hg1) Hs1 Hp) as (Hs2 & Hg2 & Hc2).
    split; [exact Hs2|]. split; [eapply grows_trans; eassumption|].
    intros j Hj Hr. apply elem_of_cons in Hj as [-> | Hj].
    + eapply covered_grows; [exact Hg2 | now apply Hc1].
    + now apply Hc2.
Qed.

(** The last version of a file, and the entries whose pointers are
    values of [unsigned]. *)
Definition back (d : DT) : DTV := default DTV0 (last (dtv d)).

Definition unsigned_ptrs (entries : list (list Z * DT)) : Prop :=
  Forall (fun e => Forall (fun j => 0 <= j) (dtv_ptr (back e.2))) entries.

Lemma plan_spec force exists_outside ht hti (entries : list (list Z * DT)) :
  forall block final,
  located_table ht -> homes ht hti block -> Forall (sound ht) block ->
  unsigned_ptrs entries ->
  plan force exists_outside ht hti entries block = Some final ->
  Forall (sound ht) final /\ grows block final /\
  forall name d j, (name, d) ∈ entries -> selected d = true ->
    j ∈ dtv_ptr (back d) -> 1 <= j < vsize ht -> covered final name j.
Proof.
  induction entries as [|[name d] entries IH]; intros block final Hloc Hh Hs Hu;
    cbn [plan].
  - intros [= <-]. split; [exact Hs|]. split; [apply grows_refl|].
    intros name d j Hin. now apply elem_of_nil in Hin.
  - apply Forall_cons in Hu as [Hu0 Hu]. cbn [snd] in Hu0.
    destruct (selected d) eqn:Hsel.
    + destruct (negb force && exists_outside name); [discriminate|].
      cbv zeta. fold (back d). intros Hplan.
      destruct (want_all ht hti name (dtv_size (back d)) (dtv_ptr (back d)) block
                         Hloc Hh Hs Hu0) as (Hs1 & Hg1 & Hc1).
      destruct (IH _ _ Hloc (homes_grows _ _ _ _ Hh Hg1) Hs1 Hu Hplan)
        as (Hs2 & Hg2 & Hc2).
      split; [exact Hs2|]. split; [eapply grows_trans; eassumption|].
      intros name' d' j Hin Hsel' Hj Hr.
      apply elem_of_cons in Hin as [[= -> ->] | Hin].
      * eapply covered_grows; [exact Hg2 | now apply Hc1].
      * now apply (Hc2 name' d').
    + intros Hplan.
      destruct (IH _ _ Hloc Hh Hs Hu Hplan) as (Hs2 & Hg2 & Hc2).
      split; [exact Hs2|]. split; [exact Hg2|].
      intros name' d' j Hin Hsel' Hj Hr.
      apply elem_of_cons in Hin as [[= -> ->] | Hin]; [congruence|].
      now apply (Hc2 name' d').
Qed.

(** X18.  Let the fragment table be as [read_archive] leaves it for a
    sound archive (fewer than 2^31 entries, and after the first
    fragment of each data block the locators -1, -2, ...).  When
    [extract] does not stop at a file it would overwrite, its plan has,
    for every fragment that the last version of a selected file points
    to, a block that lists the file and is decompressed far enough to
    hold the fragment; and every block of the plan that is decompressed
    at all starts at a fragment ID of 1 or more, ends within the table
    and runs over fragments with the locators -1, -2, ... in turn, as
    [decompressThread] asserts. *)
Theorem plan_covers (force : bool) (exists_outside : list Z -> bool)
    (ht : list HT) (entries : list (list Z * DT)) (block : list Block) :
  located_table ht -> unsigned_ptrs entries ->
  extract_plan force exists_outside ht entries = Some block ->
  Forall (sound ht) block /\
  forall name d j, (name, d) ∈ entries -> selected d = true ->
    j ∈ dtv_ptr (back d) -> 1 <= j < vsize ht -> covered block name j.
Proof.
  intros Hloc Hu. unfold extract_plan, map_fragments.
  destruct (fold_left (map_step ht) (seq 1 (length ht - 1))
                      ([], replicate (length ht) 0)) as [block0 hti] eqn:Hmap.
  intros Hplan.
  assert (Hm : homes ht hti block0 /\ Forall (sound ht) block0).
  { destruct (decide (length ht = 0%nat)) as [Hz | Hnz].
    - rewrite Hz in Hmap. cbn in Hmap. injection Hmap as <- <-.
      split; [intros j Hj; lia | constructor].
    - pose proof (mapped_fold ht (length ht - 1) Hloc ltac:(lia)) as Hmf.
      cbv zeta in Hmf. rewrite Hmap in Hmf. cbn [fst snd] in Hmf.
      destruct Hmf as [_ _ Hfresh _ Hhome]. split.
      + intros j Hj. apply Hhome. lia.
      + eapply Forall_impl; [exact Hfresh|]. intros b [Hz _].
        split; [lia | intros; lia]. }
  destruct Hm as [Hh Hs].
  destruct (plan_spec force exists_outside ht hti entries block0 block
                      Hloc Hh Hs Hu Hplan) as (Hs' & _ & Hc).
  split; [exact Hs' | exact Hc].
Qed.

(** A table of one data block of two fragments, and a file of both. *)
Definition one_block : list HT :=
  [HT0; mkHT (replicate 20 1) 2 30; mkHT (replicate 20 2) 1 (-1)].

Definition one_file : list (list Z * DT) :=
  [([97], mkDT 0 0 0 [] [mkDTV 20250101000000 3 0 [1; 2] 1] 0)].

Lemma plan_covers_witness :
  extract_plan false (fun _ => false) one_block one_file
  = Some [mkBlock 30 [[97]] 1 2 None] /\
  covered [mkBlock 30 [[97]] 1 2 None] [97] 2.
Proof.
  assert (Hplan : extract_plan false (fun _ => false) one_block one_file
                  = Some [mkBlock 30 [[97]] 1 2 None]) by (vm_compute; reflexivity).
  split; [exact Hplan|].
  assert (Hloc : located_table one_block).
  { split; [vm_compute; reflexivity|]. intros j Hj.
    assert (Hj' : j = 1 \/ j = 2) by (unfold vsize, one_block in Hj; cbn in Hj; lia).
    destruct Hj' as [-> | ->].
    - change (home one_block 1) with 1.
      split; [lia|]. split; [vm_compute; split; [discriminate | reflexivity]|].
      intros k Hk. lia.
    - change (home one_block 2) with 1.
      split; [lia|]. split; [vm_compute; split; [discriminate | reflexivity]|].
      intros k Hk. replace k with 2 by lia. reflexivity. }
  assert (Hu : unsigned_ptrs one_file).
  { repeat constructor; cbn; lia. }
  destruct (plan_covers false (fun _ => false) one_block one_file _ Hloc Hu Hplan)
    as [_ Hc].
  apply (Hc [97] (mkDT 0 0 0 [] [mkDTV 20250101000000 3 0 [1; 2] 1] 0) 2).
  - left.
  - reflexivity.
  - right. left.
  - vm_compute. split; [discriminate | reflexivity].
Defined.

End Extract.

(** ** The byte buffer ([StringBuffer]) *)

Module Buffer.

(** The allocated memory [p] (its length is [al]), the write and read
    positions and the limit.  Sizes are values of [size_t]; they stay
    below 2^64 and the model computes them without wrap-around.  An
    allocation that fails ends the program and is not modelled. *)
Record StringBuffer := mkBuffer {
  p : list Z;
  wpos : Z;
  rpos : Z;
  limit : Z
}.

Definition al (sb : StringBuffer) : Z := vsize (p sb).

Section Memory.

(** What [malloc] and [realloc] leave in the bytes they add. *)
Variable junk : Z.

(** [StringBuffer(size_t n=0)] *)
Definition new (n : Z) : StringBuffer :=
  mkBuffer (replicate (Z.to_nat (if n <? 128 then 128 else n)) junk) 0 0 (2 ^ 64 - 1).

(** [void reserve(size_t a)] *)
Definition reserve (a : Z) (sb : StringBuffer) : StringBuffer :=
  if a <=? al sb then sb
  else mkBuffer (p sb ++ replicate (Z.to_nat (a - al sb)) junk)
                (wpos sb) (rpos sb) (limit sb).

(** [while (wpos+n>=a) a=a*2+128;], [need] being [wpos+n]; 64 turns
    take any [a > 0] past 2^64. *)
Fixpoint enlarge (fuel : nat) (a need : Z) : Z :=
  match fuel with
  | O => a
  | S fuel' => if a <=? need then enlarge fuel' (a * 2 + 128) need else a
  end.

(** [void lengthen(unsigned n)]; [None] is [error("StringBuffer
    overflow")]. *)
Definition lengthen (n : Z) (sb : StringBuffer) : option StringBuffer :=
  if limit sb <? wpos sb + n then None
  else if wpos sb + n <? al sb then Some sb
  else Some (reserve (enlarge 64 (al sb) (wpos sb + n)) sb).

(** [void put(int c)]: the byte is stored as an [unsigned char]. *)
Definition put (c : Z) (sb : StringBuffer) : option StringBuffer :=
  match lengthen 1 sb with
  | Some sb =>
      Some (mkBuffer (<[Z.to_nat (wpos sb) := c mod 256]> (p sb))
                     (wpos sb + 1) (rpos sb) (limit sb))
  | None => None
  end.

(** [void write(const char* buf, int n)], [n] the length of [buf]. *)
Definition write (buf : list Z) (sb : StringBuffer) : option StringBuffer :=
  match lengthen (vsize buf) sb with
  | Some sb =>
      Some (mkBuffer (take (Z.to_nat (wpos sb)) (p sb)
                      ++ map (fun c => c mod 256) buf
                      ++ drop (Z.to_nat (wpos sb) + length buf) (p sb))
                     (wpos sb + vsize buf) (rpos sb) (limit sb))
  | None => None
  end.

End Memory.

(** [void reset()] *)
Definition reset (sb : StringBuffer) : StringBuffer :=
  mkBuffer (p sb) 0 0 (limit sb).

(** [int get()]: "Return EOF (-1) and reset at end of string". *)
Definition get (sb : StringBuffer) : Z * StringBuffer :=
  if rpos sb <? wpos sb
  then (default 0 (p sb !! Z.to_nat (rpos sb)),
        mkBuffer (p sb) (wpos sb) (rpos sb + 1) (limit sb))
  else (-1, reset sb).

(** [int read(char* buf, int n)]: the bytes copied to [buf]; their
    number is the value returned. *)
Definition read (n : Z) (sb : StringBuffer) : list Z * StringBuffer :=
  let n := if wpos sb <? rpos sb + n then wpos sb - rpos sb else n in
  (if 0 <? n then take (Z.to_nat n) (drop (Z.to_nat (rpos sb)) (p sb)) else [],
   mkBuffer (p sb) (wpos sb) (rpos sb + n) (limit sb)).

(** [size_t size()], [size_t remaining()], [void setLimit(size_t n)],
    [void resize(size_t i)]. *)
Definition size (sb : StringBuffer) : Z := wpos sb.
Definition remaining (sb : StringBuffer) : Z := wpos sb - rpos sb.
Definition setLimit (n : Z) (sb : StringBuffer) : StringBuffer :=
  mkBuffer (p sb) (wpos sb) (rpos sb) n.
Definition resize (i : Z) (sb : StringBuffer) : StringBuffer :=
  mkBuffer (p sb) i (rpos sb) (limit sb).

(** The bytes written and not yet read. *)
Definition unread (sb : StringBuffer) : list Z :=
  take (Z.to_nat (wpos sb - rpos sb)) (drop (Z.to_nat (rpos sb)) (p sb)).

(** "wpos < al", "rpos < wpos or return EOF". *)
Definition valid (sb : StringBuffer) : Prop :=
  0 <= rpos sb <= wpos sb /\ wpos sb < al sb /\ limit sb < 2 ^ 64.

Lemma enlarge_spec (fuel : nat) : forall a need,
  0 < a -> need < a * 2 ^ Z.of_nat fuel ->
  need < enlarge fuel a need /\ a <= enlarge fuel a need.
Proof.
  induction fuel as [|fuel IH]; intros a need Ha Hn; cbn [enlarge].
  - cbn in Hn. lia.
  - rewrite Nat2Z.inj_succ, Z.pow_succ_r in Hn by lia.
    destruct (Z.leb_spec a need) as [Hle | Hgt]; [|lia].
    destruct (IH (a * 2 + 128) need ltac:(lia)) as [H1 H2]; [|lia].
    assert (0 < 2 ^ Z.of_nat fuel) by (apply Z.pow_pos_nonneg; lia). nia.
Qed.

Lemma lengthen_spec junk n sb sb' :
  valid sb -> 0 <= n -> lengthen junk n sb = Some sb' ->
  wpos sb + n <= limit sb /\ wpos sb + n < al sb' /\
  wpos sb' = wpos sb /\ rpos sb' = rpos sb /\ limit sb' = limit sb /\
  exists more, p sb' = p sb ++ more.
Proof.
  intros (Hr & Hw & Hl) Hn. unfold lengthen.
  destruct (Z.ltb_spec (limit sb) (wpos sb + n)) as [Hover | Hfit]; [discriminate|].
  destruct (Z.ltb_spec (wpos sb + n) (al sb)) as [Hroom | Hfull].
  - intros Heq. injection Heq as <-.
    split; [lia|]. split; [lia|]. split; [reflexivity|]. split; [reflexivity|].
    split; [reflexivity|]. exists []. now rewrite app_nil_r.
  - set (a := enlarge 64 (al sb) (wpos sb + n)).
    assert (Ha : wpos sb + n < a /\ al sb <= a).
    { apply enlarge_spec; [lia|]. change (Z.of_nat 64) with 64. lia. }
    clearbody a. intros Heq. injection Heq as <-. unfold reserve.
    destruct (Z.leb_spec a (al sb)) as [Hle | Hgt]; [lia|].
    cbn [wpos rpos limit p]. split; [lia|]. split.
    + unfold al, vsize in *. cbn [p]. rewrite length_app, length_replicate. lia.
    + split; [reflexivity|]. split; [reflexivity|]. split; [reflexivity|].
      eexists. reflexivity.
Qed.

Lemma unread_take (sb : StringBuffer) :
  0 <= rpos sb <= wpos sb ->
  unread sb = drop (Z.to_nat (rpos sb)) (take (Z.to_nat (wpos sb)) (p sb)).
Proof.
  intros H. unfold unread. rewrite take_drop_commute. f_equal. f_equal. lia.
Qed.

Lemma write_spec junk buf sb sb' :
  valid sb -> write junk buf sb = Some sb' ->
  valid sb' /\ unread sb' = unread sb ++ map (fun c => c mod 256) buf /\
  size sb' = size sb + vsize buf /\ size sb' <= limit sb' /\
  limit sb' = limit sb.
Proof.
  intros Hv. unfold write.
  destruct (lengthen junk (vsize buf) sb) as [sb1|] eqn:Hl; [|discriminate].
  intros Heq. injection Heq as <-.
  destruct (lengthen_spec junk (vsize buf) sb sb1 Hv ltac:(unfold vsize; lia) Hl)
    as (Hfit & Hroom & Hw & Hr & Hlim & more & Hp).
  destruct Hv as (Hrw & Hwa & Hl64).
  unfold valid, al, vsize, size in *. cbn [p wpos rpos limit].
  rewrite Hw, Hr, Hlim.
  assert (Hlen : length (take (Z.to_nat (wpos sb)) (p sb1)
                         ++ map (fun c => c mod 256) buf
                         ++ drop (Z.to_nat (wpos sb) + length buf) (p sb1))
                 = length (p sb1)).
  { rewrite !length_app, length_take, length_map, length_drop. lia. }
  split; [|split; [|split; [reflexivity | split; [lia | reflexivity]]]].
  - rewrite Hlen. lia.
  - rewrite !unread_take by (cbn [rpos wpos]; lia). cbn [p wpos rpos].
    rewrite take_app_ge by (rewrite length_take; lia).
    rewrite length_take.
    replace (Z.to_nat (wpos sb + Z.of_nat (length buf))
             - Z.to_nat (wpos sb) `min` length (p sb1))%nat
      with (length buf) by lia.
    rewrite take_app_ge by (rewrite length_map; lia).
    rewrite length_map, Nat.sub_diag, take_0, app_nil_r.
    rewrite drop_app_le by (rewrite length_take; lia).
    f_equal. f_equal. rewrite Hp. rewrite take_app_le by lia. reflexivity.
Qed.

Lemma put_spec junk c sb sb' :
  valid sb -> put junk c sb = Some sb' ->
  valid sb' /\ unread sb' = unread sb ++ [c mod 256] /\
  size sb' = size sb + 1 /\ size sb' <= limit sb' /\ limit sb' = limit sb.
Proof.
  intros Hv. unfold put.
  destruct (lengthen junk 1 sb) as [sb1|] eqn:Hl; [|discriminate].
  intros Heq. injection Heq as <-.
  destruct (lengthen_spec junk 1 sb sb1 Hv ltac:(lia) Hl)
    as (Hfit & Hroom & Hw & Hr & Hlim & more & Hp).
  destruct Hv as (Hrw & Hwa & Hl64).
  unfold valid, al, vsize, size in *. cbn [p wpos rpos limit].
  rewrite Hw, Hr, Hlim. rewrite length_insert.
  split; [lia|]. split; [|split; [reflexivity | split; [lia | reflexivity]]].
  rewrite !unread_take by (cbn [rpos wpos]; lia). cbn [p wpos rpos].
  rewrite insert_take_drop by lia.
  replace (Z.to_nat (wpos sb + 1)) with (S (Z.to_nat (wpos sb))) by lia.
  rewrite take_app_ge by (rewrite length_take; lia).
  rewrite length_take.
  replace (S (Z.to_nat (wpos sb)) - Z.to_nat (wpos sb) `min` length (p sb1))%nat
    with 1%nat by lia.
  cbn [take]. rewrite take_0.
  rewrite drop_app_le by (rewrite length_take; lia).
  f_equal. f_equal. rewrite Hp. rewrite take_app_le by lia. reflexivity.
Qed.

Lemma get_spec sb :
  valid sb ->
  (unread sb = [] ->
   get sb = (-1, reset sb) /\ unread (reset sb) = [] /\ size (reset sb) = 0) /\
  (forall c rest, unread sb = c :: rest ->
     exists sb', get sb = (c, sb') /\ valid sb' /\ unread sb' = rest /\
                 size sb' = size sb).
Proof.
  intros (Hrw & Hwa & Hl64). unfold al, vsize in Hwa.
  assert (Hlen : length (unread sb) = Z.to_nat (wpos sb - rpos sb)).
  { unfold unread. rewrite length_take, length_drop. lia. }
  split.
  - intros Hnil. rewrite Hnil in Hlen. cbn in Hlen.
    unfold get. replace (rpos sb <? wpos sb) with false
      by (symmetry; apply Z.ltb_ge; lia).
    split; [reflexivity|]. split; reflexivity.
  - intros c rest Hc. rewrite Hc in Hlen. cbn [length] in Hlen.
    unfold get. replace (rpos sb <? wpos sb) with true
      by (symmetry; apply Z.ltb_lt; lia).
    assert (Hat : p sb !! Z.to_nat (rpos sb) = Some c).
    { assert (H0 : unread sb !! 0%nat = Some c) by now rewrite Hc.
      unfold unread in H0. rewrite lookup_take_lt, lookup_drop in H0 by lia.
      now rewrite Nat.add_0_r in H0. }
    rewrite Hat. eexists. split; [reflexivity|].
    unfold valid, al, vsize, size, unread. cbn [p wpos rpos limit default from_option id].
    split; [lia|]. split; [|reflexivity].
    unfold unread in Hc.
    replace (Z.to_nat (wpos sb - rpos sb)) with (S (Z.to_nat (wpos sb - (rpos sb + 1))))
      in Hc by lia.
    rewrite (drop_S _ c _ Hat) in Hc. cbn [take] in Hc. injection Hc as Hc.
    replace (Z.to_nat (rpos sb + 1)) with (S (Z.to_nat (rpos sb))) by lia.
    exact Hc.
Qed.

(** X19.  A [StringBuffer] is a queue of bytes.  As long as [rpos <=
    wpos < al] holds (it holds for a new buffer and is kept by every
    operation here): [put] and [write], when they do not raise
    "StringBuffer overflow", append the bytes (as values of [unsigned
    char]) to the bytes not yet read; [get] takes the first of them
    off, and when none is left it returns -1 and resets the buffer to
    size 0. *)
Theorem buffer_queue (junk : Z) (sb : StringBuffer) :
  valid sb ->
  (forall c sb', put junk c sb = Some sb' ->
     valid sb' /\ unread sb' = unread sb ++ [c mod 256]) /\
  (forall buf sb', write junk buf sb = Some sb' ->
     valid sb' /\ unread sb' = unread sb ++ map (fun c => c mod 256) buf) /\
  (forall c rest, unread sb = c :: rest ->
     exists sb', get sb = (c, sb') /\ valid sb' /\ unread sb' = rest) /\
  (unread sb = [] ->
   get sb = (-1, reset sb) /\ unread (reset sb) = [] /\ size (reset sb) = 0).
Proof.
  intros Hv. split; [|split; [|split]].
  - intros c sb' Hp. destruct (put_spec _ _ _ _ Hv Hp) as (H1 & H2 & _).
    now split.
  - intros buf sb' Hw. destruct (write_spec _ _ _ _ Hv Hw) as (H1 & H2 & _).
    now split.
  - intros c rest Hc. destruct (proj2 (get_spec sb Hv) c rest Hc)
      as (sb' & Hg & Hv' & Hu & _).
    exists sb'. split; [exact Hg | split; [exact Hv' | exact Hu]].
  - exact (proj1 (get_spec sb Hv)).
Qed.

Lemma valid_new junk n : 0 <= n < 2 ^ 62 -> valid (new junk n).
Proof.
  intros Hn. unfold valid, new, al, vsize. cbn [p wpos rpos limit].
  rewrite length_replicate. split; [lia|]. split; [|lia].
  destruct (Z.ltb_spec n 128); lia.
Qed.

Lemma buffer_queue_witness :
  exists sb1 sb2,
    put 0 65 (new 0 0) = Some sb1 /\ put 0 66 sb1 = Some sb2 /\
    unread sb2 = [65; 66].
Proof.
  destruct (put 0 65 (new 0 0)) as [sb1|] eqn:H1; [|vm_compute in H1; discriminate].
  destruct (put 0 66 sb1) as [sb2|] eqn:H2.
  - exists sb1, sb2. split; [reflexivity|]. split; [exact H2|].
    destruct (buffer_queue 0 (new 0 0) (valid_new 0 0 ltac:(lia))) as [Hput _].
    destruct (Hput 65 sb1 H1) as [Hv1 Hu1].
    destruct (buffer_queue 0 sb1 Hv1) as [Hput1 _].
    destruct (Hput1 66 sb2 H2) as [_ Hu2].
    rewrite Hu2, Hu1. reflexivity.
  - exfalso. vm_compute in H1. injection H1 as <-. vm_compute in H2. discriminate.
Defined.

(** X20.  The limit of a [StringBuffer] holds: [write] of [n] bytes (and
    [put], of one) raises "StringBuffer overflow" exactly when the size
    would pass the limit, and then the buffer is left as it was;
    otherwise the size grows by [n] and stays within the limit. *)
Theorem buffer_limit (junk : Z) (sb : StringBuffer) (buf : list Z) (c : Z) :
  valid sb ->
  (write junk buf sb = None <-> limit sb < size sb + vsize buf) /\
  (put junk c sb = None <-> limit sb < size sb + 1) /\
  (forall sb', write junk buf sb = Some sb' ->
     size sb' = size sb + vsize buf /\ size sb' <= limit sb' /\
     limit sb' = limit sb) /\
  (forall sb', put junk c sb = Some sb' ->
     size sb' = size sb + 1 /\ size sb' <= limit sb' /\ limit sb' = limit sb).
Proof.
  intros Hv. split; [|split; [|split]].
  - unfold write, lengthen, size.
    destruct (Z.ltb_spec (limit sb) (wpos sb + vsize buf)) as [Ho | Hf].
    + split; [intros _; exact Ho | reflexivity].
    + split; [|lia]. destruct (wpos sb + vsize buf <? al sb); discriminate.
  - unfold put, lengthen, size.
    destruct (Z.ltb_spec (limit sb) (wpos sb + 1)) as [Ho | Hf].
    + split; [intros _; exact Ho | reflexivity].
    + split; [|lia]. destruct (wpos sb + 1 <? al sb); discriminate.
  - intros sb' Hw. destruct (write_spec _ _ _ _ Hv Hw) as (_ & _ & H1 & H2 & H3).
    split; [exact H1 | split; [exact H2 | exact H3]].
  - intros sb' Hp. destruct (put_spec _ _ _ _ Hv Hp) as (_ & _ & H1 & H2 & H3).
    split; [exact H1 | split; [exact H2 | exact H3]].
Qed.

Lemma buffer_limit_witness :
  write 0 [1; 2; 3] (setLimit 2 (new 0 0)) = None /\
  put 0 1 (setLimit 0 (new 0 0)) = None.
Proof.
  split.
  - apply (buffer_limit 0 (setLimit 2 (new 0 0)) [1; 2; 3] 0).
    + vm_compute. repeat split; (discriminate || reflexivity).
    + vm_compute. reflexivity.
  - apply (buffer_limit 0 (setLimit 0 (new 0 0)) [] 1).
    + vm_compute. repeat split; (discriminate || reflexivity).
    + vm_compute. reflexivity.
Defined.

End Buffer.

(** ** Bit counts ([lg], [nbits]) *)

Module Bitcount.

(** The string constant of [lg]: the number of bits of 0 to 15. *)
Definition lg_table : list Z := [0; 1; 2; 2; 3; 3; 3; 3; 4; 4; 4; 4; 4; 4; 4; 4].

(** [int lg(unsigned x)] *)
Definition lg (x : Z) : Z :=
  let x := wrap_unsigned x in
  let r := 0 in
  let '(r, x) := if 65536 <=? x then (16, Z.shiftr x 16) else (r, x) in
  let '(r, x) := if 256 <=? x then (wrap_unsigned (r + 8), Z.shiftr x 8) else (r, x) in
  let '(r, x) := if 16 <=? x then (wrap_unsigned (r + 4), Z.shiftr x 4) else (r, x) in
  wrap_int (wrap_unsigned (default 0 (lg_table !! Z.to_nat x) + r)).

(** The loop of [nbits]: [for (r=0; x; x>>=1) r+=x&1;]. *)
Fixpoint nbits_loop (fuel : nat) (x r : Z) : Z :=
  match fuel with
  | O => r
  | S fuel' => if x =? 0 then r
               else nbits_loop fuel' (Z.shiftr x 1) (wrap_int (r + Z.land x 1))
  end.

(** [int nbits(unsigned x)]; a value of [unsigned] is 0 after 32 shifts. *)
Definition nbits (x : Z) : Z := nbits_loop 32 (wrap_unsigned x) 0.

Lemma lg_small (y r : Z) :
  0 <= r <= 28 -> 1 <= y < 16 ->
  let t := default 0 (lg_table !! Z.to_nat y) in
  2 ^ (t + r - 1) <= y * 2 ^ r /\ (y + 1) * 2 ^ r <= 2 ^ (t + r) /\ 1 <= t <= 4.
Proof.
  intros Hr Hy t. subst t.
  assert (Hp : 0 < 2 ^ r) by (apply Z.pow_pos_nonneg; lia).
  assert (Hc : y = 1 \/ y = 2 \/ y = 3 \/ y = 4 \/ y = 5 \/ y = 6 \/ y = 7 \/ y = 8
               \/ y = 9 \/ y = 10 \/ y = 11 \/ y = 12 \/ y = 13 \/ y = 14 \/ y = 15)
    by lia.
  assert (E1 : 2 ^ (1 + r) = 2 * 2 ^ r) by (rewrite Z.pow_add_r by lia; reflexivity).
  assert (E2 : 2 ^ (2 + r) = 4 * 2 ^ r) by (rewrite Z.pow_add_r by lia; reflexivity).
  assert (E3 : 2 ^ (3 + r) = 8 * 2 ^ r) by (rewrite Z.pow_add_r by lia; reflexivity).
  assert (E4 : 2 ^ (4 + r) = 16 * 2 ^ r) by (rewrite Z.pow_add_r by lia; reflexivity).
  repeat (destruct Hc as [-> | Hc]); try subst y;
    match goal with
    | |- context [default 0 (lg_table !! ?i)] =>
        let v := eval vm_compute in (default 0 (lg_table !! i)) in
        change (default 0 (lg_table !! i)) with v
    end;
    (replace (1 + r - 1) with r by lia || idtac);
    (replace (2 + r - 1) with (1 + r) by lia || idtac);
    (replace (3 + r - 1) with (2 + r) by lia || idtac);
    (replace (4 + r - 1) with (3 + r) by lia || idtac);
    rewrite ?E1, ?E2, ?E3, ?E4; lia.
Qed.

(** The shifts leave the top four bits and count the others. *)
Lemma lg_shape (x : Z) :
  1 <= x < 2 ^ 32 ->
  exists y r,
    0 <= r <= 28 /\ 1 <= y < 16 /\ y * 2 ^ r <= x < (y + 1) * 2 ^ r /\
    lg x = default 0 (lg_table !! Z.to_nat y) + r.
Proof.
  intros Hx. unfold lg. rewrite wrap_unsigned_small by lia. cbv zeta.
  assert (Hfin : forall y r, 0 <= r <= 28 -> 1 <= y < 16 ->
            wrap_int (wrap_unsigned (default 0 (lg_table !! Z.to_nat y) + r))
            = default 0 (lg_table !! Z.to_nat y) + r).
  { intros y r Hr Hy. destruct (lg_small y r Hr Hy) as (_ & _ & Ht).
    rewrite wrap_unsigned_small by lia. apply wrap_int_small. lia. }
  assert (Hdiv : forall a k, 0 <= a -> 0 <= k ->
            Z.shiftr a k * 2 ^ k <= a < (Z.shiftr a k + 1) * 2 ^ k).
  { intros a k Ha Hk. rewrite Z.shiftr_div_pow2 by lia.
    assert (0 < 2 ^ k) by (apply Z.pow_pos_nonneg; lia).
    pose proof (Z.div_mod a (2 ^ k) ltac:(lia)).
    pose proof (Z.mod_pos_bound a (2 ^ k) ltac:(lia)). lia. }
  destruct (Z.leb_spec 65536 x) as [H1 | H1].
  - pose proof (Hdiv x 16 ltac:(lia) ltac:(lia)) as D1.
    set (x1 := Z.shiftr x 16) in *. change (2 ^ 16) with 65536 in D1.
    destruct (Z.leb_spec 256 x1) as [H2 | H2].
    + pose proof (Hdiv x1 8 ltac:(lia) ltac:(lia)) as D2.
      set (x2 := Z.shiftr x1 8) in *. change (2 ^ 8) with 256 in D2.
      change (wrap_unsigned (16 + 8)) with 24.
      destruct (Z.leb_spec 16 x2) as [H3 | H3].
      * pose proof (Hdiv x2 4 ltac:(lia) ltac:(lia)) as D3.
        set (x3 := Z.shiftr x2 4) in *. change (2 ^ 4) with 16 in D3.
        change (wrap_unsigned (24 + 4)) with 28.
        exists x3, 28. change (2 ^ 28) with 268435456.
        split; [lia|]. split; [lia|]. split; [lia|]. apply Hfin; lia.
      * exists x2, 24. change (2 ^ 24) with 16777216.
        split; [lia|]. split; [lia|]. split; [lia|]. apply Hfin; lia.
    + destruct (Z.leb_spec 16 x1) as [H3 | H3].
      * pose proof (Hdiv x1 4 ltac:(lia) ltac:(lia)) as D3.
        set (x3 := Z.shiftr x1 4) in *. change (2 ^ 4) with 16 in D3.
        change (wrap_unsigned (16 + 4)) with 20.
        exists x3, 20. change (2 ^ 20) with 1048576.
        split; [lia|]. split; [lia|]. split; [lia|]. apply Hfin; lia.
      * exists x1, 16. change (2 ^ 16) with 65536.
        split; [lia|]. split; [lia|]. split; [lia|]. apply Hfin; lia.
  - destruct (Z.leb_spec 256 x) as [H2 | H2].
    + pose proof (Hdiv x 8 ltac:(lia) ltac:(lia)) as D2.
      set (x2 := Z.shiftr x 8) in *. change (2 ^ 8) with 256 in D2.
      change (wrap_unsigned (0 + 8)) with 8.
      destruct (Z.leb_spec 16 x2) as [H3 | H3].
      * pose proof (Hdiv x2 4 ltac:(lia) ltac:(lia)) as D3.
        set (x3 := Z.shiftr x2 4) in *. change (2 ^ 4) with 16 in D3.
        change (wrap_unsigned (8 + 4)) with 12.
        exists x3, 12. change (2 ^ 12) with 4096.
        split; [lia|]. split; [lia|]. split; [lia|]. apply Hfin; lia.
      * exists x2, 8. change (2 ^ 8) with 256.
        split; [lia|]. split; [lia|]. split; [lia|]. apply Hfin; lia.
    + destruct (Z.leb_spec 16 x) as [H3 | H3].
      * pose proof (Hdiv x 4 ltac:(lia) ltac:(lia)) as D3.
        set (x3 := Z.shiftr x 4) in *. change (2 ^ 4) with 16 in D3.
        change (wrap_unsigned (0 + 4)) with 4.
        exists x3, 4. change (2 ^ 4) with 16.
        split; [lia|]. split; [lia|]. split; [lia|]. apply Hfin; lia.
      * exists x, 0. change (2 ^ 0) with 1.
        split; [lia|]. split; [lia|]. split; [lia|]. apply Hfin; lia.
Qed.

(** X21.  For a value [x] of [unsigned], [lg(x)] is the number of bits
    of [x] without the leading zeros: 0 for 0 and, for [x >= 1],
    [floor(log2(x)) + 1], so that [2^(lg(x)-1) <= x < 2^lg(x)]. *)
Theorem lg_spec (x : Z) :
  0 <= x < 2 ^ 32 ->
  lg x = (if x =? 0 then 0 else Z.log2 x + 1) /\
  (1 <= x -> 2 ^ (lg x - 1) <= x < 2 ^ lg x).
Proof.
  intros Hx. destruct (Z.eqb_spec x 0) as [-> | Hne].
  - split; [reflexivity | lia].
  - destruct (lg_shape x ltac:(lia)) as (y & r & Hr & Hy & Hxy & Hlg).
    destruct (lg_small y r Hr Hy) as (Hlo & Hhi & Ht).
    cbv zeta in Hlo, Hhi, Ht. rewrite Hlg.
    set (t := default 0 (lg_table !! Z.to_nat y)) in *.
    assert (Hb : 2 ^ (t + r - 1) <= x < 2 ^ (t + r)) by lia.
    split; [|intros _; exact Hb].
    rewrite (Z.log2_unique x (t + r - 1)); [lia | lia |].
    replace (Z.succ (t + r - 1)) with (t + r) by lia. exact Hb.
Qed.

Lemma lg_spec_witness : lg 1000 = 10 /\ 2 ^ 9 <= 1000 < 2 ^ 10.
Proof.
  destruct (lg_spec 1000 ltac:(lia)) as [H1 H2].
  split; [rewrite H1; reflexivity|].
  specialize (H2 ltac:(lia)). rewrite H1 in H2. exact H2.
Defined.

(** The bits of [x] below [k] that are 1. *)
Definition ones (k : nat) (x : Z) : Z :=
  Z.of_nat (length (filter (fun i : nat => Z.testbit x (Z.of_nat i) = true) (seq 0 k))).

Lemma ones_bound k x : 0 <= ones k x <= Z.of_nat k.
Proof.
  unfold ones. pose proof (length_filter (fun i : nat => Z.testbit x (Z.of_nat i) = true) (seq 0 k)) as H.
  rewrite length_seq in H. lia.
Qed.

Lemma ones_S (k : nat) (x : Z) :
  ones (S k) x = Z.b2z (Z.testbit x 0) + ones k (Z.shiftr x 1).
Proof.
  unfold ones. cbn [seq]. rewrite filter_cons. rewrite <- fmap_S_seq.
  assert (E : length (filter (fun i : nat => Z.testbit x (Z.of_nat i) = true)
                             (S <$> seq 0 k))
              = length (filter (fun i : nat => Z.testbit (Z.shiftr x 1) (Z.of_nat i) = true)
                               (seq 0 k))).
  { induction (seq 0 k) as [|i l IH]; [reflexivity|].
    cbn [fmap list_fmap]. rewrite !filter_cons.
    rewrite Z.shiftr_spec by lia.
    replace (Z.of_nat i + 1) with (Z.of_nat (S i)) by lia.
    destruct (decide (Z.testbit x (Z.of_nat (S i)) = true)); cbn [length];
      fold (@fmap list _ nat nat S l); now rewrite IH. }
  change (Z.of_nat 0) with 0.
  destruct (Z.testbit x 0) eqn:Hb.
  - rewrite decide_True by reflexivity. cbn [length Z.b2z]. rewrite E. lia.
  - rewrite decide_False by discriminate. cbn [Z.b2z]. rewrite E. lia.
Qed.

Lemma nbits_loop_ones (fuel : nat) : forall x r,
  0 <= x < 2 ^ Z.of_nat fuel -> 0 <= r -> r + Z.of_nat fuel < 2 ^ 31 ->
  nbits_loop fuel x r = r + ones fuel x.
Proof.
  induction fuel as [|fuel IH]; intros x r Hx Hr Hb.
  - cbn. unfold ones. cbn. lia.
  - cbn [nbits_loop]. rewrite ones_S.
    assert (Hbit : Z.land x 1 = Z.b2z (Z.testbit x 0)).
    { change 1 with (Z.ones 1). rewrite Z.land_ones by lia.
      rewrite Z.bit0_mod. reflexivity. }
    destruct (Z.eqb_spec x 0) as [-> | Hne].
    + rewrite Z.shiftr_0_l. cbn [Z.testbit Z.b2z].
      assert (H0 : ones fuel 0 = 0).
      { unfold ones. induction (seq 0 fuel) as [|i l IHl]; [reflexivity|].
        rewrite filter_cons, Z.bits_0, decide_False by discriminate. exact IHl. }
      rewrite H0. change (Z.b2z (Z.odd 0)) with 0. lia.
    + assert (Hq : 0 <= Z.shiftr x 1 < 2 ^ Z.of_nat fuel).
      { rewrite Z.shiftr_div_pow2 by lia. change (2 ^ 1) with 2.
        rewrite Nat2Z.inj_succ, Z.pow_succ_r in Hx by lia.
        split; [apply Z.div_pos; lia | apply Z.div_lt_upper_bound; lia]. }
      assert (Hb01 : 0 <= Z.b2z (Z.testbit x 0) <= 1)
        by (destruct (Z.testbit x 0); cbn; lia).
      rewrite Hbit, wrap_int_small by lia.
      rewrite IH by lia. lia.
Qed.

(** X22.  For a value [x] of [unsigned], [nbits(x)] is the number of
    bits of [x] that are 1. *)
Theorem nbits_spec (x : Z) : 0 <= x < 2 ^ 32 -> nbits x = ones 32 x.
Proof.
  intros Hx. unfold nbits. rewrite wrap_unsigned_small by lia.
  rewrite nbits_loop_ones; [lia | change (Z.of_nat 32) with 32; lia | lia | lia].
Qed.

Lemma nbits_spec_witness : nbits 255 = 8 /\ nbits 4097 = 2.
Proof.
  split.
  - rewrite (nbits_spec 255) by lia. reflexivity.
  - rewrite (nbits_spec 4097) by lia. reflexivity.
Defined.

End Bitcount.

(** ** Dates of snapshots and of restored files *)

Module Snapshot.

(** "Adjust date to maintain sequential order" in [Jidac::add]: [dates]
    are the dates of [ver] ([ver[0]] is the entry that [doCommand]
    makes, with date 0), [date] is the wall-clock date of the run.  The
    result is the date of the new snapshot and whether the warning is
    printed.  [unix_time(...)+1] is computed in [time_t]. *)
Definition adjust_date (dates : list Z) (date : Z) : Z * bool :=
  match last dates with
  | Some back =>
      if date <=? back
      then (Date.decimal_time (wrap_int64 (Date.unix_time back + 1)), true)
      else (date, false)
  | None => (date, false)
  end.

(** The clock was set back by a day, an hour before midnight on New
    Year's Eve, on the eve of a leap day: one second is added. *)
Example adjust_next_second :
  adjust_date [0; 20250101120000] 20241231120000 = (20250101120001, true).
Proof. vm_compute. reflexivity. Qed.

Example adjust_new_year :
  adjust_date [0; 20241231235959] 20241231230000 = (20250101000000, true).
Proof. vm_compute. reflexivity. Qed.

Example adjust_leap_day :
  adjust_date [0; 20240228235959] 20240228235959 = (20240229000000, true).
Proof. vm_compute. reflexivity. Qed.

Example adjust_not_needed :
  adjust_date [0; 20250101120000] 20250101120001 = (20250101120001, false).
Proof. vm_compute. reflexivity. Qed.

(** C5.  With a last snapshot of 2038-01-19 03:14:08 (the date that
    [decimal_time] gives for 2^31 seconds) and a wall clock that is not
    ahead of it, the new snapshot does not get the date one second
    later, 20380119031409: [unix_time] computes in [int], the sum passes
    2^31 - 1, and the new date is -1, which is before the last
    snapshot's ([assert(newdate>date)] would fail). *)
Theorem adjust_date_2038 :
  Date.decimal_time (2 ^ 31) = 20380119031408 /\
  Date.unix_time 20380119031408 = - 2 ^ 31 /\
  adjust_date [0; 20380119031408] 20380119031400 = (-1, true) /\
  (adjust_date [0; 20380119031408] 20380119031400).1 < 20380119031408.
Proof. vm_compute. repeat split; reflexivity. Qed.

(** *** The calendar before 2038 *)

(** Year, month and day as [decimal_time] computes them from the days
    since 1970-01-01. *)
Definition date_part (t : Z) : Z * Z * Z :=
  let term := wrap_int (t ÷ 1461) in
  let t := Z.rem t 1461 in
  let t := t + b2z (59 <=? t) in
  let t := t + b2z (425 <=? t) in
  let t := t + b2z (1157 <=? t) in
  let year := wrap_int (int_mul term 4 + t ÷ 366 + 1970) in
  let t := Z.rem t 366 in
  let t := t + b2z (60 <=? t) * 2 in
  let t := t + b2z (123 <=? t) in
  let t := t + b2z (185 <=? t) in
  let t := t + b2z (278 <=? t) in
  let t := t + b2z (340 <=? t) in
  (year, wrap_int (t ÷ 31 + 1), wrap_int (Z.rem t 31 + 1)).

Lemma decimal_time_parts t :
  0 < t ->
  Date.decimal_time t
  = let '(year, month, day) := date_part (t ÷ 86400) in
    wrap_int64 (year * 10000000000 + int_mul month 100000000
                + int_mul day 1000000
                + int_mul (wrap_int (Z.rem (t ÷ 3600) 24)) 10000
                + int_mul (wrap_int (Z.rem (t ÷ 60) 60)) 100
                + wrap_int (Z.rem t 60)).
Proof.
  intros Ht. unfold Date.decimal_time, date_part.
  replace (t <=? 0) with false by (symmetry; apply Z.leb_gt; lia).
  reflexivity.
Qed.

(** The days since 1970-01-01 as [unix_time] computes them from the
    year, the month (0 for January) and the day. *)
Definition dayno_of (year month day : Z) : Z :=
  let leap := b2z ((Z.rem year 4 =? 0) && (1 <? month)) in
  int_add (int_add (int_add (int_sub day 1) (Date.days_at month)) leap)
          (int_div (int_add (int_mul (int_sub year 1970) 1461) 1) 4).

Definition ymd (t : Z) : Z :=
  let '(year, month, day) := date_part t in year * 10000 + month * 100 + day.

(** Day [t] has a date within 1970..2038 from which [unix_time] gets
    [t] back, and the next day has a later date. *)
Definition check_day (t : Z) : bool :=
  let '(year, month, day) := date_part t in
  (1970 <=? year) && (year <=? 2038) && (1 <=? month) && (month <=? 12)
  && (1 <=? day) && (day <=? 31) && (dayno_of year (month - 1) day =? t)
  && (ymd t <? ymd (t + 1)).

Definition range158 : list Z := map Z.of_nat (seq 0 158).

Definition check_days (a : Z) : bool :=
  forallb (fun b => (24856 <=? 158 * a + b) || check_day (158 * a + b)) range158.

Lemma all_days : forallb check_days range158 = true.
Proof. vm_compute. reflexivity. Qed.

Ltac Zify.zify_post_hook ::= Z.to_euclidean_division_equations.

Lemma in_range158 x : 0 <= x < 158 -> In x range158.
Proof.
  intros Hx. unfold range158. rewrite <- (Z2Nat.id x) by lia.
  apply in_map, in_seq. lia.
Qed.

Lemma day_ok t : 0 <= t < 24856 -> check_day t = true.
Proof.
  intros Ht. pose proof all_days as H. rewrite forallb_forall in H.
  specialize (H (t / 158) ltac:(apply in_range158; lia)).
  unfold check_days in H. rewrite forallb_forall in H.
  specialize (H (t mod 158) ltac:(apply in_range158; lia)).
  replace (158 * (t / 158) + t mod 158) with t in H by lia.
  replace (24856 <=? t) with false in H by (symmetry; apply Z.leb_gt; lia).
  exact H.
Qed.

(** What [day_ok] says of a day, as propositions. *)
Lemma day_facts t year month day :
  0 <= t < 24856 -> date_part t = (year, month, day) ->
  1970 <= year <= 2038 /\ 1 <= month <= 12 /\ 1 <= day <= 31 /\
  dayno_of year (month - 1) day = t /\ ymd t < ymd (t + 1).
Proof.
  intros Ht Hp. pose proof (day_ok t Ht) as H. unfold check_day in H.
  rewrite Hp in H. rewrite !andb_true_iff in H.
  rewrite !Z.leb_le, Z.eqb_eq, Z.ltb_lt in H. lia.
Qed.

Ltac unwrap :=
  unfold int_add, int_mul;
  repeat match goal with
         | |- context [wrap_int ?x] =>
             lazymatch x with
             | context [wrap_int _] => fail
             | _ => rewrite (wrap_int_small x) by lia
             end
         end.

Lemma date_fields year month day hour min sec :
  1970 <= year <= 2038 -> 1 <= month <= 12 -> 1 <= day <= 31 ->
  0 <= hour < 24 -> 0 <= min < 60 -> 0 <= sec < 60 ->
  let date := year * 10000000000 + month * 100000000 + day * 1000000
              + hour * 10000 + min * 100 + sec in
  Z.rem (date ÷ 10000000000) 10000 = year /\
  Z.rem (Z.rem (date ÷ 100000000) 100 - 1) 12 = month - 1 /\
  Z.rem (date ÷ 1000000) 100 = day /\
  Z.rem (date ÷ 10000) 100 = hour /\
  Z.rem (date ÷ 100) 100 = min /\
  Z.rem date 100 = sec.
Proof.
  intros Hy Hm Hd Hh Hmi Hs date. subst date.
  split; [lia|]. split; [lia|]. split; [lia|]. split; [lia|]. split; lia.
Qed.

Lemma unix_time_parts year month day hour min sec :
  1970 <= year <= 2038 -> 1 <= month <= 12 -> 1 <= day <= 31 ->
  0 <= hour < 24 -> 0 <= min < 60 -> 0 <= sec < 60 ->
  Date.unix_time (year * 10000000000 + month * 100000000 + day * 1000000
                  + hour * 10000 + min * 100 + sec)
  = int_add (int_add (int_add (int_mul (dayno_of year (month - 1) day) 86400)
                              (int_mul hour 3600))
                     (int_mul min 60)) sec.
Proof.
  intros Hy Hm Hd Hh Hmi Hs.
  pose proof (date_fields year month day hour min sec Hy Hm Hd Hh Hmi Hs) as E.
  cbv zeta in E. destruct E as (E1 & E2 & E3 & E4 & E5 & E6).
  unfold Date.unix_time.
  match goal with |- context [?x <=? 0] =>
    replace (x <=? 0) with false
      by (symmetry; apply Z.leb_gt; clear E1 E2 E3 E4 E5 E6; lia)
  end.
  cbv zeta. rewrite E1, E2, E3, E4, E5, E6. clear E1 E2 E3 E4 E5 E6.
  rewrite !(wrap_int_small year), !(wrap_int_small (month - 1)),
    !(wrap_int_small day), !(wrap_int_small hour), !(wrap_int_small min),
    !(wrap_int_small sec) by lia.
  unfold dayno_of. reflexivity.
Qed.

(** The date of [t] as a number, and its parts. *)
Lemma decimal_time_sum t year month day :
  0 < t < 2 ^ 31 -> date_part (t ÷ 86400) = (year, month, day) ->
  Date.decimal_time t
  = year * 10000000000 + month * 100000000 + day * 1000000
    + Z.rem (t ÷ 3600) 24 * 10000 + Z.rem (t ÷ 60) 60 * 100 + Z.rem t 60.
Proof.
  intros Ht Hp. rewrite decimal_time_parts by lia. rewrite Hp.
  destruct (day_facts (t ÷ 86400) _ _ _ ltac:(lia) Hp) as (Hy & Hm & Hd & _).
  unwrap. apply wrap_int64_small. lia.
Qed.

(** Before 2038 [unix_time] undoes [decimal_time]. *)
Lemma unix_decimal_time t :
  0 < t < 2 ^ 31 -> Date.unix_time (Date.decimal_time t) = t.
Proof.
  intros Ht. destruct (date_part (t ÷ 86400)) as [[year month] day] eqn:Hp.
  rewrite (decimal_time_sum _ _ _ _ Ht Hp).
  destruct (day_facts (t ÷ 86400) _ _ _ ltac:(lia) Hp) as (Hy & Hm & Hd & Hno & _).
  rewrite unix_time_parts by lia. rewrite Hno. unwrap. lia.
Qed.

(** Before 2038 the next second has a later date. *)
Lemma decimal_time_next t :
  0 < t < 2 ^ 31 - 1 -> Date.decimal_time t < Date.decimal_time (t + 1).
Proof.
  intros Ht.
  destruct (date_part (t ÷ 86400)) as [[y m] d] eqn:Hp.
  destruct (date_part ((t + 1) ÷ 86400)) as [[y' m'] d'] eqn:Hp'.
  rewrite (decimal_time_sum t _ _ _ ltac:(lia) Hp).
  rewrite (decimal_time_sum (t + 1) _ _ _ ltac:(lia) Hp').
  destruct (day_facts (t ÷ 86400) _ _ _ ltac:(lia) Hp) as (Hy & Hm & Hd & _ & Hnext).
  destruct (Z.eq_dec (Z.rem (t + 1) 86400) 0) as [E | E].
  - replace ((t + 1) ÷ 86400) with (t ÷ 86400 + 1) in Hp' by lia.
    unfold ymd in Hnext. rewrite Hp, Hp' in Hnext. lia.
  - replace ((t + 1) ÷ 86400) with (t ÷ 86400) in Hp' by lia.
    rewrite Hp in Hp'. injection Hp' as <- <- <-. lia.
Qed.

(** Before 2038 the date is adjusted to the second after the last
    snapshot's, which is later. *)
Lemma adjust_before_2038 t date :
  0 < t < 2 ^ 31 - 1 -> date <= Date.decimal_time t ->
  adjust_date [0; Date.decimal_time t] date = (Date.decimal_time (t + 1), true) /\
  Date.decimal_time t < Date.decimal_time (t + 1).
Proof.
  intros Ht Hd. split; [|now apply decimal_time_next].
  unfold adjust_date. cbn [last].
  replace (date <=? Date.decimal_time t) with true by (symmetry; now apply Z.leb_le).
  rewrite unix_decimal_time by lia. rewrite wrap_int64_small by lia. reflexivity.
Qed.

(** The way of a file's time of last modification through [add] and
    [extract] on Unix: [scandir] stores [decimal_time(sb.st_mtime)] as
    [edate], [add] writes [ltob(edate)] into the index, [read_archive]
    reads it back with [btol], and [OutputFile::close] (for a
    directory, [makepath]) sets [ub.modtime=unix_time(date)] if
    [date>0] and leaves the time alone otherwise. *)
Definition stored_date (st_mtime : Z) : Z := Date.decimal_time st_mtime.

Definition restored_mtime (st_mtime : Z) : option Z :=
  let date := Bytes.btol (Bytes.ltob (stored_date st_mtime)) in
  if 0 <? date then Some (Date.unix_time date) else None.

Example restored_mtime_2025 : restored_mtime 1735732800 = Some 1735732800.
Proof. vm_compute. reflexivity. Qed.

Example restored_mtime_last : restored_mtime (2 ^ 31 - 1) = Some (2 ^ 31 - 1).
Proof. vm_compute. reflexivity. Qed.

(** Before 2038 a file gets its time of last modification back. *)
Lemma restored_before_2038 t : 0 < t < 2 ^ 31 -> restored_mtime t = Some t.
Proof.
  intros Ht. unfold restored_mtime, stored_date. cbv zeta.
  destruct (date_part (t ÷ 86400)) as [[year month] day] eqn:Hp.
  destruct (day_facts (t ÷ 86400) _ _ _ ltac:(lia) Hp) as (Hy & Hm & Hd & _).
  assert (Hdate : 0 < Date.decimal_time t < 2 ^ 63)
    by (rewrite (decimal_time_sum _ _ _ _ Ht Hp); lia).
  rewrite <- (app_nil_r (Bytes.ltob _)), Bytes.btol_ltob by lia.
  replace (0 <? Date.decimal_time t) with true by (symmetry; apply Z.ltb_lt; lia).
  now rewrite unix_decimal_time.
Qed.

(** C1.  A file last modified 2^31 seconds after the epoch (2038-01-19
    03:14:08) is stored with the date 20380119031408 and restored with
    the time -2^31 (1901-12-13): the round trip does not give back the
    time of last modification. *)
Theorem mtime_2038 :
  stored_date (2 ^ 31) = 20380119031408 /\
  restored_mtime (2 ^ 31) = Some (- 2 ^ 31) /\
  restored_mtime (2 ^ 31) <> Some (2 ^ 31).
Proof. vm_compute. repeat split; (reflexivity || discriminate). Qed.

(** *** Dates before 2038 *)

(** X23.  For every time [t] with [0 < t < 2^31] (1970-01-01 00:00:01 to
    2038-01-19 03:14:07) [unix_time] undoes [decimal_time]: the date
    that [decimal_time] gives for [t] is turned back into [t]. *)
Theorem date_round_trip (t : Z) :
  0 < t < 2 ^ 31 -> Date.unix_time (Date.decimal_time t) = t.
Proof. exact (unix_decimal_time t). Qed.

Lemma date_round_trip_witness :
  Date.decimal_time 1735732800 = 20250101120000 /\
  Date.unix_time (Date.decimal_time 1735732800) = 1735732800.
Proof.
  split; [vm_compute; reflexivity|]. apply (date_round_trip 1735732800). lia.
Defined.

Lemma decimal_time_later (n : nat) : forall t : Z,
  0 < t -> t + 1 + Z.of_nat n < 2 ^ 31 ->
  Date.decimal_time t < Date.decimal_time (t + 1 + Z.of_nat n).
Proof.
  induction n as [|n IH]; intros t H0 Hlt.
  - replace (t + 1 + Z.of_nat 0) with (t + 1) by lia.
    apply decimal_time_next. lia.
  - apply Z.lt_trans with (Date.decimal_time (t + 1 + Z.of_nat n)).
    + apply IH; lia.
    + replace (t + 1 + Z.of_nat (S n)) with (t + 1 + Z.of_nat n + 1) by lia.
      apply decimal_time_next. lia.
Qed.

(** X24.  Before 2038 the decimal dates are in the order of the times
    they stand for: if [0 < t < t' < 2^31] then the date of [t] is a
    smaller number than the date of [t']. *)
Theorem decimal_time_increasing (t t' : Z) :
  0 < t -> t < t' -> t' < 2 ^ 31 ->
  Date.decimal_time t < Date.decimal_time t'.
Proof.
  intros H0 Hlt Hmax.
  replace t' with (t + 1 + Z.of_nat (Z.to_nat (t' - t - 1))) by lia.
  apply decimal_time_later; lia.
Qed.

Lemma decimal_time_increasing_witness :
  Date.decimal_time 1709251199 = 20240229235959 /\
  Date.decimal_time 1709251200 = 20240301000000 /\
  Date.decimal_time 1709251199 < Date.decimal_time 1709251200.
Proof.
  split; [vm_compute; reflexivity|]. split; [vm_compute; reflexivity|].
  apply (decimal_time_increasing 1709251199 1709251200); lia.
Defined.

(** X25.  When the last snapshot of the archive has the date of a time
    [t] with [0 < t < 2^31 - 1], the date that [add] gives the new
    snapshot is later than the last snapshot's, whatever the wall clock
    says: the clock's date if that is later, and otherwise the date of
    the second after [t], with the warning. *)
Theorem snapshot_dates_increase (dates : list Z) (t date : Z) :
  last dates = Some (Date.decimal_time t) -> 0 < t < 2 ^ 31 - 1 ->
  Date.decimal_time t < (adjust_date dates date).1 /\
  ((adjust_date dates date).2 = true ->
   (adjust_date dates date).1 = Date.decimal_time (t + 1)).
Proof.
  intros Hlast Ht. unfold adjust_date. rewrite Hlast.
  destruct (Z.leb_spec date (Date.decimal_time t)) as [Hle | Hgt]; cbn [fst snd].
  - rewrite unix_decimal_time by lia. rewrite wrap_int64_small by lia.
    split; [apply decimal_time_next; lia | reflexivity].
  - split; [lia | discriminate].
Qed.

Lemma snapshot_dates_increase_witness :
  (adjust_date [0; Date.decimal_time 1735732800] 20241231120000).1
  = 20250101120001.
Proof.
  destruct (snapshot_dates_increase [0; Date.decimal_time 1735732800]
              1735732800 20241231120000 eq_refl ltac:(lia)) as [_ H].
  rewrite H; vm_compute; reflexivity.
Defined.

End Snapshot.
